(** * The tesseract.js worker script: job dispatcher, handlers and language loader

    A shallow embedding of the worker script (the source file with
    [dispatchHandlers], [setAdapter] and the ten handlers the dispatcher
    routes to).  The script is effectful JavaScript: it keeps module-level
    variables ([TessModule], [api], [latestJob], [params]), calls into the
    OCR engine module, into the platform adapter and into two helpers, and
    answers through the response emitter [res].

    - The module-level variables are threaded explicitly ([globals]).
    - Everything the script does to the outside is recorded, in order, in a
      trace of [event]s: the invocations of adapter, engine and helper
      functions, the settling of awaited promises, and the packets handed
      to [send].
    - What the outside answers is chosen by the [Platform]: each answer is a
      function of the whole trace so far, so a platform can describe any
      deterministic mock (one that fails on the second call, for instance).
      An answer either returns or throws; for an asynchronous function of
      the adapter the answer is what its promise settles to.
    - Synchronous code runs in the monad [M] (state, trace and exceptions);
      [async] functions run in the resumption monad [Async], whose [Yield]
      is the suspension of an [await].  [Promise.all] over several language
      loads is an interleaving of such resumptions, driven by a schedule.

    What is taken for granted: a packet carries the payload of its action
    (section 6 of the specification), with values of the types given there;
    thrown values are errors (they have [toString]); [send] does not throw;
    [log], which only writes to the console, is left out.  The adapter is
    handed the emitter [res] by [load]; what it sends through it is sent
    while [getCore] runs (the [reports] of the platform), not later. *)

From Stdlib Require Import String Ascii List ZArith Bool Arith Lia.
From Stdlib Require Import QArith_base.
Import ListNotations.
Close Scope Q_scope.
Open Scope string_scope.
Open Scope list_scope.

Set Implicit Arguments.

(* ================================================================== *)
(** ** Values                                                          *)
(* ================================================================== *)

Definition bytes := list Byte.byte.

(** An opaque object owned by the engine or by the adapter: the module, an
    API instance, a renderer, a fetch response. *)
Definition handle := nat.

(** JavaScript values the script only passes along. *)
Inductive jsval : Type :=
| VUndefined
| VNull
| VBool (b : bool)
| VNum (z : Z)
| VStr (s : string)
| VBytes (b : bytes)
| VRef (h : handle).

(** A thrown value: all the script does with one is [err.toString()] and
    [err instanceof DOMException]. *)
Record exn : Type := { toString : string; isDOMException : bool }.

Inductive outcome (A : Type) : Type :=
| Returns (a : A)
| Throws (e : exn).
Arguments Throws {A} e.

(** A plain object used as a mapping, as its own properties in insertion
    order.  (Keys that look like array indices, which JavaScript enumerates
    first, do not occur among parameter names.) *)
Definition obj := list (string * jsval).

(** A JavaScript object has each key once. *)
Definition obj_wf (o : obj) : Prop := NoDup (map fst o).

Definition Object_keys (o : obj) : list string := map fst o.

(** [o[k]] *)
Fixpoint obj_get (o : obj) (k : string) : option jsval :=
  match o with
  | [] => None
  | (k', v) :: r => if String.eqb k' k then Some v else obj_get r k
  end.

Definition obj_index (o : obj) (k : string) : jsval :=
  match obj_get o k with Some v => v | None => VUndefined end.

(** [o[k] = v]: an existing key keeps its place, a new one goes last. *)
Fixpoint obj_set (o : obj) (k : string) (v : jsval) : obj :=
  match o with
  | [] => [(k, v)]
  | (k', v') :: r =>
      if String.eqb k' k then (k', v) :: r else (k', v') :: obj_set r k v
  end.

(** Copying the own properties of [src] onto [target], in order. *)
Definition obj_assign (target src : obj) : obj :=
  fold_left (fun o kv => obj_set o (fst kv) (snd kv)) src target.

(** [{ ...a, ...b }] *)
Definition spread (a b : obj) : obj := obj_assign (obj_assign [] a) b.

(* ================================================================== *)
(** ** Packets                                                         *)
(* ================================================================== *)

(** A language spec: a code, or an inline [{code, data}]. *)
Inductive lang_spec : Type :=
| LangCode (code : string)
| LangInline (code : string) (data : bytes).

Inductive langs_arg : Type :=
| LangsString (s : string)
| LangsArray (l : list lang_spec).

(** [payload.options] of [loadLanguage].  [None] is [undefined]. *)
Record language_options : Type := {
  langPath : string;
  dataPath : option string;
  cachePath : option string;
  cacheMethod : option string;
  gzip : option bool
}.

Record rectangle : Type := {
  rect_left : jsval; rect_top : jsval; rect_width : jsval; rect_height : jsval
}.

(** The payload shapes of the ten actions. *)
Inductive payload : Type :=
| PLoad (corePath logging : jsval)
| PFS (method : string) (args : list jsval)
| PLoadLanguage (langs : langs_arg) (options : language_options)
| PInitialize (langs : langs_arg) (oem : jsval)
| PSetParameters (params : obj)
| PRecognize (image : jsval) (rec : option rectangle) (angle : jsval)
| PThreshold (image angle : jsval)
| PGetPDF (title textonly : jsval)
| PDetect (image : jsval)
| PNone.

Record packet : Type := {
  workerId : string;
  jobId : string;
  action : string;
  payload_of : payload
}.

Inductive status : Type := resolve | reject | progress.

(** What [best_result] of an [OSResults] holds. *)
Record os_best : Type := {
  orientation_id : nat;
  script_id : jsval;
  sconfidence : jsval;
  oconfidence : jsval
}.

(** The [data] of a response. *)
Inductive data : Type :=
| DUndefined
| DString (s : string)
| DProgress (worker : string) (job : option string) (stat : string) (fraction : Q)
| DLoaded
| DTerminated
| DParams (o : obj)
| DLangs (l : langs_arg)
| DValue (v : jsval)
| DBytes (b : bytes)
| DRecognize (result : jsval) (image : string)
| DDetect (sid script sconf : jsval) (degrees : option Z) (oconf : jsval).

(* ================================================================== *)
(** ** The outside world                                               *)
(* ================================================================== *)

(** A call out of the script, with its arguments. *)
Inductive ext : Type :=
(* helpers required by the script *)
| setLogging (logging : jsval)
| setImage (api : option handle) (image angle : jsval)
| dump (api : option handle) (params : obj)
(* adapter *)
| adapter_getCore (corePath : jsval)
| adapter_readCache (path : string)
| adapter_writeCache (path : string) (content : bytes)
| adapter_fetch (url : string)
| global_fetch (url : string)
| adapter_gunzip (content : bytes)
| Response_arrayBuffer (resp : handle)
(* engine module *)
| Core (core : handle)
| FS_method (method : string) (args : list jsval)
| FS_mkdir (path : string)
| FS_writeFile (path : string) (content : bytes)
| FS_readFile (path : string)
| TessModule_free (ptr : jsval)
| TessBaseAPI_new
| OSResults_new
| TessPDFRenderer_new (textonly : jsval)
(* API instance *)
| api_Init (api : handle) (langs : string) (oem : jsval)
| api_End (api : handle)
| api_SetVariable (api : handle) (key : string) (value : jsval)
| api_GetThresholdedImage (api : handle)
| api_SetRectangle (api : handle) (r : rectangle)
| api_Recognize (api : handle)
| api_DetectOS (api : handle) (results : handle)
| OSResults_best_result (results : handle)
| get_script_from_script_id (results : handle) (sid : jsval)
| pdf_BeginDocument (renderer : handle) (title : jsval)
| pdf_AddImage (renderer : handle) (api : option handle)
| pdf_EndDocument (renderer : handle).

Inductive event : Type :=
| Invoke (c : ext)                                (* the call is made *)
| Settle (c : ext)                                (* the promise [c] returned settles *)
| Sent (p : packet) (st : status) (d : data).     (* [send({...packet, status, data})] *)

Definition history := list event.

(** [fileType(buffer)]: [None] is [undefined]. *)
Record file_type : Type := { ext_of : string; mime : string }.

(** The platform the script runs on: the constants and pure library
    functions it requires, and the answers of adapter, engine and helpers,
    grouped by the type of the answer. *)
Record Platform : Type := {
  isWebWorker : bool;
  defaultParams : obj;
  isURL : string -> bool;
  fileType : bytes -> option file_type;
  String_of_bytes : bytes -> string;
  answer_unit : history -> ext -> outcome unit;
  answer_handle : history -> ext -> outcome handle;
  answer_value : history -> ext -> outcome jsval;
  answer_bytes : history -> ext -> outcome bytes;
  answer_cache : history -> ext -> outcome (option bytes);
  answer_bool : history -> ext -> outcome bool;
  answer_best : history -> ext -> outcome os_best;
  (* what a callee that is handed the emitter sends through it, before it
     answers *)
  reports : history -> ext -> list (status * data)
}.

(** The module-level variables of the script. *)
Record globals : Type := {
  TessModule : option handle;
  api : option handle;
  latestJob : option packet;
  params : obj
}.

Record world : Type := { vars : globals; trace : history }.

(* ================================================================== *)
(** ** Synchronous code                                                *)
(* ================================================================== *)

Definition M (A : Type) : Type := world -> outcome A * world.

Definition ret {A} (a : A) : M A := fun w => (Returns a, w).

Definition throw {A} (e : exn) : M A := fun w => (Throws e, w).

Definition bind {A B} (m : M A) (f : A -> M B) : M B :=
  fun w =>
    match m w with
    | (Returns a, w') => f a w'
    | (Throws e, w') => (Throws e, w')
    end.

Definition try_catch {A} (body : M A) (handler : exn -> M A) : M A :=
  fun w =>
    match body w with
    | (Returns a, w') => (Returns a, w')
    | (Throws e, w') => handler e w'
    end.

Declare Scope js_scope.
Delimit Scope js_scope with js.
Notation "x <- m ;; k" := (bind m (fun x => k))
  (at level 61, m at next level, right associativity) : js_scope.
Notation "m ;; k" := (bind m (fun _ => k))
  (at level 61, right associativity) : js_scope.
Open Scope js_scope.

Definition get : M globals := fun w => (Returns (vars w), w).

Definition put (g : globals) : M unit :=
  fun w => (Returns tt, {| vars := g; trace := trace w |}).

Definition record (e : event) : M unit :=
  fun w => (Returns tt, {| vars := vars w; trace := trace w ++ [e] |}).

(** A synchronous call out of the script: it enters the trace, and the
    platform answers from the trace including it. *)
Definition invoke {T} (answer : history -> ext -> outcome T) (c : ext) : M T :=
  fun w =>
    let tr := trace w ++ [Invoke c] in
    (answer tr c, {| vars := vars w; trace := tr |}).

(** The settling of the promise an asynchronous call returned. *)
Definition settle {T} (answer : history -> ext -> outcome T) (c : ext) : M T :=
  fun w =>
    let tr := trace w ++ [Settle c] in
    (answer tr c, {| vars := vars w; trace := tr |}).

Fixpoint forEach {A} (f : A -> M unit) (l : list A) : M unit :=
  match l with
  | [] => ret tt
  | x :: r => f x ;; forEach f r
  end.

Definition when (b : bool) (m : M unit) : M unit := if b then m else ret tt.

Definition TypeError (msg : string) : exn :=
  {| toString := "TypeError: " ++ msg; isDOMException := false |}.

Definition Error (msg : string) : exn :=
  {| toString := "Error: " ++ msg; isDOMException := false |}.

Definition set_TessModule (m : option handle) : M unit :=
  g <- get ;;
  put {| TessModule := m; api := api g; latestJob := latestJob g; params := params g |}.

Definition set_api (a : option handle) : M unit :=
  g <- get ;;
  put {| TessModule := TessModule g; api := a; latestJob := latestJob g; params := params g |}.

Definition set_latestJob (p : option packet) : M unit :=
  g <- get ;;
  put {| TessModule := TessModule g; api := api g; latestJob := p; params := params g |}.

Definition set_params (o : obj) : M unit :=
  g <- get ;;
  put {| TessModule := TessModule g; api := api g; latestJob := latestJob g; params := o |}.

(** [api.f(...)]: reading a property of [null] throws. *)
Definition the_api (f : string) : M handle :=
  g <- get ;;
  match api g with
  | Some a => ret a
  | None => throw (TypeError ("Cannot read properties of null (reading '" ++ f ++ "')"))
  end.

(** [TessModule.f]: reading a property of [undefined] throws. *)
Definition the_module (f : string) : M handle :=
  g <- get ;;
  match TessModule g with
  | Some m => ret m
  | None => throw (TypeError ("Cannot read properties of undefined (reading '" ++ f ++ "')"))
  end.

(** The response emitter of a packet: [res(status, data)]. *)
Definition res (p : packet) (st : status) (d : data) : M unit := record (Sent p st d).

(* ================================================================== *)
(** ** Asynchronous code                                               *)
(* ================================================================== *)

(** An [async] function runs until it finishes or reaches an [await]; there
    it hands control back, and is resumed later, in whatever the world has
    become by then. *)
Inductive step (A : Type) : Type :=
| Done (o : outcome A) (w : world)
| Yield (w : world) (k : world -> step A).

Definition Async (A : Type) : Type := world -> step A.

Fixpoint step_bind {A B} (s : step A) (f : A -> Async B) : step B :=
  match s with
  | Done (Returns a) w => f a w
  | Done (Throws e) w => Done (Throws e) w
  | Yield w k => Yield w (fun w' => step_bind (k w') f)
  end.

Fixpoint step_catch {A} (s : step A) (handler : exn -> Async A) : step A :=
  match s with
  | Done (Returns a) w => Done (Returns a) w
  | Done (Throws e) w => handler e w
  | Yield w k => Yield w (fun w' => step_catch (k w') handler)
  end.

Definition aret {A} (a : A) : Async A := fun w => Done (Returns a) w.

Definition athrow {A} (e : exn) : Async A := fun w => Done (Throws e) w.

Definition abind {A B} (m : Async A) (f : A -> Async B) : Async B :=
  fun w => step_bind (m w) f.

Definition acatch {A} (body : Async A) (handler : exn -> Async A) : Async A :=
  fun w => step_catch (body w) handler.

(** Synchronous code inside an [async] function. *)
Definition lift {A} (m : M A) : Async A :=
  fun w => match m w with (o, w') => Done o w' end.

Notation "x <~ m ;; k" := (abind m (fun x => k))
  (at level 61, m at next level, right associativity) : js_scope.
Notation "m ~;; k" := (abind m (fun _ => k))
  (at level 61, right associativity) : js_scope.

(** [await f(...)] for an asynchronous function [f] of the platform: the
    call is made, the caller is suspended, and it resumes with what the
    returned promise settled to. *)
Definition await {T} (answer : history -> ext -> outcome T) (c : ext) : Async T :=
  fun w =>
    match record (Invoke c) w with
    | (_, w1) => Yield w1 (lift (settle answer c))
    end.

(** [await Promise.resolve(v)]: suspended all the same, one turn. *)
Definition await_resolved {T} (v : T) : Async T :=
  fun w => Yield w (aret v).

(** A promise, as the event loop sees it. *)
Inductive promise (A : Type) : Type :=
| Pending (k : world -> step A)
| Fulfilled (a : A)
| Rejected (e : exn).
Arguments Rejected {A} e.

Definition promise_of {A} (s : step A) : promise A * world :=
  match s with
  | Done (Returns a) w => (Fulfilled a, w)
  | Done (Throws e) w => (Rejected e, w)
  | Yield w k => (Pending k, w)
  end.

(** Calling an [async] function: it runs up to its first [await]. *)
Definition start {A} (f : Async A) (w : world) : promise A * world :=
  promise_of (f w).

(* ================================================================== *)
(** ** Small pieces of JavaScript                                      *)
(* ================================================================== *)

(** [x || '.'] for a path that may be [undefined] or empty. *)
Definition or_dot (p : option string) : string :=
  match p with
  | Some (String c s) => String c s
  | _ => "."
  end.

(** Truthiness of an optional path: [if (dataPath)]. *)
Definition truthy_path (p : option string) : bool :=
  match p with
  | Some (String _ _) => true
  | _ => false
  end.

Definition truthy (v : jsval) : bool :=
  match v with
  | VUndefined | VNull => false
  | VBool b => b
  | VNum z => negb (Z.eqb z 0)
  | VStr s => negb (String.eqb s "")
  | VBytes _ | VRef _ => true
  end.

(** [x || 0] *)
Definition or_zero (v : jsval) : jsval := if truthy v then v else VNum 0.

(** [[a, b].includes(x)] for an [x] that may be [undefined]. *)
Definition includes (l : list string) (x : option string) : bool :=
  match x with
  | Some s => existsb (String.eqb s) l
  | None => false
  end.

(** [[a, b, undefined].includes(x)] *)
Definition includes_or_undefined (l : list string) (x : option string) : bool :=
  match x with
  | Some s => existsb (String.eqb s) l
  | None => true
  end.

(** [s.split('+')] *)
Fixpoint split_plus (s : string) : list string :=
  match s with
  | EmptyString => [""]
  | String c r =>
      if Ascii.eqb c "+"%char then "" :: split_plus r
      else match split_plus r with
           | h :: t => String c h :: t
           | [] => [String c ""]
           end
  end.

(** [l.join('+')] *)
Fixpoint join_plus (l : list string) : string :=
  match l with
  | [] => ""
  | [x] => x
  | x :: r => x ++ "+" ++ join_plus r
  end.

(** [[0, 270, 180, 90][oid]]; [None] is [undefined]. *)
Definition orientation_degrees (oid : nat) : option Z :=
  nth_error [0; 270; 180; 90]%Z oid.

(** *** [arrayBufferToBase64] (lines 224-274) *)

Definition encodings : string :=
  "ABCDEFGHIJKLMNOPQRSTUVWXYZabcdefghijklmnopqrstuvwxyz0123456789+/".

(** [encodings[i]] *)
Definition encodings_at (i : Z) : string :=
  match String.get (Z.to_nat i) encodings with
  | Some c => String c ""
  | None => "undefined"
  end.

Definition byte_val (b : Byte.byte) : Z := Z.of_N (Byte.to_N b).

(** The main loop takes the bytes three at a time; what remains, one byte or
    two, is padded. *)
Fixpoint arrayBufferToBase64 (arrayBuffer : bytes) : string :=
  match arrayBuffer with
  | [] => ""
  | [b0] =>
      let chunk := byte_val b0 in
      let a := Z.shiftr (Z.land chunk 252) 2 in
      let b := Z.shiftl (Z.land chunk 3) 4 in
      encodings_at a ++ encodings_at b ++ "=="
  | [b0; b1] =>
      let chunk := Z.lor (Z.shiftl (byte_val b0) 8) (byte_val b1) in
      let a := Z.shiftr (Z.land chunk 64512) 10 in
      let b := Z.shiftr (Z.land chunk 1008) 4 in
      let c := Z.shiftl (Z.land chunk 15) 2 in
      encodings_at a ++ encodings_at b ++ encodings_at c ++ "="
  | b0 :: b1 :: b2 :: rest =>
      let chunk := Z.lor (Z.lor (Z.shiftl (byte_val b0) 16) (Z.shiftl (byte_val b1) 8))
                         (byte_val b2) in
      let a := Z.shiftr (Z.land chunk 16515072) 18 in
      let b := Z.shiftr (Z.land chunk 258048) 12 in
      let c := Z.shiftr (Z.land chunk 4032) 6 in
      let d := Z.land chunk 63 in
      (encodings_at a ++ encodings_at b ++ encodings_at c ++ encodings_at d)
        ++ arrayBufferToBase64 rest
  end.

(** *** Looking an action up in the handler table

    [({ load, FS, ... })[packet.action]] reads a property of an object
    literal: one of its ten own properties, or else one it inherits from
    [Object.prototype], or else [undefined]. *)

Inductive handler_name : Type :=
| h_load | h_FS | h_loadLanguage | h_initialize | h_setParameters
| h_recognize | h_threshold | h_getPDF | h_detect | h_terminate.

Definition supported_actions : list (string * handler_name) :=
  [ ("load", h_load); ("FS", h_FS); ("loadLanguage", h_loadLanguage);
    ("initialize", h_initialize); ("setParameters", h_setParameters);
    ("recognize", h_recognize); ("threshold", h_threshold);
    ("getPDF", h_getPDF); ("detect", h_detect); ("terminate", h_terminate) ].

(** The functions every object inherits.  Called on the table with
    [(packet, res)] each returns without throwing and without touching
    [res]: [toString] gives ["[object Object]"], [constructor] is [Object]
    and returns the packet, [hasOwnProperty], [isPrototypeOf] and
    [propertyIsEnumerable] give [false], and so on. *)
Definition Object_prototype_functions : list string :=
  [ "constructor"; "hasOwnProperty"; "isPrototypeOf"; "propertyIsEnumerable";
    "toLocaleString"; "toString"; "valueOf";
    "__defineGetter__"; "__defineSetter__"; "__lookupGetter__"; "__lookupSetter__" ].

Inductive property : Type :=
| Own (h : handler_name)
| Inherited (name : string)     (* a function of [Object.prototype] *)
| NotAFunction.                 (* [undefined], or the object [__proto__] *)

Fixpoint assoc {A} (l : list (string * A)) (k : string) : option A :=
  match l with
  | [] => None
  | (k', a) :: r => if String.eqb k' k then Some a else assoc r k
  end.

Definition lookup (name : string) : property :=
  match assoc supported_actions name with
  | Some h => Own h
  | None =>
      if existsb (String.eqb name) Object_prototype_functions
      then Inherited name
      else NotAFunction
  end.

(* ================================================================== *)
(** ** The handlers                                                    *)
(* ================================================================== *)

Section Worker.

Variable P : Platform.

(** Calls that answer with nothing, a handle, a value, bytes, a boolean. *)
Definition call_unit (c : ext) : M unit := invoke (answer_unit P) c.
Definition call_handle (c : ext) : M handle := invoke (answer_handle P) c.
Definition call_value (c : ext) : M jsval := invoke (answer_value P) c.
Definition call_bytes (c : ext) : M bytes := invoke (answer_bytes P) c.
Definition call_bool (c : ext) : M bool := invoke (answer_bool P) c.

(** A method of the API instance, [api.f(...)]. *)
Definition api_call {T} (f : string) (call : ext -> M T) (c : handle -> ext) : M T :=
  a <- the_api f ;; call (c a).

(** A member of the engine module, [TessModule.f(...)]. *)
Definition module_call {T} (f : string) (call : ext -> M T) (c : ext) : M T :=
  the_module f ;; call c.

(** A payload that lacks what the handler destructures. *)
Definition bad_payload {A} : M A :=
  throw (TypeError "Cannot destructure property of 'payload' as it is undefined.").

(** *** setParameters (lines 155-166) *)

Definition setParameters (_params : obj) (rs : option packet) : M unit :=
  forEach
    (fun key => api_call "SetVariable" call_unit
                  (fun a => api_SetVariable a key (obj_index _params key)))
    (filter (fun k => negb (String.prefix "tessjs_" k)) (Object_keys _params)) ;;
  g <- get ;;
  set_params (spread (params g) _params) ;;
  match rs with
  | Some p => g' <- get ;; res p resolve (DParams (params g'))
  | None => ret tt
  end.

(** *** initialize (lines 168-194) *)

Definition init_langs (_langs : langs_arg) : string :=
  match _langs with
  | LangsString s => s
  | LangsArray l =>
      join_plus (map (fun l => match l with
                               | LangCode s => s
                               | LangInline _ d => String_of_bytes P d
                               end) l)
  end.

Definition initialize (p : packet) : M unit :=
  match payload_of p with
  | PInitialize _langs oem =>
      let langs := init_langs _langs in
      try_catch
        (res p progress (DProgress (workerId p) None "initializing api" 0) ;;
         g <- get ;;
         match api g with
         | Some a => call_unit (api_End a)
         | None => ret tt
         end ;;
         a <- module_call "TessBaseAPI" call_handle TessBaseAPI_new ;;
         set_api (Some a) ;;
         api_call "Init" call_unit (fun a => api_Init a langs oem) ;;
         set_params (defaultParams P) ;;
         g <- get ;;
         setParameters (params g) None ;;
         res p progress (DProgress (workerId p) None "initialized api" 1) ;;
         res p resolve DUndefined)
        (fun err => res p reject (DString (toString err)))
  | _ => bad_payload
  end.

(** *** FS (lines 57-60) *)

Definition FS (p : packet) : M unit :=
  match payload_of p with
  | PFS method args =>
      v <- module_call "FS" call_value (FS_method method args) ;;
      res p resolve (DValue v)
  | _ => bad_payload
  end.

(** *** recognize (lines 196-221) *)

(** [result.image = png] (line 214), and what is sent then.  On
    [undefined] and on [null] the assignment throws; an object gets the
    property; on a primitive the assignment is dropped (the script is not
    in strict mode), and the value goes out as it is. *)
Definition set_image (result : jsval) (png : string) : M data :=
  match result with
  | VUndefined => throw (TypeError "Cannot set properties of undefined (setting 'image')")
  | VNull => throw (TypeError "Cannot set properties of null (setting 'image')")
  | VRef _ | VBytes _ => ret (DRecognize result png)
  | VBool _ | VNum _ | VStr _ => ret (DValue result)
  end.

Definition recognize (p : packet) : M unit :=
  match payload_of p with
  | PRecognize image rec _angle =>
      try_catch
        (g <- get ;;
         ptr <- call_value (setImage (api g) image (or_zero _angle)) ;;
         api_call "GetThresholdedImage" call_value api_GetThresholdedImage ;;
         pngBuffer <- module_call "FS" call_bytes (FS_readFile "/debug.png") ;;
         let png := ("data:image/png;base64," ++ arrayBufferToBase64 pngBuffer)%string in
         match rec with
         | Some r => api_call "SetRectangle" call_unit (fun a => api_SetRectangle a r)
         | None => ret tt
         end ;;
         api_call "Recognize" call_unit api_Recognize ;;
         g <- get ;;
         result <- call_value (dump (api g) (params g)) ;;
         result <- set_image result png ;;
         res p resolve result ;;
         module_call "_free" call_unit (TessModule_free ptr))
        (fun err => res p reject (DString (toString err)))
  | _ => bad_payload
  end.

(** *** threshold (lines 276-294) *)

Definition threshold (p : packet) : M unit :=
  match payload_of p with
  | PThreshold image _angle =>
      try_catch
        (g <- get ;;
         ptr <- call_value (setImage (api g) image _angle) ;;
         api_call "GetThresholdedImage" call_value api_GetThresholdedImage ;;
         pngBuffer <- module_call "FS" call_bytes (FS_readFile "/debug.png") ;;
         let png := ("data:image/png;base64," ++ arrayBufferToBase64 pngBuffer)%string in
         module_call "_free" call_unit (TessModule_free ptr) ;;
         res p resolve (DString png))
        (fun err => res p reject (DString (toString err)))
  | _ => bad_payload
  end.

(** *** getPDF (lines 296-304) *)

Definition getPDF (p : packet) : M unit :=
  match payload_of p with
  | PGetPDF title textonly =>
      pdfRenderer <- module_call "TessPDFRenderer" call_handle (TessPDFRenderer_new textonly) ;;
      call_unit (pdf_BeginDocument pdfRenderer title) ;;
      g <- get ;;
      call_unit (pdf_AddImage pdfRenderer (api g)) ;;
      call_unit (pdf_EndDocument pdfRenderer) ;;
      module_call "_free" call_unit (TessModule_free (VRef pdfRenderer)) ;;
      pdf <- module_call "FS" call_bytes (FS_readFile "/tesseract-ocr.pdf") ;;
      res p resolve (DBytes pdf)
  | _ => bad_payload
  end.

(** *** detect (lines 306-333) *)

Definition detect (p : packet) : M unit :=
  match payload_of p with
  | PDetect image =>
      try_catch
        (g <- get ;;
         ptr <- call_value (setImage (api g) image VUndefined) ;;
         results <- module_call "OSResults" call_handle OSResults_new ;;
         detected <- api_call "DetectOS" call_bool (fun a => api_DetectOS a results) ;;
         if negb detected then
           api_call "End" call_unit api_End ;;
           module_call "_free" call_unit (TessModule_free ptr) ;;
           res p reject (DString "Failed to detect OS")
         else
           best <- invoke (answer_best P) (OSResults_best_result results) ;;
           let oid := orientation_id best in
           let sid := script_id best in
           module_call "_free" call_unit (TessModule_free ptr) ;;
           script <- call_value (get_script_from_script_id results sid) ;;
           res p resolve
             (DDetect sid script (sconfidence best) (orientation_degrees oid)
                      (oconfidence best)))
        (fun err => res p reject (DString (toString err)))
  | _ => bad_payload
  end.

(** *** terminate (lines 335-344) *)

Definition terminate (p : packet) : M unit :=
  try_catch
    (g <- get ;;
     match api g with
     | Some a => call_unit (api_End a)
     | None => ret tt
     end ;;
     res p resolve DTerminated)
    (fun err => res p reject (DString (toString err))).

End Worker.

(* ================================================================== *)
(** ** loadLanguage (lines 62-153)                                     *)
(* ================================================================== *)

(** One call of [loadLanguage] in flight: the promises of the language
    loads handed to [Promise.all], what [Promise.all] was rejected with (the
    first rejection it saw, if any), and whether the function was resumed
    past its [await]. *)
Record language_job : Type := {
  job_packet : packet;
  job_langs : langs_arg;
  loads : list (promise bytes);
  all_rejection : option exn;
  continued : bool
}.

(** What a handler leaves behind for the event loop when it returns. *)
Inductive background : Type :=
| Idle
| CoreThen (p : packet) (core : handle)   (* [load]: the [then] callback on [Core(...)] *)
| Loading (j : language_job).            (* [loadLanguage], suspended *)

(** A turn of the event loop on a language job. *)
Inductive turn : Type :=
| Resume (i : nat)      (* the [i]-th load is resumed *)
| Continue.             (* [loadLanguage] is resumed after [Promise.all] *)

Definition is_pending {A} (p : promise A) : bool :=
  match p with Pending _ => true | _ => false end.

Definition is_fulfilled {A} (p : promise A) : bool :=
  match p with Fulfilled _ => true | _ => false end.

Definition rejection {A} (p : promise A) : option exn :=
  match p with Rejected e => Some e | _ => None end.

Fixpoint first_rejection {A} (ps : list (promise A)) : option exn :=
  match ps with
  | [] => None
  | p :: r => match rejection p with Some e => Some e | None => first_rejection r end
  end.

(** [Promise.all] is settled: rejected, or every promise fulfilled. *)
Definition all_settled (j : language_job) : bool :=
  match all_rejection j with
  | Some _ => true
  | None => forallb is_fulfilled (loads j)
  end.

Fixpoint pending_from {A} (i : nat) (ps : list (promise A)) : list turn :=
  match ps with
  | [] => []
  | p :: r => (if is_pending p then [Resume i] else []) ++ pending_from (S i) r
  end.

Definition enabled (j : language_job) : list turn :=
  pending_from 0 (loads j)
  ++ (if all_settled j && negb (continued j) then [Continue] else []).

Fixpoint replace_nth {A} (i : nat) (x : A) (l : list A) : list A :=
  match l, i with
  | [], _ => []
  | _ :: r, O => x :: r
  | y :: r, S i' => y :: replace_nth i' x r
  end.

(** [array.map(f)] for an [async] function [f]: the calls are made one after
    the other, each running up to its first [await]. *)
Fixpoint start_all {A B} (f : A -> Async B) (l : list A) (w : world)
  : list (promise B) * world :=
  match l with
  | [] => ([], w)
  | x :: r =>
      match start (f x) w with
      | (p, w1) =>
          match start_all f r w1 with
          | (ps, w2) => (p :: ps, w2)
          end
      end
  end.

Section Loader.

Variable P : Platform.

(** [langPath] is a URL, or starts with one of three schemes. *)
Definition is_remote (langPath : string) : bool :=
  isURL P langPath
  || String.prefix "moz-extension://" langPath
  || String.prefix "chrome-extension://" langPath
  || String.prefix "file://" langPath.

Definition gz_suffix (gzip : option bool) : string :=
  match gzip with
  | Some false => ""
  | _ => ".gz"
  end.

Definition is_gzip (t : option file_type) : bool :=
  match t with
  | Some t => String.eqb (mime t) "application/gzip"
  | None => false
  end.

(** [new Uint8Array(data)] of what the file read gave; of [undefined] it is
    empty. *)
Definition Uint8Array_of (d : option bytes) : bytes :=
  match d with Some b => b | None => [] end.

(** [loadAndGunzipFile], the closure inside [loadLanguage]: [rs] is the
    packet of the enclosing call and [o] its options.  It is given here in
    blocks: getting hold of the bytes (the [try] block and the [catch]
    block), and what is done with them (from [new Uint8Array(data)] on). *)

Definition lang_code (_lang : lang_spec) : string :=
  match _lang with LangCode s => s | LangInline code _ => code end.

Definition cache_file (o : language_options) (lang : string) : string :=
  or_dot (cachePath o) ++ "/" ++ lang ++ ".traineddata".

Definition source_file (o : language_options) (lang : string) : string :=
  langPath o ++ "/" ++ lang ++ ".traineddata" ++ gz_suffix (gzip o).

Definition data_file (o : language_options) (lang : string) : string :=
  or_dot (dataPath o) ++ "/" ++ lang ++ ".traineddata".

(** The [try] block (lines 83-91): the cache, unless it is switched
    off. *)
Definition from_cache (rs : packet) (o : language_options) (lang : string)
  : Async bytes :=
  let readCache : string -> Async (option bytes) :=
    if includes ["refresh"; "none"] (cacheMethod o)
    then fun _ => await_resolved None
    else fun path => await (answer_cache P) (adapter_readCache path) in
  _data <~ readCache (cache_file o lang) ;;
  match _data with
  | Some d =>
      lift (res rs progress
              (DProgress (workerId rs) None
                 "loading language traineddata (from cache)" (Qmake 1 2))) ~;;
      aret d
  | None => athrow (Error "Not found in cache")
  end.

(** The [catch] block (lines 92-110): the network or a file for a code, the bytes
    themselves for an inline spec. *)
Definition from_source (o : language_options) (_lang : lang_spec) : Async bytes :=
  let lang := lang_code _lang in
  match _lang with
  | LangCode _ =>
      if is_remote (langPath o) then
        resp <~ await (answer_handle P)
                  (if isWebWorker P then global_fetch (source_file o lang)
                   else adapter_fetch (source_file o lang)) ;;
        await (answer_bytes P) (Response_arrayBuffer resp)
      else
        d <~ await (answer_cache P) (adapter_readCache (source_file o lang)) ;;
        aret (Uint8Array_of d)
  | LangInline _ d => aret d
  end.

Definition obtain_data (rs : packet) (o : language_options) (_lang : lang_spec)
  : Async bytes :=
  acatch (from_cache rs o (lang_code _lang)) (fun e => from_source o _lang).

(** From [new Uint8Array(data)] to the end (lines 112-134): sniffing and
    [gunzip], the engine's filesystem, the cache. *)
Definition gunzip_and_store (rs : packet) (o : language_options) (lang : string)
  (data : bytes) : Async bytes :=
  data <~ lift (if is_gzip (fileType P data)
                then call_bytes P (adapter_gunzip data)
                else ret data) ;;
  lift (g <- get ;;
        match TessModule g with
        | Some _ =>
            when (truthy_path (dataPath o))
              (try_catch (call_unit P (FS_mkdir (or_dot (dataPath o))))
                 (fun err => res rs reject (DString (toString err)))) ;;
            call_unit P (FS_writeFile (data_file o lang) data)
        | None => ret tt
        end) ~;;
  (if includes_or_undefined ["write"; "refresh"] (cacheMethod o)
   then await (answer_unit P) (adapter_writeCache (cache_file o lang) data)
   else aret tt) ~;;
  aret data.

Definition loadAndGunzipFile (rs : packet) (o : language_options) (_lang : lang_spec)
  : Async bytes :=
  data <~ obtain_data rs o _lang ;;
  gunzip_and_store rs o (lang_code _lang) data.

(** The language specs [loadLanguage] maps over. *)
Definition lang_specs (langs : langs_arg) : list lang_spec :=
  match langs with
  | LangsString s => map LangCode (split_plus s)
  | LangsArray l => l
  end.

(** [loadLanguage], up to its [await Promise.all(...)] (lines 137-139). *)
Definition loadLanguage (p : packet) (langs : langs_arg) (o : language_options)
  : world -> language_job * world :=
  fun w =>
    match res p progress (DProgress (workerId p) None "loading language traineddata" 0) w with
    | (_, w1) =>
        match start_all (loadAndGunzipFile p o) (lang_specs langs) w1 with
        | (ps, w2) =>
            ({| job_packet := p; job_langs := langs; loads := ps;
                all_rejection := first_rejection ps; continued := false |}, w2)
        end
    end.

(** [loadLanguage], past its [await]: the rest of the [try] block when
    [Promise.all] was fulfilled, the [catch] block when it was rejected. *)
Definition loadLanguage_continue (j : language_job) : M unit :=
  let p := job_packet j in
  match all_rejection j with
  | None =>
      res p progress (DProgress (workerId p) None "loaded language traineddata" 1) ;;
      res p resolve (DLangs (job_langs j))
  | Some err =>
      if isWebWorker P && isDOMException err then ret tt
      else res p reject (DString (toString err))
  end.

Definition take_turn (t : turn) (j : language_job) (w : world) : language_job * world :=
  match t with
  | Resume i =>
      match nth_error (loads j) i with
      | Some (Pending k) =>
          match promise_of (k w) with
          | (p', w') =>
              ({| job_packet := job_packet j; job_langs := job_langs j;
                  loads := replace_nth i p' (loads j);
                  all_rejection := match all_rejection j with
                                   | Some e => Some e
                                   | None => rejection p'
                                   end;
                  continued := continued j |}, w')
          end
      | _ => (j, w)
      end
  | Continue =>
      if all_settled j && negb (continued j) then
        match loadLanguage_continue j w with
        | (_, w') =>
            ({| job_packet := job_packet j; job_langs := job_langs j;
                loads := loads j; all_rejection := all_rejection j;
                continued := true |}, w')
        end
      else (j, w)
  end.

(** The event loop: each entry [c] of the schedule gives the next turn to
    the [c mod n]-th of the [n] turns that can be taken; it stops when the
    schedule ends or nothing is left to do. *)
Fixpoint event_loop (schedule : list nat) (j : language_job) (w : world)
  : language_job * world :=
  match schedule with
  | [] => (j, w)
  | c :: rest =>
      match enabled j with
      | [] => (j, w)
      | t0 :: ts =>
          match take_turn (nth (c mod length (t0 :: ts)) (t0 :: ts) t0) j w with
          | (j', w') => event_loop rest j' w'
          end
      end
  end.

(** *** load (lines 31-55) *)

(** [adapter.getCore(corePath, res)] (line 34).  The adapter is handed
    the emitter of the packet: what it sends through it while it gets the
    core goes out for the packet, before [getCore] returns or throws. *)
Definition getCore (corePath : jsval) (p : packet) : M handle :=
  fun w =>
    let tr := trace w ++ [Invoke (adapter_getCore corePath)] in
    (answer_handle P tr (adapter_getCore corePath),
     {| vars := vars w;
        trace := tr ++ map (fun r => Sent p (fst r) (snd r))
                           (reports P tr (adapter_getCore corePath)) |}).

Definition load (p : packet) : M background :=
  match payload_of p with
  | PLoad corePath logging =>
      call_unit P (setLogging logging) ;;
      g <- get ;;
      match TessModule g with
      | None =>
          core <- getCore corePath p ;;
          res p progress (DProgress (workerId p) None "initializing tesseract" 0) ;;
          call_unit P (Core core) ;;
          ret (CoreThen p core)
      | Some _ =>
          res p resolve DLoaded ;;
          ret Idle
      end
  | _ => bad_payload
  end.

(** The [then] callback of [load]; nothing is attached for a rejection. *)
Definition load_then (p : packet) (core : handle) : M unit :=
  fun w =>
    match settle (answer_handle P) (Core core) w with
    | (Returns tessModule, w1) =>
        (set_TessModule (Some tessModule) ;;
         res p progress (DProgress (workerId p) None "initialized tesseract" 1) ;;
         res p resolve DLoaded) w1
    | (Throws _, w1) => (Returns tt, w1)
    end.

(** The [TesseractProgress] callback [load] hands to the engine, for the
    packet [p] of that [load]: it answers on the latest job's emitter.
    (The fraction is computed in double precision by the script.) *)
Definition TesseractProgress (p : packet) (percent : Z) : M unit :=
  g <- get ;;
  match latestJob g with
  | Some job =>
      let x := Qmake (percent - 30) 70 in
      res job progress
        (DProgress (workerId p) (Some (jobId p)) "recognizing text"
           (if Qle_bool 0%Q x then x else 0%Q))
  | None => throw (TypeError "Cannot read properties of undefined (reading 'progress')")
  end.

(* ================================================================== *)
(** ** dispatchHandlers (lines 358-389)                                *)
(* ================================================================== *)

Definition call_handler (h : handler_name) (p : packet) : M background :=
  match h with
  | h_load => load p
  | h_FS => FS P p ;; ret Idle
  | h_loadLanguage =>
      (* an [async] function: whatever happens, the caller gets a promise *)
      fun w =>
        match payload_of p with
        | PLoadLanguage langs o =>
            match loadLanguage p langs o w with
            | (j, w1) => (Returns (Loading j), w1)
            end
        | _ => (Returns Idle, w)
        end
  | h_initialize => initialize P p ;; ret Idle
  | h_setParameters =>
      match payload_of p with
      | PSetParameters _params => setParameters P _params (Some p) ;; ret Idle
      | _ => bad_payload
      end
  | h_recognize => recognize P p ;; ret Idle
  | h_threshold => threshold P p ;; ret Idle
  | h_getPDF => getPDF P p ;; ret Idle
  | h_detect => detect P p ;; ret Idle
  | h_terminate => terminate P p ;; ret Idle
  end.

(** Calling what is not a function throws.  The text is the one V8 gives
    for this call: the object literal is shown as one
    [(intermediate value)] for each of its ten properties. *)
Definition not_a_function : exn :=
  TypeError ("{" ++ String.concat "" (map (fun _ => "(intermediate value)") supported_actions)
             ++ "}[packet.action] is not a function").

Definition dispatchHandlers (p : packet) : M background :=
  set_latestJob (Some p) ;;
  try_catch
    (match lookup (action p) with
     | Own h => call_handler h p
     | Inherited _ => ret Idle
     | NotAFunction => throw not_a_function
     end)
    (fun err => res p reject (DString (toString err)) ;; ret Idle).

(** What the event loop does with what a handler left behind. *)
Definition run_background (schedule : list nat) (bg : background) (w : world)
  : background * world :=
  match bg with
  | Idle => (Idle, w)
  | CoreThen p core =>
      match schedule with
      | [] => (bg, w)
      | _ :: _ => match load_then p core w with (_, w1) => (Idle, w1) end
      end
  | Loading j =>
      match event_loop schedule j w with
      | (j', w1) => (Loading j', w1)
      end
  end.

(** A packet arrives and the worker runs on it. *)
Definition worker (schedule : list nat) (p : packet) (w : world) : background * world :=
  match dispatchHandlers p w with
  | (Returns bg, w1) => run_background schedule bg w1
  | (Throws _, w1) => (Idle, w1)
  end.

End Loader.

(* ================================================================== *)
(** ** Reading a trace                                                 *)
(* ================================================================== *)

(** A terminal response: a [resolve] or a [reject]. *)
Definition terminalb (e : event) : bool :=
  match e with
  | Sent _ resolve _ | Sent _ reject _ => true
  | _ => false
  end.

(** The responses in a trace, without their packets. *)
Fixpoint responses (tr : history) : list (status * data) :=
  match tr with
  | [] => []
  | Sent _ st d :: r => (st, d) :: responses r
  | _ :: r => responses r
  end.

Definition is_SetVariable_of (k : string) (e : event) : Prop :=
  exists a v, e = Invoke (api_SetVariable a k v).

(** The network: [fetch], of the adapter or the global one, and reading
    the body of a response. *)
Definition is_network (e : event) : bool :=
  match e with
  | Invoke (adapter_fetch _) | Invoke (global_fetch _)
  | Invoke (Response_arrayBuffer _)
  | Settle (adapter_fetch _) | Settle (global_fetch _)
  | Settle (Response_arrayBuffer _) => true
  | _ => false
  end.

(** [adapter.readCache] is invoked. *)
Definition is_readCache (e : event) : bool :=
  match e with
  | Invoke (adapter_readCache _) => true
  | _ => false
  end.

(** [e1] has happened before [e2] in [tr], whenever [e2] happens. *)
Definition precedes (e1 e2 : event) (tr : history) : Prop :=
  forall l1 l2, tr = l1 ++ e2 :: l2 -> In e1 l1.

(** The world only got new events, all of them in [Q], and the variables
    of the script are as they were. *)
Definition grows (Q : event -> Prop) (w w' : world) : Prop :=
  vars w' = vars w /\ exists evs, trace w' = trace w ++ evs /\ Forall Q evs.

(** A run of an [async] function from [w0]: it adds only events in [Q],
    leaves the variables alone, is suspended at most [n] times, and what it
    settles with, in the world it settles in, is in [R].  It may be resumed
    in any world. *)
Inductive obeys {A} (Q : event -> Prop) (R : outcome A -> world -> Prop)
  : nat -> world -> step A -> Prop :=
| obeys_done n w0 o w :
    grows Q w0 w -> R o w -> obeys Q R n w0 (Done o w)
| obeys_yield n w0 w k :
    grows Q w0 w ->
    (forall w', obeys Q R n w' (k w')) ->
    obeys Q R (S n) w0 (Yield w k).

(** The same for synchronous code. *)
Definition satisfies {A} (Q : event -> Prop) (R : outcome A -> world -> Prop)
  (w0 : world) (m : M A) : Prop :=
  grows Q w0 (snd (m w0)) /\ R (fst (m w0)) (snd (m w0)).

(** A suspended load takes at most [n] more turns. *)
Definition promise_obeys {A} (Q : event -> Prop) (R : outcome A -> world -> Prop)
  (n : nat) (p : promise A) : Prop :=
  match p with
  | Pending k => exists m, n = S m /\ forall w', obeys Q R m w' (k w')
  | Fulfilled a => exists w0, R (Returns a) w0
  | Rejected e => exists w0, R (Throws e) w0
  end.

(** Nothing is left for the event loop to do. *)
Definition quiescent (j : language_job) : Prop := enabled j = [].

(* ================================================================== *)
(** ** What a run is said to do                                         *)
(* ================================================================== *)

Unset Implicit Arguments.

(** The keys [setParameters] forwards. *)
Definition forwarded (_params : obj) : list string :=
  filter (fun k => negb (String.prefix "tessjs_" k)) (Object_keys _params).

Definition SetVariable_calls (h : handle) (_params : obj) (ks : list string) : history :=
  map (fun k => Invoke (api_SetVariable h k (obj_index _params k))) ks.

Definition forward (P : Platform) (_params : obj) (key : string) : M unit :=
  api_call "SetVariable" (call_unit P)
    (fun a => api_SetVariable a key (obj_index _params key)).

Definition with_params (g : globals) (o : obj) : globals :=
  {| TessModule := TessModule g; api := api g; latestJob := latestJob g; params := o |}.

Definition resolve_with (rs : option packet) (o : obj) : history :=
  match rs with
  | Some p => [Sent p resolve (DParams o)]
  | None => []
  end.

(** The world in which a function hands control back. *)
Definition world_of {A} (s : step A) : world :=
  match s with
  | Done _ w => w
  | Yield w _ => w
  end.

(** A suspended function, given its turns (in whatever worlds), gets from
    one point of its run to another. *)
Inductive runs_to {A} : step A -> step A -> Prop :=
| runs_here s : runs_to s s
| runs_on w k w' s' : runs_to (k w') s' -> runs_to (Yield w k) s'.

(** What was written to the engine's filesystem, and where. *)
Fixpoint written (tr : history) : list (string * bytes) :=
  match tr with
  | [] => []
  | Invoke (FS_writeFile path content) :: r => (path, content) :: written r
  | _ :: r => written r
  end.

(** What [adapter.gunzip] was called on. *)
Fixpoint gunzipped (tr : history) : list bytes :=
  match tr with
  | [] => []
  | Invoke (adapter_gunzip content) :: r => content :: gunzipped r
  | _ :: r => gunzipped r
  end.

(** [fetch], the global one in a web worker and the adapter's elsewhere. *)
Definition fetch_call (P : Platform) (url : string) : ext :=
  if isWebWorker P then global_fetch url else adapter_fetch url.

(** Every event a call of [loadAndGunzipFile] can add to the trace, and
    under which options. *)
Inductive load_event (P : Platform) (rs : packet) (o : language_options)
  (_lang : lang_spec) : event -> Prop :=
| cache_read_invoked :
    includes ["refresh"; "none"] (cacheMethod o) = false ->
    load_event P rs o _lang (Invoke (adapter_readCache (cache_file o (lang_code _lang))))
| cache_read_settled :
    includes ["refresh"; "none"] (cacheMethod o) = false ->
    load_event P rs o _lang (Settle (adapter_readCache (cache_file o (lang_code _lang))))
| cache_hit_reported :
    includes ["refresh"; "none"] (cacheMethod o) = false ->
    load_event P rs o _lang
      (Sent rs progress
         (DProgress (workerId rs) None "loading language traineddata (from cache)"
            (Qmake 1 2)))
| fetch_invoked code :
    _lang = LangCode code -> is_remote P (langPath o) = true ->
    load_event P rs o _lang (Invoke (fetch_call P (source_file o code)))
| fetch_settled code :
    _lang = LangCode code -> is_remote P (langPath o) = true ->
    load_event P rs o _lang (Settle (fetch_call P (source_file o code)))
| body_invoked code resp :
    _lang = LangCode code -> is_remote P (langPath o) = true ->
    load_event P rs o _lang (Invoke (Response_arrayBuffer resp))
| body_settled code resp :
    _lang = LangCode code -> is_remote P (langPath o) = true ->
    load_event P rs o _lang (Settle (Response_arrayBuffer resp))
| file_read_invoked code :
    _lang = LangCode code -> is_remote P (langPath o) = false ->
    load_event P rs o _lang (Invoke (adapter_readCache (source_file o code)))
| file_read_settled code :
    _lang = LangCode code -> is_remote P (langPath o) = false ->
    load_event P rs o _lang (Settle (adapter_readCache (source_file o code)))
| gunzip_invoked content :
    is_gzip (fileType P content) = true ->
    load_event P rs o _lang (Invoke (adapter_gunzip content))
| mkdir_invoked :
    truthy_path (dataPath o) = true ->
    load_event P rs o _lang (Invoke (FS_mkdir (or_dot (dataPath o))))
| mkdir_failure_rejected msg :
    truthy_path (dataPath o) = true ->
    load_event P rs o _lang (Sent rs reject (DString msg))
| file_written content :
    load_event P rs o _lang (Invoke (FS_writeFile (data_file o (lang_code _lang)) content))
| cache_write_invoked content :
    includes_or_undefined ["write"; "refresh"] (cacheMethod o) = true ->
    load_event P rs o _lang
      (Invoke (adapter_writeCache (cache_file o (lang_code _lang)) content))
| cache_write_settled content :
    includes_or_undefined ["write"; "refresh"] (cacheMethod o) = true ->
    load_event P rs o _lang
      (Settle (adapter_writeCache (cache_file o (lang_code _lang)) content)).

(** A platform on which a language load does not fail: the source of the
    language can be read (over the network, or as a file), [gunzip] and the
    write to the engine's filesystem return, and so does the write to the
    cache.  Reading the cache may fail, and so may [mkdir]. *)
Definition cooperative (P : Platform) (o : language_options) : Prop :=
  (forall tr c, exists r, answer_handle P tr c = Returns r) /\
  (forall tr c, exists b, answer_bytes P tr c = Returns b) /\
  (forall tr code, exists d,
      answer_cache P tr (adapter_readCache (source_file o code)) = Returns d) /\
  (forall tr path content, answer_unit P tr (FS_writeFile path content) = Returns tt) /\
  (forall tr path content, answer_unit P tr (adapter_writeCache path content) = Returns tt).

(** A load that settles, is fulfilled. *)
Definition fulfils (P : Platform) (o : language_options)
  (out : outcome bytes) (_ : world) : Prop :=
  cooperative P o -> exists b, out = Returns b.

(** Every event a call of [loadLanguage] for packet [p] can add to the
    trace: those of its language loads, and its own four responses. *)
Inductive job_event (P : Platform) (p : packet) (langs : langs_arg)
  (o : language_options) : event -> Prop :=
| of_load _lang e :
    In _lang (lang_specs langs) -> load_event P p o _lang e -> job_event P p langs o e
| loading_started :
    job_event P p langs o
      (Sent p progress (DProgress (workerId p) None "loading language traineddata" 0))
| loading_finished :
    job_event P p langs o
      (Sent p progress (DProgress (workerId p) None "loaded language traineddata" 1))
| loading_resolved :
    job_event P p langs o (Sent p resolve (DLangs langs))
| loading_rejected msg :
    job_event P p langs o (Sent p reject (DString msg)).

(** How many turns the pending loads can still take, given a bound for
    each. *)
Fixpoint pending_turns {A} (ns : list nat) (ps : list (promise A)) : nat :=
  match ns, ps with
  | n :: ns', p :: ps' => (if is_pending p then n else 0) + pending_turns ns' ps'
  | _, _ => 0
  end.

Definition turns_left (ns : list nat) (j : language_job) : nat :=
  pending_turns ns (loads j) + (if continued j then 0 else 1).

(** What holds of a language job all along. *)
Record job_inv (Q : event -> Prop) (R : outcome bytes -> world -> Prop)
  (ns : list nat) (j : language_job) : Prop := {
  inv_loads : Forall2 (promise_obeys Q R) ns (loads j);
  inv_none : all_rejection j = None -> Forall (fun p => rejection p = None) (loads j);
  inv_some : forall e, all_rejection j = Some e -> exists w0, R (Throws e) w0
}.

(** The world once [dispatchHandlers] has noted the packet as the latest
    job. *)
Definition attend (p : packet) (w : world) : world :=
  {| vars := {| TessModule := TessModule (vars w); api := api (vars w);
                latestJob := Some p; params := params (vars w) |};
     trace := trace w |}.

(** What a language load asks for before it is first suspended: its cache
    file, unless the cache is switched off. *)
Definition first_request (o : language_options) (l : lang_spec) : history :=
  if includes ["refresh"; "none"] (cacheMethod o) then []
  else [Invoke (adapter_readCache (cache_file o (lang_code l)))].

Fixpoint has_plus (s : string) : bool :=
  match s with
  | EmptyString => false
  | String c r => Ascii.eqb c "+"%char || has_plus r
  end.

(** [adapter.writeCache] is invoked. *)
Definition is_writeCache (e : event) : bool :=
  match e with
  | Invoke (adapter_writeCache _ _) => true
  | _ => false
  end.

(** What a function that is done has settled with. *)
Definition settled_with {A} (s : step A) : option (outcome A) :=
  match s with
  | Done out _ => Some out
  | Yield _ _ => None
  end.

(** The bytes an inline spec is loaded from, given what the cache
    answered: the cached ones if there are any, else the supplied ones. *)
Definition cached_or (d : bytes) (answer : outcome (option bytes)) : bytes :=
  match answer with
  | Returns (Some cached) => cached
  | _ => d
  end.

(** *** Reading base64 back

    The decoder of RFC 4648 for the alphabet of [arrayBufferToBase64],
    by which what the function writes is judged. *)

(** The place of a character in a string. *)
Fixpoint index_in (c : ascii) (s : string) : option Z :=
  match s with
  | EmptyString => None
  | String c' r =>
      if Ascii.eqb c' c then Some 0%Z else option_map Z.succ (index_in c r)
  end.

(** The six bits a character of the alphabet stands for. *)
Definition sextet (c : ascii) : option Z := index_in c encodings.


Definition byte_of (z : Z) : Byte.byte :=
  match Byte.of_N (Z.to_N z) with
  | Some b => b
  | None => Byte.x00
  end.

Fixpoint base64_decode (s : string) : option bytes :=
  match s with
  | EmptyString => Some []
  | String c0 (String c1 (String c2 (String c3 rest))) =>
      match sextet c0, sextet c1 with
      | Some a, Some b =>
          let b0 := byte_of (a * 4 + b / 16) in
          if Ascii.eqb c3 "=" then
            match rest with
            | EmptyString =>
                if Ascii.eqb c2 "=" then Some [b0]
                else match sextet c2 with
                     | Some c => Some [b0; byte_of (b mod 16 * 16 + c / 4)]
                     | None => None
                     end
            | _ => None
            end
          else
            match sextet c2, sextet c3, base64_decode rest with
            | Some c, Some d, Some bs =>
                Some (b0 :: byte_of (b mod 16 * 16 + c / 4)
                         :: byte_of (c mod 4 * 64 + d) :: bs)
            | _, _, _ => None
            end
      | _, _ => None
      end
  | _ => None
  end%Z.


(** The [n]-th character of the alphabet stands for [n], and is not the
    padding character. *)
Definition encodes (n : nat) : bool :=
  match String.get n encodings with
  | Some c =>
      match sextet c with
      | Some i => (i =? Z.of_nat n)%Z && negb (Ascii.eqb c "=")
      | None => false
      end
  | None => false
  end.


(** *** Responses of a handler *)

(** A response, if it is one, is sent on the emitter of [p]. *)
Definition on_emitter (p : packet) (e : event) : Prop :=
  forall p' st d, e = Sent p' st d -> p' = p.

(** An event that leaves the job of [p] unanswered: a call, or a
    [progress] for [p]. *)
Definition unanswered (p : packet) (e : event) : Prop :=
  terminalb e = false /\ on_emitter p e.

(** The variables only [dispatchHandlers] and the [then] of [load] assign
    are as they were. *)
Definition keeps (w w' : world) : Prop :=
  latestJob (vars w') = latestJob (vars w) /\
  TessModule (vars w') = TessModule (vars w).

(** Wherever it is run, [m] adds only events in [Q]. *)
Definition adds {A} (Q : event -> Prop) (m : M A) : Prop :=
  forall w,
    keeps w (snd (m w)) /\
    exists evs, trace (snd (m w)) = trace w ++ evs /\ Forall Q evs.

(** Wherever it is run, [m] either returns, and then the last thing it
    did was to answer the job of [p], for the first time; or throws, and
    then it has not answered. *)
Definition answers {A} (p : packet) (m : M A) : Prop :=
  forall w,
    keeps w (snd (m w)) /\
    exists evs,
      trace (snd (m w)) = trace w ++ evs /\
      match fst (m w) with
      | Returns _ =>
          exists before st d,
            evs = before ++ [Sent p st d] /\ Forall (unanswered p) before /\
            st <> progress
      | Throws _ => Forall (unanswered p) evs
      end.

(** The payload is the one of the action (section 6 of the
    specification); [terminate] does not look at it. *)
Definition payload_for (h : handler_name) (pl : payload) : bool :=
  match h, pl with
  | h_load, PLoad _ _ | h_FS, PFS _ _ | h_loadLanguage, PLoadLanguage _ _
  | h_initialize, PInitialize _ _ | h_setParameters, PSetParameters _
  | h_recognize, PRecognize _ _ _ | h_threshold, PThreshold _ _
  | h_getPDF, PGetPDF _ _ | h_detect, PDetect _ | h_terminate, _ => true
  | _, _ => false
  end.

(** The handlers that have answered by the time they return: all but
    [load] and [loadLanguage], which answer later, and [recognize], which
    goes on after its answer. *)
Definition answers_at_once (h : handler_name) : bool :=
  match h with
  | h_load | h_loadLanguage | h_recognize => false
  | _ => true
  end.


(** The two [progress] responses of [load] (lines 36, 49). *)
Definition initializing (p : packet) : status * data :=
  (progress, DProgress (workerId p) None "initializing tesseract" 0).

Definition initialized_core (p : packet) : status * data :=
  (progress, DProgress (workerId p) None "initialized tesseract" 1).


(** [Math.max(0, (percent - 30) / 70)] (line 44), in exact arithmetic. *)
Definition fraction_of (percent : Z) : Q :=
  if Qle_bool 0%Q (Qmake (percent - 30) 70) then Qmake (percent - 30) 70 else 0%Q.

(** *** The parts of a [loadLanguage] run *)

(** An event of one of the language loads of the call. *)
Definition of_loads (P : Platform) (p : packet) (langs : langs_arg)
  (o : language_options) (e : event) : Prop :=
  exists l, In l (lang_specs langs) /\ load_event P p o l e.

(** The first thing [loadLanguage] sends (line 137). *)
Definition loading (p : packet) : event :=
  Sent p progress (DProgress (workerId p) None "loading language traineddata" 0).

(** What [loadLanguage] itself has sent past its [await] (lines 140-151),
    read off the job. *)
Definition own_answer (P : Platform) (j : language_job) : history :=
  let p := job_packet j in
  if continued j then
    match all_rejection j with
    | None =>
        [Sent p progress (DProgress (workerId p) None "loaded language traineddata" 1);
         Sent p resolve (DLangs (job_langs j))]
    | Some err =>
        if isWebWorker P && isDOMException err then []
        else [Sent p reject (DString (toString err))]
    end
  else [].

(** What [Promise.all] was rejected with is the rejection of one of the
    loads. *)
Definition rejection_kept (j : language_job) : Prop :=
  forall e, all_rejection j = Some e -> In (Rejected e) (loads j).

(** Wherever it is run, [m] leaves the part [f] of the variables as it
    was. *)
Definition untouched {X A} (f : globals -> X) (m : M A) : Prop :=
  forall w, f (vars (snd (m w))) = f (vars w).

(** The handlers that work on an image through the API instance. *)
Definition needs_api (h : handler_name) : bool :=
  match h with
  | h_recognize | h_threshold | h_detect => true
  | _ => false
  end.

(** *** Runs that keep within bounds *)

(** A write to the filesystem of the engine: [FS.mkdir], [FS.writeFile]. *)
Definition is_engine_write (e : event) : bool :=
  match e with
  | Invoke (FS_mkdir _) | Invoke (FS_writeFile _ _) => true
  | _ => false
  end.

(** The engine module is not there (yet). *)
Definition no_module (w : world) : Prop := TessModule (vars w) = None.

(** From every suspension on, resumed in a world in [I], the run leaves
    the variables alone and adds only events in [Q]. *)
Fixpoint stays {A} (I : world -> Prop) (Q : event -> Prop) (s : step A) : Prop :=
  match s with
  | Done _ _ => True
  | Yield _ k => forall w', I w' -> grows Q w' (world_of (k w')) /\ stays I Q (k w')
  end.

(** The same of an [async] function, from its call on. *)
Definition tame {A} (I : world -> Prop) (Q : event -> Prop) (f : Async A) : Prop :=
  forall w, I w -> grows Q w (world_of (f w)) /\ stays I Q (f w).

Definition pending_stays {A} (I : world -> Prop) (Q : event -> Prop) (pr : promise A)
  : Prop :=
  match pr with
  | Pending k => tame I Q k
  | _ => True
  end.

(** *** What a language load has done *)

(** Among the events [evs] that came after [base], the promise of the
    awaited call [c] was fulfilled with [r]. *)
Definition fulfilled_with {T} (answer : history -> ext -> outcome T) (c : ext) (r : T)
  (base evs : history) : Prop :=
  exists before after,
    evs = before ++ Settle c :: after /\
    answer (base ++ before ++ [Settle c]) c = Returns r.

(** Among the events [evs] that came after [base], the call [c] was made
    and returned [r]. *)
Definition returned_with {T} (answer : history -> ext -> outcome T) (c : ext) (r : T)
  (base evs : history) : Prop :=
  exists before after,
    evs = before ++ Invoke c :: after /\
    answer (base ++ before ++ [Invoke c]) c = Returns r.

(** Where the bytes [raw] of a language came from: the cache had them,
    or they are what its source gave (the body of the response fetched
    from [langPath], the file under [langPath], the data of the spec). *)
Definition obtained (P : Platform) (o : language_options) (l : lang_spec) (raw : bytes)
  (base evs : history) : Prop :=
  (includes ["refresh"; "none"] (cacheMethod o) = false /\
   fulfilled_with (answer_cache P) (adapter_readCache (cache_file o (lang_code l)))
     (Some raw) base evs)
  \/
  match l with
  | LangCode code =>
      if is_remote P (langPath o) then
        exists resp,
          fulfilled_with (answer_handle P) (fetch_call P (source_file o code)) resp
            base evs /\
          fulfilled_with (answer_bytes P) (Response_arrayBuffer resp) raw base evs
      else
        exists d,
          fulfilled_with (answer_cache P) (adapter_readCache (source_file o code)) d
            base evs /\
          raw = Uint8Array_of d
  | LangInline _ d => raw = d
  end.

(** What became of them: [content] is what [gunzip] made of them if they
    were sniffed as gzip, and else the bytes themselves; it was written to
    the filesystem of the engine (with a module [there]), and to the cache
    (unless the cache method forbids). *)
Definition stored (P : Platform) (o : language_options) (there : option handle)
  (lang : string) (raw content : bytes) (base evs : history) : Prop :=
  (if is_gzip (fileType P raw)
   then returned_with (answer_bytes P) (adapter_gunzip raw) content base evs
   else content = raw) /\
  (there <> None -> In (Invoke (FS_writeFile (data_file o lang) content)) evs) /\
  (includes_or_undefined ["write"; "refresh"] (cacheMethod o) = true ->
   In (Invoke (adapter_writeCache (cache_file o lang) content)) evs).

(** The load of [l] is through, with [content]. *)
Definition loaded (P : Platform) (o : language_options) (there : option handle)
  (l : lang_spec) (content : bytes) (base evs : history) : Prop :=
  exists raw,
    obtained P o l raw base evs /\ stored P o there (lang_code l) raw content base evs.

(** [w'] is [w] some events later. *)
Definition later (w w' : world) : Prop :=
  vars w' = vars w /\ exists evs, trace w' = trace w ++ evs.

(** In [w] the variables are [vs], and [F] holds of what has happened
    since [base]. *)
Definition holds (base : history) (vs : globals) (F : history -> Prop) (w : world) : Prop :=
  vars w = vs /\ exists evs, trace w = base ++ evs /\ F evs.

(** [F] goes on holding when more happens. *)
Definition lasting (F : history -> Prop) : Prop :=
  forall evs more, F evs -> F (evs ++ more).

(** A run from [w0] that is resumed in later worlds only: the world only
    grows, and what the run settles with, in the world it settles in, is
    in [G]. *)
Fixpoint leads_to {A} (G : outcome A -> world -> Prop) (w0 : world) (s : step A) : Prop :=
  match s with
  | Done out w => later w0 w /\ G out w
  | Yield w k => later w0 w /\ forall w', later w w' -> leads_to G w' (k w')
  end.

(** What holds of a load in the pool of a job, in the world [w]. *)
Definition promise_leads {A} (G : outcome A -> world -> Prop) (w : world) (pr : promise A)
  : Prop :=
  match pr with
  | Pending k => forall w', later w w' -> leads_to G w' (k w')
  | Fulfilled a => G (Returns a) w
  | Rejected e => G (Throws e) w
  end.

(* ================================================================== *)
(** ** Platforms to run on                                             *)
(* ================================================================== *)

Module Sample.

Import Byte.

(** Content sniffing for the one type the script asks about: the gzip
    magic number. *)
Definition sniff (b : bytes) : option file_type :=
  match b with
  | x1f :: x8b :: x08 :: _ => Some {| ext_of := "gz"; mime := "application/gzip" |}
  | _ => None
  end.

Definition EEXIST : exn :=
  {| toString := "ErrnoError: File exists"; isDOMException := false |}.

Definition abort : exn :=
  {| toString := "RuntimeError: abort()"; isDOMException := false |}.

Definition defaults : obj :=
  [ ("tessedit_pageseg_mode", VStr "6");
    ("tessedit_char_whitelist", VStr "");
    ("tessjs_create_hocr", VStr "1");
    ("tessjs_create_tsv", VStr "1");
    ("tessjs_create_box", VStr "0");
    ("tessjs_create_unlv", VStr "0");
    ("tessjs_create_osd", VStr "0") ].

(** A worker under node: every call returns, handles are fresh, [dump]
    gives an object, the cache is empty and the files under [./lang-data]
    hold three bytes.  [mkdir]
    fails when the directory is there already ([has_dir]); [Init] fails
    when [init_fails]; OS detection gives [detects]. *)
Definition node (has_dir init_fails detects : bool) : Platform := {|
  isWebWorker := false;
  defaultParams := defaults;
  isURL := fun s => String.prefix "http://" s || String.prefix "https://" s;
  fileType := sniff;
  String_of_bytes := fun _ => "";
  answer_unit := fun _ c =>
    match c with
    | FS_mkdir _ => if has_dir then Throws EEXIST else Returns tt
    | api_Init _ _ _ => if init_fails then Throws abort else Returns tt
    | _ => Returns tt
    end;
  answer_handle := fun tr _ => Returns (length tr);
  answer_value := fun tr c =>
    match c with
    | dump _ _ => Returns (VRef (length tr))
    | _ => Returns VUndefined
    end;
  answer_bytes := fun _ c =>
    match c with
    | adapter_gunzip d => Returns (skipn 3 d)
    | _ => Returns [x54; x45; x53]
    end;
  answer_cache := fun _ c =>
    Returns match c with
            | adapter_readCache path =>
                if String.prefix "./lang-data/" path then Some [x54; x45; x53] else None
            | _ => None
            end;
  answer_bool := fun _ _ => Returns detects;
  answer_best := fun _ _ =>
    Returns {| orientation_id := 0; script_id := VNum 1;
               sconfidence := VNum 1; oconfidence := VNum 1 |};
  reports := fun _ _ => []
|}.

(** The worker once [load] is done, before [initialize]. *)
Definition loaded : world :=
  {| vars := {| TessModule := Some 1; api := None; latestJob := None;
                params := defaults |};
     trace := [] |}.

(** The worker once [initialize] is done and a parameter was set. *)
Definition initialized : world :=
  {| vars := {| TessModule := Some 1; api := Some 2; latestJob := None;
                params := defaults ++ [("tessedit_char_blacklist", VStr "0")] |};
     trace := [] |}.

Definition job (name : string) (pl : payload) : packet :=
  {| workerId := "Worker-0"; jobId := "Job-1"; action := name; payload_of := pl |}.

Definition options (cache : option string) : language_options :=
  {| langPath := "./lang-data"; dataPath := Some "/tessdata"; cachePath := None;
     cacheMethod := cache; gzip := None |}.

(** The platform on which nothing fails and the OS is detected. *)
Definition base : Platform := node false false true.

(** A text and three gzip magic bytes before it. *)
Definition text : bytes := [x54; x45; x53].
Definition gzipped : bytes := [x1f; x8b; x08; x54; x45; x53].

Definition new_params : obj :=
  [ ("tessedit_char_whitelist", VStr "0123456789"); ("tessjs_create_pdf", VStr "1") ].

Definition set_job : packet := job "setParameters" (PSetParameters new_params).

Definition init_job : packet := job "initialize" (PInitialize (LangsString "eng") (VNum 1)).

Definition detect_job : packet := job "detect" (PDetect (VRef 9)).

Definition load_job (langs : langs_arg) (cache : option string) : packet :=
  job "loadLanguage" (PLoadLanguage langs (options cache)).

End Sample.

(** A platform on which [_free] throws.  [recognize] frees the image
    after the [resolve], inside the [try]. *)
Definition free_fails : Platform :=
  {| isWebWorker := false;
     defaultParams := Sample.defaults;
     isURL := isURL (Sample.node false false true);
     fileType := Sample.sniff;
     String_of_bytes := fun _ => "";
     answer_unit := fun _ c =>
       match c with
       | TessModule_free _ => Throws Sample.abort
       | _ => Returns tt
       end;
     answer_handle := answer_handle (Sample.node false false true);
     answer_value := answer_value (Sample.node false false true);
     answer_bytes := answer_bytes (Sample.node false false true);
     answer_cache := answer_cache (Sample.node false false true);
     answer_bool := answer_bool (Sample.node false false true);
     answer_best := answer_best (Sample.node false false true);
     reports := reports (Sample.node false false true) |}.

(** A worker in a browser that is offline: [fetch] is rejected with a
    [DOMException]; everything else is as under node. *)
Definition AbortError : exn :=
  {| toString := "AbortError: The operation was aborted."; isDOMException := true |}.

Definition offline : Platform :=
  {| isWebWorker := true;
     defaultParams := Sample.defaults;
     isURL := isURL (Sample.node false false true);
     fileType := Sample.sniff;
     String_of_bytes := fun _ => "";
     answer_unit := answer_unit (Sample.node false false true);
     answer_handle := fun tr c =>
       match c with
       | global_fetch _ => Throws AbortError
       | _ => Returns (length tr)
       end;
     answer_value := answer_value (Sample.node false false true);
     answer_bytes := answer_bytes (Sample.node false false true);
     answer_cache := answer_cache (Sample.node false false true);
     answer_bool := answer_bool (Sample.node false false true);
     answer_best := answer_best (Sample.node false false true);
     reports := reports (Sample.node false false true) |}.

(** A platform whose core never arrives: the promise of the core is
    rejected. *)
Definition no_core : Platform :=
  {| isWebWorker := false;
     defaultParams := Sample.defaults;
     isURL := isURL (Sample.node false false true);
     fileType := Sample.sniff;
     String_of_bytes := fun _ => "";
     answer_unit := answer_unit (Sample.node false false true);
     answer_handle := fun tr c =>
       match c with
       | Core _ => Throws Sample.abort
       | _ => Returns (length tr)
       end;
     answer_value := answer_value (Sample.node false false true);
     answer_bytes := answer_bytes (Sample.node false false true);
     answer_cache := answer_cache (Sample.node false false true);
     answer_bool := answer_bool (Sample.node false false true);
     answer_best := answer_best (Sample.node false false true);
     reports := reports (Sample.node false false true) |}.

(** A worker whose cache has every file. *)
Definition cached : Platform :=
  {| isWebWorker := true;
     defaultParams := Sample.defaults;
     isURL := isURL (Sample.node false false true);
     fileType := Sample.sniff;
     String_of_bytes := fun _ => "";
     answer_unit := answer_unit (Sample.node false false true);
     answer_handle := answer_handle (Sample.node false false true);
     answer_value := answer_value (Sample.node false false true);
     answer_bytes := answer_bytes (Sample.node false false true);
     answer_cache := fun _ _ => Returns (Some Sample.text);
     answer_bool := answer_bool (Sample.node false false true);
     answer_best := answer_best (Sample.node false false true);
     reports := reports (Sample.node false false true) |}.

(** Languages of a server, kept in the cache. *)
Definition from_server_cached : language_options :=
  {| langPath := "https://example.org/lang"; dataPath := None; cachePath := None;
     cacheMethod := None; gzip := None |}.

(** A worker whose adapter reports through the emitter while it gets the
    core. *)
Definition announcing : Platform :=
  {| isWebWorker := false;
     defaultParams := Sample.defaults;
     isURL := isURL (Sample.node false false true);
     fileType := Sample.sniff;
     String_of_bytes := fun _ => "";
     answer_unit := answer_unit (Sample.node false false true);
     answer_handle := answer_handle (Sample.node false false true);
     answer_value := answer_value (Sample.node false false true);
     answer_bytes := answer_bytes (Sample.node false false true);
     answer_cache := answer_cache (Sample.node false false true);
     answer_bool := answer_bool (Sample.node false false true);
     answer_best := answer_best (Sample.node false false true);
     reports := fun _ c =>
       match c with
       | adapter_getCore _ => [(progress, DString "loading tesseract core")]
       | _ => []
       end |}.

(** A worker whose [dump] returns nothing. *)
Definition dumps_nothing : Platform :=
  {| isWebWorker := false;
     defaultParams := Sample.defaults;
     isURL := isURL (Sample.node false false true);
     fileType := Sample.sniff;
     String_of_bytes := fun _ => "";
     answer_unit := answer_unit (Sample.node false false true);
     answer_handle := answer_handle (Sample.node false false true);
     answer_value := fun _ _ => Returns VUndefined;
     answer_bytes := answer_bytes (Sample.node false false true);
     answer_cache := answer_cache (Sample.node false false true);
     answer_bool := answer_bool (Sample.node false false true);
     answer_best := answer_best (Sample.node false false true);
     reports := reports (Sample.node false false true) |}.

(** Languages fetched from a server, kept nowhere else. *)
Definition from_server : language_options :=
  {| langPath := "https://example.org/lang"; dataPath := None; cachePath := None;
     cacheMethod := Some "none"; gzip := None |}.

(** The worker as it starts, before [load]. *)
Definition fresh : world :=
  {| vars := {| TessModule := None; api := None; latestJob := None;
                params := Sample.defaults |};
     trace := [] |}.

Definition core_job : packet :=
  Sample.job "load" (PLoad (VStr "tesseract-core.wasm.js") (VBool false)).

Definition fs_job : packet :=
  Sample.job "FS" (PFS "readFile" [VStr "/debug.png"]).

Definition recognize_job : packet :=
  Sample.job "recognize" (PRecognize (VRef 9) None VUndefined).

Definition threshold_job : packet :=
  Sample.job "threshold" (PThreshold (VRef 9) (VNum 0)).

Definition pdf_job : packet :=
  Sample.job "getPDF" (PGetPDF (VStr "scan") (VBool false)).

Definition terminate_job : packet := Sample.job "terminate" PNone.

Definition server_job (langs : langs_arg) : packet :=
  Sample.job "loadLanguage" (PLoadLanguage langs from_server).

(* ================================================================== *)
(** * Properties                                                       *)
(* ================================================================== *)

(** ** Objects *)

Section Objects.

Lemma obj_get_In (o : obj) (k : string) :
  obj_get o k <> None <-> In k (Object_keys o).
Proof.
  induction o as [|[k' v'] r IH]; simpl.
  - split; [congruence | tauto].
  - destruct (String.eqb_spec k' k) as [->|Hne].
    + split; [auto | congruence].
    + rewrite IH. split; [auto | intros [H|H]; [congruence | exact H]].
Qed.

Lemma obj_get_None (o : obj) (k : string) :
  ~ In k (Object_keys o) -> obj_get o k = None.
Proof.
  intros H. destruct (obj_get o k) eqn:E; [|reflexivity].
  exfalso. apply H, obj_get_In. congruence.
Qed.

Lemma obj_get_wf (o : obj) (k : string) (v : jsval) :
  obj_wf o -> In (k, v) o -> obj_get o k = Some v.
Proof.
  unfold obj_wf. induction o as [|[k' v'] r IH]; simpl; intros Hwf Hin; [tauto|].
  inversion Hwf as [|? ? Hnot Hr]; subst.
  destruct Hin as [Heq|Hin].
  - inversion Heq; subst. now rewrite String.eqb_refl.
  - destruct (String.eqb_spec k' k) as [->|_]; [|auto].
    exfalso. apply Hnot. change k with (fst (k, v)). now apply in_map.
Qed.

Lemma obj_get_Some_In (o : obj) (k : string) (v : jsval) :
  obj_get o k = Some v -> In (k, v) o.
Proof.
  induction o as [|[k' v'] r IH]; simpl; [discriminate|].
  destruct (String.eqb_spec k' k) as [->|_]; intros H.
  - inversion H. now left.
  - right. auto.
Qed.

Lemma obj_get_set (o : obj) (k k' : string) (v : jsval) :
  obj_get (obj_set o k v) k' = if String.eqb k k' then Some v else obj_get o k'.
Proof.
  induction o as [|[k0 v0] r IH]; simpl.
  - reflexivity.
  - destruct (String.eqb_spec k0 k) as [->|Hne]; simpl.
    + destruct (String.eqb_spec k k'); reflexivity.
    + rewrite IH. destruct (String.eqb_spec k0 k') as [->|]; [|reflexivity].
      destruct (String.eqb_spec k k'); [congruence | reflexivity].
Qed.

Lemma obj_set_same (o : obj) (k : string) (v : jsval) :
  obj_get o k = Some v -> obj_set o k v = o.
Proof.
  induction o as [|[k0 v0] r IH]; simpl; [discriminate|].
  destruct (String.eqb_spec k0 k) as [->|Hne]; intros H.
  - now inversion H.
  - now rewrite IH.
Qed.

Lemma obj_set_new (o : obj) (k : string) (v : jsval) :
  ~ In k (Object_keys o) -> obj_set o k v = o ++ [(k, v)].
Proof.
  induction o as [|[k0 v0] r IH]; simpl; intros H; [reflexivity|].
  destruct (String.eqb_spec k0 k) as [->|Hne]; [tauto|].
  rewrite IH; tauto.
Qed.

(** Later properties of the source win over the target's and over earlier
    ones. *)
Lemma obj_get_assign (src target : obj) (k : string) :
  obj_wf src ->
  obj_get (obj_assign target src) k =
  match obj_get src k with Some v => Some v | None => obj_get target k end.
Proof.
  unfold obj_assign, obj_wf. revert target.
  induction src as [|[k1 v1] r IH]; simpl; intros target Hwf; [reflexivity|].
  inversion Hwf as [|? ? Hnot Hr]; subst.
  rewrite IH by assumption. rewrite obj_get_set.
  destruct (String.eqb_spec k1 k) as [->|_]; [|reflexivity].
  now rewrite (obj_get_None r k Hnot).
Qed.

Lemma obj_assign_fresh (src target : obj) :
  obj_wf (target ++ src) -> obj_assign target src = target ++ src.
Proof.
  unfold obj_assign, obj_wf. revert target.
  induction src as [|[k1 v1] r IH]; simpl; intros target Hwf.
  - now rewrite app_nil_r.
  - rewrite obj_set_new.
    + rewrite IH; rewrite <- app_assoc; [reflexivity | exact Hwf].
    + rewrite map_app in Hwf. simpl in Hwf.
      apply NoDup_remove_2 in Hwf. intros H. apply Hwf, in_or_app. now left.
Qed.

(** Spreading an object into an empty literal copies it. *)
Lemma obj_assign_nil (o : obj) : obj_wf o -> obj_assign [] o = o.
Proof. intros H. now rewrite obj_assign_fresh. Qed.

Lemma obj_assign_same (target src : obj) :
  (forall k v, In (k, v) src -> obj_get target k = Some v) ->
  obj_assign target src = target.
Proof.
  unfold obj_assign. induction src as [|[k1 v1] r IH]; simpl; intros H; [reflexivity|].
  rewrite obj_set_same by (apply H; now left).
  apply IH. intros k v Hin. apply H. now right.
Qed.

(** [{ ...o, ...o }] has the content of [o]. *)
Lemma spread_same (o : obj) : obj_wf o -> spread o o = o.
Proof.
  intros H. unfold spread. rewrite obj_assign_nil by assumption.
  apply obj_assign_same. intros k v. now apply obj_get_wf.
Qed.

(** [{ ...a, ...b }]: per key, [b] wins. *)
Lemma obj_get_spread (a b : obj) (k : string) :
  obj_wf a -> obj_wf b ->
  obj_get (spread a b) k =
  match obj_get b k with Some v => Some v | None => obj_get a k end.
Proof.
  intros Ha Hb. unfold spread.
  rewrite obj_get_assign by assumption. now rewrite obj_assign_nil.
Qed.

Lemma obj_get_spread_In (a b : obj) (k : string) (v : jsval) :
  obj_wf b -> In (k, v) b -> obj_get (spread a b) k = Some v.
Proof.
  intros Hb Hin. unfold spread. rewrite obj_get_assign by assumption.
  now rewrite (obj_get_wf b k v Hb Hin).
Qed.

Lemma Object_keys_set (o : obj) (k : string) (v : jsval) :
  Object_keys (obj_set o k v) =
  if existsb (String.eqb k) (Object_keys o) then Object_keys o
  else Object_keys o ++ [k].
Proof.
  unfold Object_keys.
  induction o as [|[k0 v0] r IH]; simpl; [reflexivity|].
  rewrite (String.eqb_sym k k0).
  destruct (String.eqb_spec k0 k) as [->|Hne]; simpl; [reflexivity|].
  rewrite IH.
  now destruct (existsb (String.eqb k) (map fst r)).
Qed.

Lemma obj_set_wf (o : obj) (k : string) (v : jsval) :
  obj_wf o -> obj_wf (obj_set o k v).
Proof.
  unfold obj_wf. intros H. fold (Object_keys (obj_set o k v)).
  rewrite Object_keys_set.
  destruct (existsb (String.eqb k) (Object_keys o)) eqn:E; [exact H|].
  apply NoDup_app_remove_l with (l := []). simpl.
  assert (Hnot : ~ In k (Object_keys o)).
  { intros Hin. assert (existsb (String.eqb k) (Object_keys o) = true).
    { apply existsb_exists. exists k. split; [exact Hin | apply String.eqb_refl]. }
    congruence. }
  clear E. unfold Object_keys in *.
  induction (map fst o) as [|x l IH]; simpl.
  - constructor; [tauto | constructor].
  - inversion H; subst. constructor.
    + rewrite in_app_iff. simpl. intros [?|[?|[]]]; [tauto|].
      subst. apply Hnot. now left.
    + apply IH; [assumption|]. intros ?. apply Hnot. now right.
Qed.

Lemma obj_assign_wf (src target : obj) :
  obj_wf target -> obj_wf (obj_assign target src).
Proof.
  unfold obj_assign. revert target.
  induction src as [|[k v] r IH]; simpl; intros target H; [exact H|].
  apply IH. now apply obj_set_wf.
Qed.

Lemma spread_wf (a b : obj) : obj_wf (spread a b).
Proof.
  unfold spread. apply obj_assign_wf, obj_assign_wf. constructor.
Qed.

End Objects.

(** ** Lists *)

Lemma In_firstn {A} (n : nat) (l : list A) (x : A) : In x (firstn n l) -> In x l.
Proof.
  revert l. induction n as [|n IH]; intros [|y l]; simpl; try tauto.
  intros [H|H]; [now left | right; auto].
Qed.

Lemma responses_app (a b : history) : responses (a ++ b) = responses a ++ responses b.
Proof.
  induction a as [|e a IH]; simpl; [reflexivity|].
  destruct e; simpl; try exact IH. now rewrite IH.
Qed.

(** ** setParameters *)

Section SetParameters.

Variable P : Platform.

Lemma forEach_cons {A} (f : A -> M unit) (x : A) (l : list A) (w : world) :
  forEach f (x :: l) w =
  match f x w with
  | (Returns _, w') => forEach f l w'
  | (Throws e, w') => (Throws e, w')
  end.
Proof. reflexivity. Qed.

Lemma forward_run (_params : obj) (h : handle) (k : string) (w : world) :
  api (vars w) = Some h ->
  forward P _params k w =
  (answer_unit P (trace w ++ [Invoke (api_SetVariable h k (obj_index _params k))])
     (api_SetVariable h k (obj_index _params k)),
   {| vars := vars w;
      trace := trace w ++ [Invoke (api_SetVariable h k (obj_index _params k))] |}).
Proof.
  intros Hapi. unfold forward, api_call, the_api, call_unit, invoke, bind, get.
  rewrite Hapi. reflexivity.
Qed.

(** Whatever the engine answers, the loop calls [SetVariable] for the keys
    it is given, in order, up to the first call that throws. *)
Lemma forEach_forward_any (_params : obj) (h : handle) (ks : list string) (w : world) :
  api (vars w) = Some h ->
  exists n,
    vars (snd (forEach (forward P _params) ks w)) = vars w /\
    trace (snd (forEach (forward P _params) ks w)) =
      trace w ++ SetVariable_calls h _params (firstn n ks).
Proof.
  revert w. induction ks as [|k ks IH]; intros w Hapi.
  - exists 0. simpl. now rewrite app_nil_r.
  - rewrite forEach_cons, (forward_run _ h) by exact Hapi.
    destruct (answer_unit P _ _) as [[]|e].
    + match goal with |- context [forEach _ ks ?w1] =>
        destruct (IH w1 Hapi) as [n [Hv Ht]] end.
      exists (S n). rewrite Hv, Ht. simpl. now rewrite <- app_assoc.
    + exists 1. simpl. split; reflexivity.
Qed.

(** When no call throws, all of them are made. *)
Lemma forEach_forward_all (_params : obj) (h : handle) (ks : list string) (w : world) :
  api (vars w) = Some h ->
  (forall tr k v, answer_unit P tr (api_SetVariable h k v) = Returns tt) ->
  forEach (forward P _params) ks w =
  (Returns tt, {| vars := vars w; trace := trace w ++ SetVariable_calls h _params ks |}).
Proof.
  intros Hapi Hok. revert w Hapi. induction ks as [|k ks IH]; intros w Hapi.
  - simpl. unfold ret. rewrite app_nil_r. now destruct w.
  - rewrite forEach_cons, (forward_run _ h) by exact Hapi.
    rewrite Hok. rewrite IH by exact Hapi. simpl. now rewrite <- app_assoc.
Qed.

Lemma setParameters_unfold (_params : obj) (rs : option packet) :
  setParameters P _params rs =
  (forEach (forward P _params) (forwarded _params) ;;
   g <- get ;;
   set_params (spread (params g) _params) ;;
   match rs with
   | Some p => g' <- get ;; res p resolve (DParams (params g'))
   | None => ret tt
   end).
Proof. reflexivity. Qed.

(** The whole effect of a call in which [SetVariable] does not throw. *)
Lemma setParameters_run (_params : obj) (rs : option packet) (h : handle) (w : world) :
  api (vars w) = Some h ->
  (forall tr k v, answer_unit P tr (api_SetVariable h k v) = Returns tt) ->
  setParameters P _params rs w =
  (Returns tt,
   {| vars := with_params (vars w) (spread (params (vars w)) _params);
      trace := trace w ++ SetVariable_calls h _params (forwarded _params)
                 ++ resolve_with rs (spread (params (vars w)) _params) |}).
Proof.
  intros Hapi Hok. rewrite setParameters_unfold.
  unfold bind at 1. rewrite (forEach_forward_all _ h) by assumption.
  destruct rs as [p|]; simpl; unfold bind, get, set_params, put, res, record, ret; simpl.
  - now rewrite <- app_assoc.
  - now rewrite app_nil_r.
Qed.

(** Whatever happens, the only engine calls are [SetVariable] on keys that
    do not carry the prefix, and the retained set is merged or left alone. *)
Lemma setParameters_events (_params : obj) (rs : option packet) (h : handle) (w : world) :
  api (vars w) = Some h ->
  exists o w' n tail,
    setParameters P _params rs w = (o, w') /\
    trace w' =
      trace w ++ SetVariable_calls h _params (firstn n (forwarded _params)) ++ tail /\
    (forall e, In e tail -> exists p d, e = Sent p resolve d) /\
    api (vars w') = Some h /\ TessModule (vars w') = TessModule (vars w) /\
    (params (vars w') = params (vars w) \/
     params (vars w') = spread (params (vars w)) _params).
Proof.
  intros Hapi. rewrite setParameters_unfold.
  destruct (forEach_forward_any _params h (forwarded _params) w Hapi) as [n [Hv Ht]].
  unfold bind at 1.
  destruct (forEach (forward P _params) (forwarded _params) w) as [[[]|e] w1] eqn:E;
    simpl in Hv, Ht.
  - destruct rs as [p|]; simpl; unfold bind, get, set_params, put, res, record, ret; simpl.
    + eexists _, _, n, [Sent p resolve (DParams (spread (params (vars w1)) _params))].
      split; [reflexivity|]. simpl.
      rewrite Ht, Hv, <- app_assoc. split; [reflexivity|].
      split; [|split; [exact Hapi | split; [reflexivity | now right]]].
      intros e [<-|[]]. eauto.
    + eexists _, _, n, []. split; [reflexivity|]. simpl.
      rewrite Ht, Hv, app_nil_r. split; [reflexivity|].
      split; [intros e []|split; [exact Hapi | split; [reflexivity | now right]]].
  - eexists _, _, n, []. split; [reflexivity|].
    rewrite Ht, Hv, app_nil_r. split; [reflexivity|].
    split; [intros ? []|split; [exact Hapi | split; [reflexivity | now left]]].
Qed.

Lemma forwarded_not_prefixed (_params : obj) (k : string) :
  In k (forwarded _params) -> String.prefix "tessjs_" k = false.
Proof.
  unfold forwarded. rewrite filter_In. intros [_ H]. now apply negb_true_iff.
Qed.

Lemma SetVariable_calls_In (h : handle) (_params : obj) (ks : list string) (e : event) :
  In e (SetVariable_calls h _params ks) ->
  exists k, In k ks /\ e = Invoke (api_SetVariable h k (obj_index _params k)).
Proof.
  unfold SetVariable_calls. rewrite in_map_iff. intros [k [<- Hin]]. eauto.
Qed.

End SetParameters.

(** C6.  [setParameters] on a live API instance whose [SetVariable] does not
    throw: every key of the mapping is retained, with its value, in the merged
    parameter set; a key that starts with [tessjs_] is never the subject of a
    [SetVariable] call; every other key is forwarded, with its value. *)
Theorem setParameters_forwards_unprefixed_only
  (P : Platform) (_params : obj) (rs : option packet) (h : handle) (w : world) :
  obj_wf _params ->
  api (vars w) = Some h ->
  (forall tr k v, answer_unit P tr (api_SetVariable h k v) = Returns tt) ->
  exists w' evs,
    setParameters P _params rs w = (Returns tt, w') /\
    trace w' = trace w ++ evs /\
    forall k v, In (k, v) _params ->
      obj_get (params (vars w')) k = Some v /\
      if String.prefix "tessjs_" k
      then forall e, In e evs -> ~ is_SetVariable_of k e
      else In (Invoke (api_SetVariable h k v)) evs.
Proof.
  intros Hwf Hapi Hok.
  eexists _, _. split; [apply (setParameters_run P _ _ h); assumption|].
  simpl. split; [reflexivity|].
  intros k v Hin. split; [now apply obj_get_spread_In|].
  destruct (String.prefix "tessjs_" k) eqn:Hpre.
  - intros e He [a [v' ->]]. apply in_app_or in He. destruct He as [He|He].
    + apply SetVariable_calls_In in He. destruct He as [k' [Hk' Heq]].
      inversion Heq; subst. apply forwarded_not_prefixed in Hk'. congruence.
    + destruct rs; simpl in He; [destruct He as [He|[]]; discriminate | contradiction].
  - apply in_or_app. left. unfold SetVariable_calls. apply in_map_iff.
    exists k. split.
    + unfold obj_index. now rewrite (obj_get_wf _params k v Hwf Hin).
    + unfold forwarded. apply filter_In. split.
      * unfold Object_keys. change k with (fst (k, v)). now apply in_map.
      * now rewrite Hpre.
Qed.

(** Whatever the engine answers and whatever the mapping, no key with the
    prefix reaches [SetVariable]. *)
Lemma setParameters_never_forwards_prefixed
  (P : Platform) (_params : obj) (rs : option packet) (h : handle) (w : world) (k : string) :
  api (vars w) = Some h ->
  String.prefix "tessjs_" k = true ->
  exists evs,
    trace (snd (setParameters P _params rs w)) = trace w ++ evs /\
    forall e, In e evs -> ~ is_SetVariable_of k e.
Proof.
  intros Hapi Hpre.
  destruct (setParameters_events P _params rs h w Hapi)
    as [o [w' [n [tail [Hrun [Htr [Htail _]]]]]]].
  rewrite Hrun. simpl. eexists. split; [exact Htr|].
  intros e He [a [v ->]]. apply in_app_or in He. destruct He as [He|He].
  - apply SetVariable_calls_In in He. destruct He as [k' [Hk' Heq]].
    inversion Heq; subst. apply In_firstn, forwarded_not_prefixed in Hk'. congruence.
  - destruct (Htail _ He) as [p [d Heq]]. discriminate.
Qed.

(** C7.  Two calls of [setParameters], one after the other, on a live API
    instance whose [SetVariable] does not throw.  Per key the value written
    last wins: the second mapping's, else the first's, else what was
    retained before.  The keys of the result are the keys retained before
    and the keys of both mappings; with disjoint mappings both are there
    with their values.  Each call resolves with the whole parameter set
    as it is after that call. *)
Theorem setParameters_twice_merges
  (P : Platform) (first second : obj) (p1 p2 : packet) (h : handle) (w : world) :
  obj_wf (params (vars w)) -> obj_wf first -> obj_wf second ->
  api (vars w) = Some h ->
  (forall tr k v, answer_unit P tr (api_SetVariable h k v) = Returns tt) ->
  exists w1 w2 calls1 calls2,
    setParameters P first (Some p1) w = (Returns tt, w1) /\
    setParameters P second (Some p2) w1 = (Returns tt, w2) /\
    (forall k, obj_get (params (vars w2)) k =
               match obj_get second k with
               | Some v => Some v
               | None => match obj_get first k with
                         | Some v => Some v
                         | None => obj_get (params (vars w)) k
                         end
               end) /\
    (forall k, In k (Object_keys (params (vars w2))) <->
               In k (Object_keys (params (vars w))) \/ In k (Object_keys first)
               \/ In k (Object_keys second)) /\
    ((forall k, In k (Object_keys first) -> ~ In k (Object_keys second)) ->
     forall k v, In (k, v) first \/ In (k, v) second ->
                 obj_get (params (vars w2)) k = Some v) /\
    trace w1 = trace w ++ calls1 ++ [Sent p1 resolve (DParams (params (vars w1)))] /\
    trace w2 = trace w1 ++ calls2 ++ [Sent p2 resolve (DParams (params (vars w2)))] /\
    (forall e, In e (calls1 ++ calls2) -> exists k v, e = Invoke (api_SetVariable h k v)).
Proof.
  intros Hw Hf Hs Hapi Hok.
  eexists _, _, _, _.
  split; [apply (setParameters_run P _ _ h); assumption|].
  split; [apply (setParameters_run P _ _ h); [exact Hapi | exact Hok]|].
  simpl.
  assert (Hget : forall k,
    obj_get (spread (spread (params (vars w)) first) second) k =
    match obj_get second k with
    | Some v => Some v
    | None => match obj_get first k with
              | Some v => Some v
              | None => obj_get (params (vars w)) k
              end
    end).
  { intros k. rewrite obj_get_spread by (auto using spread_wf).
    now rewrite obj_get_spread by assumption. }
  split; [exact Hget|].
  split.
  { intros k. rewrite <- !obj_get_In, Hget.
    destruct (obj_get second k), (obj_get first k), (obj_get (params (vars w)) k);
      intuition congruence. }
  split.
  { intros Hdisj k v [Hin|Hin]; rewrite Hget.
    - rewrite (obj_get_None second k).
      + now rewrite (obj_get_wf first k v Hf Hin).
      + apply Hdisj. unfold Object_keys. change k with (fst (k, v)). now apply in_map.
    - now rewrite (obj_get_wf second k v Hs Hin). }
  split; [reflexivity|]. split; [reflexivity|].
  intros e He. apply in_app_or in He.
  destruct He as [He|He]; apply SetVariable_calls_In in He;
    destruct He as [k [_ ->]]; eauto.
Qed.

(** ** initialize *)

Section Initialize.

Variable P : Platform.

Lemma precedes_cons_other (e1 e2 e : event) (tr : history) :
  e <> e2 -> precedes e1 e2 tr -> precedes e1 e2 (e :: tr).
Proof.
  intros Hne H [|x l1] l2 Heq; simpl in Heq; inversion Heq; subst.
  - congruence.
  - right. eapply H. reflexivity.
Qed.

Lemma precedes_cons_first (e1 e2 : event) (tr : history) :
  e1 <> e2 -> precedes e1 e2 (e1 :: tr).
Proof.
  intros Hne [|x l1] l2 Heq; simpl in Heq; inversion Heq; subst.
  - congruence.
  - now left.
Qed.

(** Whatever the engine answers: when an instance exists, [End] is called
    on it, and the constructor is not called before that. *)
Lemma initialize_End_first (p : packet) (_langs : langs_arg) (oem : jsval)
  (h0 : handle) (w : world) :
  payload_of p = PInitialize _langs oem ->
  api (vars w) = Some h0 ->
  exists evs,
    trace (snd (initialize P p w)) = trace w ++ evs /\
    In (Invoke (api_End h0)) evs /\
    precedes (Invoke (api_End h0)) (Invoke TessBaseAPI_new) evs.
Proof.
  intros Hp Hapi. unfold initialize. rewrite Hp.
  unfold try_catch, bind, res, record, get, call_unit, invoke. simpl.
  rewrite Hapi.
  destruct (answer_unit P _ (api_End h0)) as [[]|e].
  2:{ simpl. rewrite <- !app_assoc. eexists. split; [reflexivity|]. simpl.
      split; [tauto|]. apply precedes_cons_other; [discriminate|].
      apply precedes_cons_first. discriminate. }
  unfold module_call, the_module, call_handle, invoke, bind, get. simpl.
  destruct (TessModule (vars w)) as [m|].
  2:{ simpl. rewrite <- !app_assoc. eexists. split; [reflexivity|]. simpl.
      split; [tauto|]. apply precedes_cons_other; [discriminate|].
      apply precedes_cons_first. discriminate. }
  simpl.
  destruct (answer_handle P _ TessBaseAPI_new) as [a|e].
  2:{ simpl. rewrite <- !app_assoc. eexists. split; [reflexivity|]. simpl.
      split; [tauto|]. apply precedes_cons_other; [discriminate|].
      apply precedes_cons_first. discriminate. }
  unfold api_call, the_api, set_api, put, bind, get, call_unit, invoke, set_params, put. simpl.
  destruct (answer_unit P _ (api_Init _ _ _)) as [[]|e].
  2:{ simpl. rewrite <- !app_assoc. eexists. split; [reflexivity|]. simpl.
      split; [tauto|]. apply precedes_cons_other; [discriminate|].
      apply precedes_cons_first. discriminate. }
  match goal with |- context [setParameters P ?d None ?w1] =>
    destruct (setParameters_events P d None a w1 eq_refl)
      as [o [w' [n [tail [Hrun [Htr _]]]]]] end.
  rewrite Hrun. simpl in Htr.
  destruct o as [[]|e]; simpl; rewrite Htr, <- !app_assoc;
    (eexists; split; [reflexivity|]); simpl;
    (split; [tauto|]); (apply precedes_cons_other; [discriminate|]);
    apply precedes_cons_first; discriminate.
Qed.

End Initialize.

(** C3.  [initialize] while an API instance exists, on a loaded module whose
    [End], constructor and [Init] return: [End] is called on the existing
    instance, then the new [TessBaseAPI] is constructed and initialised, and
    after the call the retained parameter set is the default set. *)
Theorem initialize_again_ends_then_creates
  (P : Platform) (p : packet) (_langs : langs_arg) (oem : jsval)
  (h0 m : handle) (w : world) :
  payload_of p = PInitialize _langs oem ->
  api (vars w) = Some h0 ->
  TessModule (vars w) = Some m ->
  obj_wf (defaultParams P) ->
  (forall tr, answer_unit P tr (api_End h0) = Returns tt) ->
  (forall tr, exists a, answer_handle P tr TessBaseAPI_new = Returns a) ->
  (forall tr a, answer_unit P tr (api_Init a (init_langs P _langs) oem) = Returns tt) ->
  exists w' a rest,
    initialize P p w = (Returns tt, w') /\
    trace w' =
      trace w ++ Sent p progress (DProgress (workerId p) None "initializing api" 0)
        :: Invoke (api_End h0)
        :: Invoke TessBaseAPI_new
        :: Invoke (api_Init a (init_langs P _langs) oem)
        :: rest /\
    precedes (Invoke (api_End h0)) (Invoke TessBaseAPI_new)
      (Sent p progress (DProgress (workerId p) None "initializing api" 0)
        :: Invoke (api_End h0)
        :: Invoke TessBaseAPI_new
        :: Invoke (api_Init a (init_langs P _langs) oem)
        :: rest) /\
    api (vars w') = Some a /\
    params (vars w') = defaultParams P.
Proof.
  intros Hp Hapi Hmod Hwf HEnd Hnew HInit. unfold initialize. rewrite Hp.
  unfold try_catch, bind, res, record, get, call_unit, invoke. simpl.
  rewrite Hapi, HEnd.
  unfold module_call, the_module, call_handle, invoke, bind, get. simpl.
  rewrite Hmod. simpl.
  match goal with |- context [answer_handle P ?tr TessBaseAPI_new] =>
    destruct (Hnew tr) as [a Ha]; rewrite Ha end.
  unfold api_call, the_api, set_api, put, bind, get, call_unit, invoke, set_params, put. simpl.
  rewrite HInit.
  match goal with |- context [setParameters P ?d None ?w1] =>
    destruct (setParameters_events P d None a w1 eq_refl)
      as [o [w' [n [tail [Hrun [Htr [_ [Hapi' [_ Hpar]]]]]]]]] end.
  rewrite Hrun. simpl in Htr, Hpar.
  rewrite (spread_same _ Hwf) in Hpar.
  assert (Hdef : params (vars w') = defaultParams P) by (destruct Hpar; assumption).
  destruct o as [[]|e]; simpl; rewrite Htr, <- !app_assoc; simpl;
    (eexists _, a, _; split; [reflexivity|]); simpl;
    (split; [reflexivity|]);
    (split; [apply precedes_cons_other; [discriminate|];
             apply precedes_cons_first; discriminate|]);
    (split; assumption).
Qed.

(** ** detect *)

(** When OS detection gives [false], whatever [End] and [_free] do then:
    [End] is called on the instance, and the one response is a [reject]. *)
Lemma detect_failure_never_resolves
  (P : Platform) (p : packet) (image : jsval) (a m : handle) (w : world) :
  payload_of p = PDetect image ->
  api (vars w) = Some a ->
  TessModule (vars w) = Some m ->
  (forall tr, exists ptr, answer_value P tr (setImage (Some a) image VUndefined) = Returns ptr) ->
  (forall tr, exists r, answer_handle P tr OSResults_new = Returns r) ->
  (forall tr r, answer_bool P tr (api_DetectOS a r) = Returns false) ->
  exists w' evs msg,
    detect P p w = (Returns tt, w') /\
    trace w' = trace w ++ evs /\
    In (Invoke (api_End a)) evs /\
    responses evs = [(reject, DString msg)].
Proof.
  intros Hp Hapi Hmod Himg Hres Hdet. unfold detect. rewrite Hp.
  unfold try_catch, bind, get, call_value, invoke. simpl. rewrite Hapi.
  match goal with |- context [answer_value P ?tr (setImage _ _ _)] =>
    destruct (Himg tr) as [ptr Hptr]; rewrite Hptr end.
  unfold module_call, the_module, call_handle, invoke, bind, get. simpl.
  rewrite Hmod. simpl.
  match goal with |- context [answer_handle P ?tr OSResults_new] =>
    destruct (Hres tr) as [r Hr]; rewrite Hr end.
  unfold api_call, the_api, call_bool, call_unit, invoke, bind, get. simpl.
  rewrite Hapi. simpl. rewrite Hdet. simpl. rewrite Hapi. simpl.
  destruct (answer_unit P _ (api_End a)) as [[]|e]; simpl.
  - rewrite Hmod. simpl.
    destruct (answer_unit P _ (TessModule_free ptr)) as [[]|e]; simpl;
      unfold res, record; simpl; rewrite <- !app_assoc; simpl;
      (eexists _, _, _; split; [reflexivity|]); simpl;
      (split; [reflexivity|]); simpl; (split; [tauto | reflexivity]).
  - unfold res, record; simpl; rewrite <- !app_assoc; simpl.
    eexists _, _, _; split; [reflexivity|]. simpl.
    split; [reflexivity|]. simpl. split; [tauto | reflexivity].
Qed.

(** C9.  [detect] when the engine's OS detection returns [false] (and
    [End] and [_free] return): the handler ends the API instance, frees the
    image, and its one response is the [reject] with the message
    ["Failed to detect OS"]; there is no [resolve]. *)
Theorem detect_failure_ends_and_rejects
  (P : Platform) (p : packet) (image : jsval) (a m : handle) (w : world) :
  payload_of p = PDetect image ->
  api (vars w) = Some a ->
  TessModule (vars w) = Some m ->
  (forall tr, exists ptr, answer_value P tr (setImage (Some a) image VUndefined) = Returns ptr) ->
  (forall tr, exists r, answer_handle P tr OSResults_new = Returns r) ->
  (forall tr r, answer_bool P tr (api_DetectOS a r) = Returns false) ->
  (forall tr, answer_unit P tr (api_End a) = Returns tt) ->
  (forall tr ptr, answer_unit P tr (TessModule_free ptr) = Returns tt) ->
  exists w' r ptr,
    detect P p w = (Returns tt, w') /\
    trace w' =
      trace w ++ [ Invoke (setImage (Some a) image VUndefined);
                   Invoke OSResults_new;
                   Invoke (api_DetectOS a r);
                   Invoke (api_End a);
                   Invoke (TessModule_free ptr);
                   Sent p reject (DString "Failed to detect OS") ] /\
    responses (trace w') = responses (trace w) ++ [(reject, DString "Failed to detect OS")] /\
    forall d, ~ In (Sent p resolve d)
                [ Invoke (setImage (Some a) image VUndefined);
                  Invoke OSResults_new;
                  Invoke (api_DetectOS a r);
                  Invoke (api_End a);
                  Invoke (TessModule_free ptr);
                  Sent p reject (DString "Failed to detect OS") ].
Proof.
  intros Hp Hapi Hmod Himg Hres Hdet HEnd Hfree. unfold detect. rewrite Hp.
  unfold try_catch, bind, get, call_value, invoke. simpl. rewrite Hapi.
  match goal with |- context [answer_value P ?tr (setImage _ _ _)] =>
    destruct (Himg tr) as [ptr Hptr]; rewrite Hptr end.
  unfold module_call, the_module, call_handle, invoke, bind, get. simpl.
  rewrite Hmod. simpl.
  match goal with |- context [answer_handle P ?tr OSResults_new] =>
    destruct (Hres tr) as [r Hr]; rewrite Hr end.
  unfold api_call, the_api, call_bool, call_unit, invoke, bind, get. simpl.
  rewrite Hapi. simpl. rewrite Hdet. simpl. rewrite Hapi. simpl.
  rewrite HEnd. simpl. rewrite Hmod. simpl. rewrite Hfree. simpl.
  unfold res, record. simpl. rewrite <- !app_assoc. simpl.
  exists {| vars := vars w;
            trace := trace w ++ [ Invoke (setImage (Some a) image VUndefined);
                                  Invoke OSResults_new;
                                  Invoke (api_DetectOS a r);
                                  Invoke (api_End a);
                                  Invoke (TessModule_free ptr);
                                  Sent p reject (DString "Failed to detect OS") ] |}, r, ptr.
  split; [reflexivity|]. split; [reflexivity|]. simpl. split.
  - now rewrite responses_app.
  - intros d H. repeat (destruct H as [H|H]; [discriminate|]). exact H.
Qed.

(** ** Storing the bytes of a language *)

(** [loadAndGunzipFile] is its two blocks, one after the other: what
    [obtain_data] is fulfilled with is what [gunzip_and_store] is given. *)
Lemma loadAndGunzipFile_blocks (P : Platform) (rs : packet) (o : language_options)
  (_lang : lang_spec) (w : world) :
  loadAndGunzipFile P rs o _lang w =
  step_bind (obtain_data P rs o _lang w) (gunzip_and_store P rs o (lang_code _lang)).
Proof. reflexivity. Qed.

(** What the second block does with the bytes it is given, on a loaded
    module, up to where it hands control back. *)
Lemma gunzip_and_store_writes
  (P : Platform) (rs : packet) (o : language_options) (lang : string)
  (content : bytes) (m : handle) (w : world) :
  TessModule (vars w) = Some m ->
  exists evs,
    trace (world_of (gunzip_and_store P rs o lang content w)) = trace w ++ evs /\
    gunzipped evs = (if is_gzip (fileType P content) then [content] else []) /\
    written evs =
      (if is_gzip (fileType P content)
       then match answer_bytes P (trace w ++ [Invoke (adapter_gunzip content)])
                    (adapter_gunzip content) with
            | Returns unzipped => [(data_file o lang, unzipped)]
            | Throws _ => []
            end
       else [(data_file o lang, content)]) /\
    (is_gzip (fileType P content) = true ->
     forall path c, precedes (Invoke (adapter_gunzip content))
                      (Invoke (FS_writeFile path c)) evs).
Proof.
  intros Hmod. unfold gunzip_and_store, abind, lift, call_bytes, invoke. simpl.
  destruct (is_gzip (fileType P content)) eqn:Hgz; simpl.
  - destruct (answer_bytes P _ (adapter_gunzip content)) as [unzipped|e]; simpl.
    + unfold bind, get, when, try_catch, call_unit, invoke, res, record, ret; simpl.
      rewrite Hmod.
      destruct (truthy_path (dataPath o)); simpl;
        repeat match goal with
               | |- context [answer_unit P ?tr ?c] =>
                   destruct (answer_unit P tr c) as [[]|?]; simpl
               end;
        try match goal with
            | |- context [includes_or_undefined ?l ?x] =>
                destruct (includes_or_undefined l x); simpl
            end;
        unfold await, aret, record; simpl;
        rewrite <- ?app_assoc; simpl;
        (eexists; split; [reflexivity|]); simpl;
        (split; [reflexivity|]); (split; [reflexivity|]);
        intros _ path c;
        apply precedes_cons_first; discriminate.
    + eexists; split; [reflexivity|]. simpl. split; [reflexivity|].
      split; [reflexivity|]. intros _ path c.
      apply precedes_cons_first; discriminate.
  - unfold bind, get, when, try_catch, call_unit, invoke, res, record, ret; simpl.
    rewrite Hmod.
    destruct (truthy_path (dataPath o)); simpl;
      repeat match goal with
             | |- context [answer_unit P ?tr ?c] =>
                 destruct (answer_unit P tr c) as [[]|?]; simpl
             end;
      try match goal with
          | |- context [includes_or_undefined ?l ?x] =>
              destruct (includes_or_undefined l x); simpl
          end;
      unfold await, aret, record; simpl;
      rewrite <- ?app_assoc; simpl;
      (eexists; split; [reflexivity|]); simpl;
      (split; [reflexivity|]); (split; [reflexivity|]);
      discriminate.
Qed.

(** Once the first block is fulfilled, the second one runs on what it was
    fulfilled with. *)
Lemma runs_to_bind {A B} (s : step A) (f : A -> Async B) (a : A) (w : world) :
  runs_to s (Done (Returns a) w) -> runs_to (step_bind s f) (f a w).
Proof.
  intros H. remember (Done (Returns a) w) as s' eqn:E.
  induction H as [s|w0 k w' s' H IH]; subst.
  - simpl. apply runs_here.
  - simpl. apply runs_on with (w' := w'). now apply IH.
Qed.

(** C8.  A language load on a loaded module: whatever bytes
    [loadAndGunzipFile] obtained (from the cache, the network, a file or
    the spec itself), it goes on to sniff them, and whether [gunzip] is
    called is decided by that and by nothing else (not the options, the
    language, its source or the world).  Bytes sniffed as gzip are
    decompressed first, and what is written to the filesystem is what
    [gunzip] returned (nothing is written if it threw); other bytes are
    written as they are. *)
Theorem sniffed_gzip_is_decompressed_before_write
  (P : Platform) (rs : packet) (o : language_options) (_lang : lang_spec)
  (content : bytes) (m : handle) (w0 w : world) :
  runs_to (obtain_data P rs o _lang w0) (Done (Returns content) w) ->
  TessModule (vars w) = Some m ->
  runs_to (loadAndGunzipFile P rs o _lang w0)
    (gunzip_and_store P rs o (lang_code _lang) content w)
  /\ exists evs,
    trace (world_of (gunzip_and_store P rs o (lang_code _lang) content w)) = trace w ++ evs /\
    gunzipped evs = (if is_gzip (fileType P content) then [content] else []) /\
    written evs =
      (if is_gzip (fileType P content)
       then match answer_bytes P (trace w ++ [Invoke (adapter_gunzip content)])
                    (adapter_gunzip content) with
            | Returns unzipped => [(data_file o (lang_code _lang), unzipped)]
            | Throws _ => []
            end
       else [(data_file o (lang_code _lang), content)]) /\
    (is_gzip (fileType P content) = true ->
     forall path c, precedes (Invoke (adapter_gunzip content))
                      (Invoke (FS_writeFile path c)) evs).
Proof.
  intros Hrun Hmod. split.
  - rewrite loadAndGunzipFile_blocks. now apply runs_to_bind.
  - now apply (gunzip_and_store_writes P rs o (lang_code _lang) content m w).
Qed.

(** ** Runs of asynchronous functions *)

Section Obeys.

Variable Q : event -> Prop.

Lemma grows_refl (w : world) : grows Q w w.
Proof.
  split; [reflexivity|]. exists []. split; [now rewrite app_nil_r | constructor].
Qed.

Lemma grows_trans (w1 w2 w3 : world) :
  grows Q w1 w2 -> grows Q w2 w3 -> grows Q w1 w3.
Proof.
  intros [Hv1 [e1 [Ht1 Hq1]]] [Hv2 [e2 [Ht2 Hq2]]]. split; [congruence|].
  exists (e1 ++ e2). split.
  - now rewrite Ht2, Ht1, app_assoc.
  - apply Forall_app. now split.
Qed.

Lemma grows_event (w : world) (e : event) :
  Q e -> grows Q w {| vars := vars w; trace := trace w ++ [e] |}.
Proof.
  intros H. split; [reflexivity|]. exists [e]. split; [reflexivity|].
  constructor; [exact H | constructor].
Qed.

Lemma grows_world_of {A} (R : outcome A -> world -> Prop) (n : nat) (w : world) (s : step A) :
  obeys Q R n w s -> grows Q w (world_of s).
Proof. intros H. destruct H; assumption. Qed.

(** The run may be counted from an earlier world. *)
Lemma obeys_rebase {A} (R : outcome A -> world -> Prop) (n : nat) (w0 w : world) (s : step A) :
  grows Q w0 w -> obeys Q R n w s -> obeys Q R n w0 s.
Proof.
  intros Hg H. destruct H.
  - apply obeys_done; [eapply grows_trans; eassumption | assumption].
  - apply obeys_yield; [eapply grows_trans; eassumption | assumption].
Qed.

Lemma obeys_le {A} (R : outcome A -> world -> Prop) (n n' : nat) (w : world) (s : step A) :
  n <= n' -> obeys Q R n w s -> obeys Q R n' w s.
Proof.
  intros Hle H. revert n' Hle.
  induction H as [n w0 o w Hg HR | n w0 w k Hg Hk IH]; intros n' Hle.
  - now apply obeys_done.
  - destruct n' as [|n']; [lia|].
    apply obeys_yield; [assumption|]. intros w'. apply IH. lia.
Qed.

Lemma grows_mono (Q' : event -> Prop) (w w' : world) :
  (forall e, Q e -> Q' e) -> grows Q w w' -> grows Q' w w'.
Proof.
  intros Hsub [Hv [evs [Ht Hq]]]. split; [assumption|]. exists evs. split; [assumption|].
  eapply Forall_impl; eassumption.
Qed.

Lemma obeys_mono {A} (Q' : event -> Prop) (R : outcome A -> world -> Prop)
  (n : nat) (w : world) (s : step A) :
  (forall e, Q e -> Q' e) -> obeys Q R n w s -> obeys Q' R n w s.
Proof.
  intros Hsub H.
  induction H as [n w0 o w Hg HR | n w0 w k Hg Hk IH].
  - apply obeys_done; [eapply grows_mono; eassumption | assumption].
  - apply obeys_yield; [eapply grows_mono; eassumption | assumption].
Qed.

Lemma obeys_implies {A} (R R' : outcome A -> world -> Prop) (n : nat) (w : world) (s : step A) :
  (forall o w', R o w' -> R' o w') -> obeys Q R n w s -> obeys Q R' n w s.
Proof.
  intros Himp H.
  induction H as [n w0 o w Hg HR | n w0 w k Hg Hk IH].
  - apply obeys_done; auto.
  - apply obeys_yield; auto.
Qed.

(** [x <~ m ;; f x] *)
Lemma obeys_bind {A B} (R1 : outcome A -> world -> Prop) (R2 : outcome B -> world -> Prop)
  (n1 n2 : nat) (w0 : world) (s : step A) (f : A -> Async B) :
  obeys Q R1 n1 w0 s ->
  (forall a w, R1 (Returns a) w -> obeys Q R2 n2 w (f a w)) ->
  (forall e w, R1 (Throws e) w -> R2 (Throws e) w) ->
  obeys Q R2 (n1 + n2) w0 (step_bind s f).
Proof.
  intros H Hf He.
  induction H as [n w0 o w Hg HR | n w0 w k Hg Hk IH]; simpl.
  - destruct o as [a|e].
    + apply obeys_rebase with (w := w); [assumption|].
      apply obeys_le with (n := n2); [lia | auto].
    + apply obeys_done; auto.
  - apply obeys_yield; [assumption|]. intros w'. now apply IH.
Qed.

(** [try { body } catch (e) { handler e }] *)
Lemma obeys_catch {A} (R1 R2 : outcome A -> world -> Prop)
  (n1 n2 : nat) (w0 : world) (s : step A) (handler : exn -> Async A) :
  obeys Q R1 n1 w0 s ->
  (forall a w, R1 (Returns a) w -> R2 (Returns a) w) ->
  (forall e w, R1 (Throws e) w -> obeys Q R2 n2 w (handler e w)) ->
  obeys Q R2 (n1 + n2) w0 (step_catch s handler).
Proof.
  intros H Ha Hh.
  induction H as [n w0 o w Hg HR | n w0 w k Hg Hk IH]; simpl.
  - destruct o as [a|e].
    + apply obeys_done; auto.
    + apply obeys_rebase with (w := w); [assumption|].
      apply obeys_le with (n := n2); [lia | auto].
  - apply obeys_yield; [assumption|]. intros w'. now apply IH.
Qed.

Lemma obeys_lift {A} (R : outcome A -> world -> Prop) (n : nat) (w : world) (m : M A) :
  satisfies Q R w m -> obeys Q R n w (lift m w).
Proof.
  unfold satisfies, lift. destruct (m w) as [o w']. simpl. intros [Hg HR].
  now apply obeys_done.
Qed.

Lemma obeys_aret {A} (R : outcome A -> world -> Prop) (n : nat) (w : world) (a : A) :
  R (Returns a) w -> obeys Q R n w (aret a w).
Proof. intros H. apply obeys_done; [apply grows_refl | exact H]. Qed.

Lemma obeys_athrow {A} (R : outcome A -> world -> Prop) (n : nat) (w : world) (e : exn) :
  R (Throws e) w -> obeys Q R n w (athrow e w).
Proof. intros H. apply obeys_done; [apply grows_refl | exact H]. Qed.

(** [await f(...)]: one suspension; the answer is whatever the platform
    gives when the promise settles. *)
Lemma obeys_await {T} (R : outcome T -> world -> Prop) (n : nat) (w : world)
  (answer : history -> ext -> outcome T) (c : ext) :
  Q (Invoke c) -> Q (Settle c) ->
  (forall w', R (answer (trace w' ++ [Settle c]) c)
                {| vars := vars w'; trace := trace w' ++ [Settle c] |}) ->
  obeys Q R (S n) w (await answer c w).
Proof.
  intros Hi Hs HR. unfold await, record. apply obeys_yield.
  - now apply grows_event.
  - intros w'. unfold lift, settle. apply obeys_done; [now apply grows_event | apply HR].
Qed.

Lemma obeys_await_resolved {T} (R : outcome T -> world -> Prop) (n : nat) (w : world) (v : T) :
  (forall w', R (Returns v) w') ->
  obeys Q R (S n) w (await_resolved v w).
Proof.
  intros HR. unfold await_resolved. apply obeys_yield; [apply grows_refl|].
  intros w'. apply obeys_aret, HR.
Qed.

(** Synchronous pieces. *)

Lemma satisfies_ret {A} (R : outcome A -> world -> Prop) (w : world) (a : A) :
  R (Returns a) w -> satisfies Q R w (ret a).
Proof. intros H. split; [apply grows_refl | exact H]. Qed.

Lemma satisfies_bind {A B} (R1 : outcome A -> world -> Prop) (R2 : outcome B -> world -> Prop)
  (w : world) (m : M A) (f : A -> M B) :
  satisfies Q R1 w m ->
  (forall a w', R1 (Returns a) w' -> satisfies Q R2 w' (f a)) ->
  (forall e w', R1 (Throws e) w' -> R2 (Throws e) w') ->
  satisfies Q R2 w (bind m f).
Proof.
  unfold satisfies, bind. destruct (m w) as [[a|e] w1]; simpl; intros [Hg HR] Hf He.
  - destruct (Hf a w1 HR) as [Hg2 HR2]. split; [eapply grows_trans; eassumption | assumption].
  - split; auto.
Qed.

Lemma satisfies_try_catch {A} (R1 R2 : outcome A -> world -> Prop)
  (w : world) (m : M A) (handler : exn -> M A) :
  satisfies Q R1 w m ->
  (forall a w', R1 (Returns a) w' -> R2 (Returns a) w') ->
  (forall e w', R1 (Throws e) w' -> satisfies Q R2 w' (handler e)) ->
  satisfies Q R2 w (try_catch m handler).
Proof.
  unfold satisfies, try_catch. destruct (m w) as [[a|e] w1]; simpl; intros [Hg HR] Ha Hh.
  - split; auto.
  - destruct (Hh e w1 HR) as [Hg2 HR2]. split; [eapply grows_trans; eassumption | assumption].
Qed.

Lemma satisfies_invoke {T} (R : outcome T -> world -> Prop) (w : world)
  (answer : history -> ext -> outcome T) (c : ext) :
  Q (Invoke c) ->
  R (answer (trace w ++ [Invoke c]) c) {| vars := vars w; trace := trace w ++ [Invoke c] |} ->
  satisfies Q R w (invoke answer c).
Proof. intros Hq HR. split; [now apply grows_event | exact HR]. Qed.

Lemma satisfies_res (R : outcome unit -> world -> Prop) (w : world)
  (p : packet) (st : status) (d : data) :
  Q (Sent p st d) ->
  R (Returns tt) {| vars := vars w; trace := trace w ++ [Sent p st d] |} ->
  satisfies Q R w (res p st d).
Proof. intros Hq HR. split; [now apply grows_event | exact HR]. Qed.

End Obeys.

(** ** One language load *)

Section OneLoad.

Variable P : Platform.
Variable rs : packet.
Variable o : language_options.
Variable _lang : lang_spec.

Let Q := load_event P rs o _lang.

Ltac grows_tac :=
  split; [reflexivity|];
  eexists; split; [simpl; rewrite <- ?app_assoc; reflexivity|];
  repeat (apply Forall_cons || apply Forall_nil);
  solve [ econstructor; eassumption | econstructor; reflexivity ].

Lemma obtain_data_obeys (w : world) :
  obeys Q (fulfils P o) 3 w (obtain_data P rs o _lang w).
Proof.
  unfold obtain_data, acatch, from_cache, from_source.
  apply (obeys_catch Q (fun _ _ => True) (fulfils P o) 1 2).
  - (* the cache: switched off it answers [undefined] *)
    unfold abind.
    apply (obeys_bind Q
             (fun out _ => includes ["refresh"; "none"] (cacheMethod o) = true ->
                           out = Returns None)
             (fun _ _ => True) 1 0); [| |trivial].
    + destruct (includes ["refresh"; "none"] (cacheMethod o)) eqn:Hc.
      * apply obeys_await_resolved. trivial.
      * apply obeys_await; [now constructor | now constructor | discriminate].
    + intros [d|] w1 Hoff.
      * destruct (includes ["refresh"; "none"] (cacheMethod o)) eqn:Hc.
        { specialize (Hoff eq_refl). discriminate. }
        unfold lift, res, record. simpl.
        apply obeys_done; [grows_tac | trivial].
      * apply obeys_athrow. trivial.
  - intros a w1 _ _. eauto.
  - (* the source *)
    intros e w1 _. destruct _lang as [code|code d] eqn:Hl.
    + destruct (is_remote P (langPath o)) eqn:Hr.
      * unfold abind.
        apply (obeys_bind Q (fun out _ => cooperative P o -> exists r, out = Returns r)
                 (fulfils P o) 1 1).
        -- apply obeys_await.
           ++ apply (fetch_invoked P rs o _ code); [reflexivity | assumption].
           ++ apply (fetch_settled P rs o _ code); [reflexivity | assumption].
           ++ intros w' [Hh _]. apply Hh.
        -- intros resp w2 _. apply obeys_await.
           ++ apply (body_invoked P rs o _ code); [reflexivity | assumption].
           ++ apply (body_settled P rs o _ code); [reflexivity | assumption].
           ++ intros w' [_ [Hb _]]. apply Hb.
        -- intros e' w2 H Hco. destruct (H Hco) as [r Hr']. discriminate.
      * unfold abind.
        apply (obeys_bind Q (fun out _ => cooperative P o -> exists r, out = Returns r)
                 (fulfils P o) 1 1).
        -- apply obeys_await.
           ++ apply (file_read_invoked P rs o _ code); [reflexivity | assumption].
           ++ apply (file_read_settled P rs o _ code); [reflexivity | assumption].
           ++ intros w' [_ [_ [Hf _]]]. apply Hf.
        -- intros d w2 _. apply obeys_aret. intros _. eauto.
        -- intros e' w2 H Hco. destruct (H Hco) as [r Hr']. discriminate.
    + apply obeys_aret. intros _. eauto.
Qed.

Lemma gunzip_and_store_obeys (content : bytes) (w : world) :
  obeys Q (fulfils P o) 1 w (gunzip_and_store P rs o (lang_code _lang) content w).
Proof.
  unfold gunzip_and_store, abind.
  apply (obeys_bind Q (fulfils P o) (fulfils P o) 0 1).
  - (* sniffing, and [gunzip] *)
    apply obeys_lift. destruct (is_gzip (fileType P content)) eqn:Hgz.
    + apply satisfies_invoke; [now constructor|].
      intros [_ [Hb _]]. apply Hb.
    + apply satisfies_ret. intros _. eauto.
  - intros unzipped w1 _.
    apply (obeys_bind Q (fun out _ => cooperative P o -> out = Returns tt)
             (fulfils P o) 0 1).
    + (* the engine's filesystem *)
      apply obeys_lift. unfold satisfies, bind, get. simpl.
      destruct (TessModule (vars w1)) as [m|].
      * unfold when, try_catch, call_unit, invoke, res, record, ret, bind.
        destruct (truthy_path (dataPath o)) eqn:Hd; simpl.
        -- destruct (answer_unit P _ (FS_mkdir _)) as [[]|err]; simpl;
             (split; [grows_tac|]); intros [_ [_ [_ [Hw _]]]];
             rewrite Hw; reflexivity.
        -- split; [grows_tac|]. intros [_ [_ [_ [Hw _]]]]. rewrite Hw. reflexivity.
      * split; [apply grows_refl | reflexivity].
    + intros [] w2 _.
      apply (obeys_bind Q (fun out _ => cooperative P o -> out = Returns tt)
               (fulfils P o) 1 0).
      * destruct (includes_or_undefined ["write"; "refresh"] (cacheMethod o)) eqn:Hc.
        -- apply obeys_await; [now constructor | now constructor |].
           intros w' [_ [_ [_ [_ Hw]]]]. apply Hw.
        -- apply obeys_aret. reflexivity.
      * intros [] w3 _. apply obeys_aret. intros _. eauto.
      * intros e w3 H Hco. specialize (H Hco). discriminate.
    + intros e w2 H Hco. specialize (H Hco). discriminate.
  - intros e w1 H. exact H.
Qed.

(** A language load adds only its own events, is suspended at most four
    times, and on a cooperative platform is fulfilled. *)
Lemma loadAndGunzipFile_obeys (w : world) :
  obeys Q (fulfils P o) 4 w (loadAndGunzipFile P rs o _lang w).
Proof.
  unfold loadAndGunzipFile, abind.
  apply (obeys_bind Q (fulfils P o) (fulfils P o) 3 1).
  - apply obtain_data_obeys.
  - intros content w1 _. apply gunzip_and_store_obeys.
  - intros e w1 H. exact H.
Qed.

End OneLoad.

(** ** The event loop on a language job *)

Section ListFacts.

Context {A B : Type}.

Lemma Forall2_nth_error (R : A -> B -> Prop) (l1 : list A) (l2 : list B) (i : nat) (y : B) :
  Forall2 R l1 l2 -> nth_error l2 i = Some y ->
  exists x, nth_error l1 i = Some x /\ R x y.
Proof.
  intros H. revert i. induction H as [|x0 y0 l1 l2 Hxy H IH]; intros [|i]; simpl;
    try discriminate.
  - intros E. inversion E; subst. eauto.
  - apply IH.
Qed.

Lemma Forall2_replace_nth (R : A -> B -> Prop) (l1 : list A) (l2 : list B) (i : nat)
  (x : A) (y : B) :
  Forall2 R l1 l2 -> R x y -> Forall2 R (replace_nth i x l1) (replace_nth i y l2).
Proof.
  intros H Hxy. revert i. induction H as [|x0 y0 l1 l2 H0 H IH]; intros [|i]; simpl;
    constructor; auto.
Qed.

Lemma Forall_replace_nth (Pr : A -> Prop) (l : list A) (i : nat) (x : A) :
  Forall Pr l -> Pr x -> Forall Pr (replace_nth i x l).
Proof.
  intros H Hx. revert i. induction H as [|x0 l H0 H IH]; intros [|i]; simpl;
    constructor; auto.
Qed.

End ListFacts.

Lemma pending_turns_replace {A} (ns : list nat) (ps : list (promise A)) (i n n' : nat)
  (p p' : promise A) :
  nth_error ns i = Some n -> nth_error ps i = Some p ->
  pending_turns (replace_nth i n' ns) (replace_nth i p' ps)
    + (if is_pending p then n else 0)
  = pending_turns ns ps + (if is_pending p' then n' else 0).
Proof.
  revert ps i. induction ns as [|n0 ns IH]; intros [|p0 ps] [|i]; simpl; try discriminate.
  - intros E1 E2. inversion E1; inversion E2; subst. lia.
  - intros E1 E2. specialize (IH ps i E1 E2). lia.
Qed.

Lemma in_pending_from {A} (b : nat) (ps : list (promise A)) (t : turn) :
  In t (pending_from b ps) ->
  exists i k, t = Resume (b + i) /\ nth_error ps i = Some (Pending k).
Proof.
  revert b. induction ps as [|p ps IH]; simpl; intros b H; [contradiction|].
  apply in_app_or in H. destruct H as [H|H].
  - destruct p as [k| |]; simpl in H; try contradiction.
    destruct H as [<-|[]]. exists 0, k. split; [f_equal; lia | reflexivity].
  - destruct (IH (S b) H) as [i [k [-> Hn]]]. exists (S i), k.
    split; [f_equal; lia | exact Hn].
Qed.

Lemma pending_from_nil {A} (b : nat) (ps : list (promise A)) :
  forallb (fun p => negb (is_pending p)) ps = true -> pending_from b ps = [].
Proof.
  revert b. induction ps as [|p ps IH]; simpl; intros b H; [reflexivity|].
  apply andb_true_iff in H. destruct H as [Hp Hps].
  rewrite IH by assumption. destruct p; simpl in *; [discriminate | reflexivity..].
Qed.

(** What the schedule picks can be taken. *)
Lemma picked_enabled (c : nat) (t0 : turn) (ts : list turn) :
  In (nth (c mod length (t0 :: ts)) (t0 :: ts) t0) (t0 :: ts).
Proof.
  apply nth_In. apply Nat.mod_upper_bound. simpl. lia.
Qed.

Lemma in_enabled (j : language_job) (t : turn) :
  In t (enabled j) ->
  (exists i k, t = Resume i /\ nth_error (loads j) i = Some (Pending k))
  \/ (t = Continue /\ all_settled j && negb (continued j) = true).
Proof.
  unfold enabled. intros H. apply in_app_or in H. destruct H as [H|H].
  - left. destruct (in_pending_from 0 (loads j) t H) as [i [k [-> Hn]]]. eauto.
  - right. destruct (all_settled j && negb (continued j)); simpl in H; [|contradiction].
    destruct H as [<-|[]]. auto.
Qed.

Section Job.

Variable P : Platform.
Variable p : packet.
Variable langs : langs_arg.
Variable o : language_options.

Let Q := job_event P p langs o.
Let R := fulfils P o.

Lemma promise_of_obeys (n : nat) (w : world) (s : step bytes) :
  obeys Q R n w s ->
  grows Q w (snd (promise_of s)) /\ promise_obeys Q R n (fst (promise_of s)).
Proof.
  intros H. destruct H as [n w0 [a|e] w Hg HR | n w0 w k Hg Hk]; simpl;
    (split; [assumption|]); eauto.
Qed.

Lemma load_obeys (_lang : lang_spec) (w : world) :
  In _lang (lang_specs langs) ->
  obeys Q R 4 w (loadAndGunzipFile P p o _lang w).
Proof.
  intros Hin. apply obeys_mono with (Q := load_event P p o _lang).
  - intros e He. now apply of_load with (_lang := _lang).
  - apply loadAndGunzipFile_obeys.
Qed.

Lemma start_all_obeys (specs : list lang_spec) (w : world) :
  (forall l, In l specs -> In l (lang_specs langs)) ->
  grows Q w (snd (start_all (loadAndGunzipFile P p o) specs w)) /\
  Forall2 (promise_obeys Q R) (repeat 4 (length specs))
    (fst (start_all (loadAndGunzipFile P p o) specs w)).
Proof.
  revert w. induction specs as [|l specs IH]; intros w Hin; simpl.
  - split; [apply grows_refl | constructor].
  - unfold start.
    destruct (promise_of_obeys 4 w (loadAndGunzipFile P p o l w)) as [Hg Hp].
    { apply load_obeys, Hin. now left. }
    destruct (promise_of (loadAndGunzipFile P p o l w)) as [pr w1]. simpl in Hg, Hp.
    destruct (IH w1) as [Hg2 Hps]; [intros l' Hl'; apply Hin; now right|].
    destruct (start_all (loadAndGunzipFile P p o) specs w1) as [ps w2]. simpl in *.
    split; [eapply grows_trans; eassumption | constructor; assumption].
Qed.

Lemma first_rejection_None {A} (ps : list (promise A)) :
  first_rejection ps = None -> Forall (fun pr => rejection pr = None) ps.
Proof.
  induction ps as [|pr ps IH]; simpl; [constructor|].
  destruct (rejection pr) eqn:E; [discriminate|]. intros H. constructor; auto.
Qed.

Lemma first_rejection_Some {A} (ps : list (promise A)) (e : exn) :
  first_rejection ps = Some e -> In (Rejected e) ps.
Proof.
  induction ps as [|pr ps IH]; simpl; [discriminate|].
  destruct pr as [k|a|e']; simpl; auto.
  intros E. inversion E; subst. now left.
Qed.

Lemma Forall2_In_r {A B} (Rel : A -> B -> Prop) (l1 : list A) (l2 : list B) (y : B) :
  Forall2 Rel l1 l2 -> In y l2 -> exists x, Rel x y.
Proof.
  intros H. induction H as [|x0 y0 l1 l2 H0 H IH]; simpl; [contradiction|].
  intros [<-|Hin]; eauto.
Qed.

(** [loadLanguage], as it returns to the dispatcher. *)
Lemma loadLanguage_inv (w : world) :
  grows Q w (snd (loadLanguage P p langs o w)) /\
  job_inv Q R (repeat 4 (length (lang_specs langs))) (fst (loadLanguage P p langs o w)) /\
  job_packet (fst (loadLanguage P p langs o w)) = p /\
  job_langs (fst (loadLanguage P p langs o w)) = langs /\
  continued (fst (loadLanguage P p langs o w)) = false.
Proof.
  unfold loadLanguage, res, record.
  match goal with |- context [start_all _ _ ?w1] =>
    destruct (start_all_obeys (lang_specs langs) w1 (fun l H => H)) as [Hg Hps];
    destruct (start_all (loadAndGunzipFile P p o) (lang_specs langs) w1) as [ps w2]
  end.
  simpl in *. split.
  - eapply grows_trans; [|exact Hg]. apply grows_event. constructor.
  - split; [|auto]. constructor; simpl.
    + exact Hps.
    + apply first_rejection_None.
    + intros e He. apply first_rejection_Some in He.
      destruct (Forall2_In_r _ _ _ _ Hps He) as [n Hn]. exact Hn.
Qed.

Lemma continue_grows (j : language_job) (w : world) :
  job_packet j = p -> job_langs j = langs ->
  grows Q w (snd (loadLanguage_continue P j w)).
Proof.
  intros Hp Hl. unfold loadLanguage_continue. rewrite Hp, Hl.
  destruct (all_rejection j) as [err|].
  - destruct (isWebWorker P && isDOMException err); simpl.
    + apply grows_refl.
    + apply grows_event. constructor.
  - unfold bind, res, record. simpl.
    apply grows_trans with
      (w2 := {| vars := vars w;
                trace := trace w ++
                  [Sent p progress
                     (DProgress (workerId p) None "loaded language traineddata" 1)] |}).
    + apply grows_event. constructor.
    + apply (grows_event Q
               {| vars := vars w;
                  trace := trace w ++
                    [Sent p progress
                       (DProgress (workerId p) None "loaded language traineddata" 1)] |}).
      constructor.
Qed.

(** A turn that can be taken adds only events of the job, keeps what holds
    of the job, and brings the end nearer. *)
Lemma take_turn_inv (ns : list nat) (j : language_job) (w : world) (t : turn) :
  job_inv Q R ns j -> job_packet j = p -> job_langs j = langs ->
  In t (enabled j) ->
  grows Q w (snd (take_turn P t j w)) /\
  job_packet (fst (take_turn P t j w)) = p /\
  job_langs (fst (take_turn P t j w)) = langs /\
  exists ns', job_inv Q R ns' (fst (take_turn P t j w)) /\
              S (turns_left ns' (fst (take_turn P t j w))) <= turns_left ns j.
Proof.
  intros [Hloads Hnone Hsome] Hp Hl Hen.
  apply in_enabled in Hen. destruct Hen as [[i [k [-> Hi]]]|[-> Hset]].
  - (* a load is resumed *)
    simpl. rewrite Hi.
    destruct (Forall2_nth_error _ _ _ _ _ Hloads Hi) as [n [Hn [m [-> Hk]]]].
    destruct (promise_of_obeys m w (k w) (Hk w)) as [Hg Hpr].
    destruct (promise_of (k w)) as [pr w']. simpl in *.
    split; [exact Hg|]. split; [exact Hp|]. split; [exact Hl|].
    exists (replace_nth i m ns). split.
    + constructor; simpl.
      * now apply Forall2_replace_nth.
      * intros Hnone'. destruct (all_rejection j) as [e|]; [discriminate|].
        apply Forall_replace_nth; auto.
      * intros e He. destruct (all_rejection j) as [e0|] eqn:E.
        -- inversion He; subst. now apply Hsome.
        -- destruct pr as [k'|a|e']; simpl in He; try discriminate.
           inversion He; subst. exact Hpr.
    + unfold turns_left. simpl.
      pose proof (pending_turns_replace ns (loads j) i (S m) m (Pending k) pr Hn Hi) as E.
      simpl in E. destruct (is_pending pr), (continued j); lia.
  - (* [loadLanguage] itself *)
    simpl. rewrite Hset.
    pose proof (continue_grows j w Hp Hl) as Hg.
    destruct (loadLanguage_continue P j w) as [out w']. simpl in *.
    split; [exact Hg|]. split; [exact Hp|]. split; [exact Hl|].
    exists ns. split.
    + constructor; simpl; assumption.
    + unfold turns_left. simpl.
      apply andb_true_iff in Hset. destruct Hset as [_ Hc].
      apply negb_true_iff in Hc. rewrite Hc. lia.
Qed.

(** With no turns left there is nothing to do. *)
Lemma turns_left_0 (ns : list nat) (j : language_job) :
  job_inv Q R ns j -> turns_left ns j = 0 -> enabled j = [].
Proof.
  intros [Hloads _ _] H0. unfold turns_left in H0. unfold enabled.
  destruct (continued j); [|lia].
  rewrite andb_false_r. rewrite app_nil_r.
  apply pending_from_nil.
  assert (Hp : pending_turns ns (loads j) = 0) by lia. clear H0.
  induction Hloads as [|n pr ns' ps Hn Hrest IH]; simpl in *; [reflexivity|].
  destruct pr as [k|a|e]; simpl in *.
  - destruct Hn as [m [-> _]]. lia.
  - apply IH. lia.
  - apply IH. lia.
Qed.

Lemma event_loop_cons (c : nat) (rest : list nat) (j : language_job) (w : world) :
  event_loop P (c :: rest) j w =
  match enabled j with
  | [] => (j, w)
  | t0 :: ts =>
      event_loop P rest
        (fst (take_turn P (nth (c mod length (t0 :: ts)) (t0 :: ts) t0) j w))
        (snd (take_turn P (nth (c mod length (t0 :: ts)) (t0 :: ts) t0) j w))
  end.
Proof.
  simpl. destruct (enabled j) as [|t0 ts]; [reflexivity|].
  now destruct (take_turn P _ j w).
Qed.

(** The event loop on the job: only events of the job, and a schedule as
    long as the turns left brings it to rest. *)
Lemma event_loop_inv (schedule : list nat) (ns : list nat) (j : language_job) (w : world) :
  job_inv Q R ns j -> job_packet j = p -> job_langs j = langs ->
  grows Q w (snd (event_loop P schedule j w)) /\
  job_packet (fst (event_loop P schedule j w)) = p /\
  job_langs (fst (event_loop P schedule j w)) = langs /\
  exists ns', job_inv Q R ns' (fst (event_loop P schedule j w)) /\
              (turns_left ns j <= length schedule ->
               quiescent (fst (event_loop P schedule j w))).
Proof.
  revert ns j w. induction schedule as [|c rest IH]; intros ns j w Hinv Hp Hl.
  - simpl. split; [apply grows_refl|]. split; [exact Hp|]. split; [exact Hl|].
    exists ns. split; [exact Hinv|]. intros Hle. simpl in Hle.
    apply (turns_left_0 ns); [exact Hinv | lia].
  - rewrite event_loop_cons. destruct (enabled j) as [|t0 ts] eqn:Hen.
    + simpl. split; [apply grows_refl|]. split; [exact Hp|]. split; [exact Hl|].
      exists ns. split; [exact Hinv|]. intros _. exact Hen.
    + assert (Hin : In (nth (c mod length (t0 :: ts)) (t0 :: ts) t0) (enabled j))
        by (rewrite Hen; apply picked_enabled).
      generalize dependent (nth (c mod length (t0 :: ts)) (t0 :: ts) t0).
      intros t Hin.
      destruct (take_turn_inv ns j w t Hinv Hp Hl Hin)
        as [Hg [Hp1 [Hl1 [ns1 [Hinv1 Hless]]]]].
      destruct (IH ns1 _ (snd (take_turn P t j w)) Hinv1 Hp1 Hl1)
        as [Hg2 [Hp2 [Hl2 [ns2 [Hinv2 Hq]]]]].
      split; [eapply grows_trans; eassumption|]. split; [exact Hp2|].
      split; [exact Hl2|]. exists ns2. split; [exact Hinv2|].
      intros Hle. apply Hq. simpl in Hle. lia.
Qed.

End Job.

(** ** A [loadLanguage] packet, from dispatch to rest *)

Section LoadLanguagePacket.

Variable P : Platform.
Variable p : packet.
Variable langs : langs_arg.
Variable o : language_options.

Hypothesis Haction : action p = "loadLanguage".
Hypothesis Hpayload : payload_of p = PLoadLanguage langs o.

Lemma dispatch_loadLanguage (w : world) :
  dispatchHandlers P p w =
  (Returns (Loading (fst (loadLanguage P p langs o (attend p w)))),
   snd (loadLanguage P p langs o (attend p w))).
Proof.
  unfold dispatchHandlers, bind, try_catch, set_latestJob, get, put. simpl.
  rewrite Haction. simpl. rewrite Hpayload. fold (attend p w).
  now destruct (loadLanguage P p langs o (attend p w)).
Qed.

Lemma worker_loadLanguage (schedule : list nat) (w : world) :
  worker P schedule p w =
  (Loading (fst (event_loop P schedule (fst (loadLanguage P p langs o (attend p w)))
                   (snd (loadLanguage P p langs o (attend p w))))),
   snd (event_loop P schedule (fst (loadLanguage P p langs o (attend p w)))
          (snd (loadLanguage P p langs o (attend p w))))).
Proof.
  unfold worker. rewrite dispatch_loadLanguage. simpl.
  now destruct (event_loop P schedule _ _).
Qed.

(** Whatever the platform answers and whatever the schedule, the worker
    adds only events of the job to the trace; and a schedule of four turns
    for each language and one more brings the job to rest. *)
Lemma loadLanguage_events (schedule : list nat) (w : world) :
  exists j evs,
    fst (worker P schedule p w) = Loading j /\
    trace (snd (worker P schedule p w)) = trace w ++ evs /\
    Forall (job_event P p langs o) evs /\
    job_packet j = p /\ job_langs j = langs /\
    (exists ns, job_inv (job_event P p langs o) (fulfils P o) ns j) /\
    (4 * length (lang_specs langs) + 1 <= length schedule -> quiescent j).
Proof.
  rewrite worker_loadLanguage. simpl.
  destruct (loadLanguage_inv P p langs o (attend p w)) as [Hg [Hinv [Hp [Hl Hc]]]].
  destruct (event_loop_inv P p langs o schedule _ _
              (snd (loadLanguage P p langs o (attend p w))) Hinv Hp Hl)
    as [Hg2 [Hp2 [Hl2 [ns2 [Hinv2 Hq]]]]].
  destruct (grows_trans _ _ _ _ Hg Hg2) as [_ [evs [Ht Hq']]].
  eexists _, evs. split; [reflexivity|]. split; [exact Ht|]. split; [exact Hq'|].
  split; [exact Hp2|]. split; [exact Hl2|]. split; [eauto|].
  intros Hle. apply Hq. unfold turns_left. rewrite Hc.
  assert (Hb : forall (ps : list (promise bytes)) n,
             pending_turns (repeat 4 n) ps <= 4 * n).
  { intros ps n. revert ps. induction n as [|n IH]; intros [|pr ps]; simpl; try lia.
    specialize (IH ps). destruct (is_pending pr); lia. }
  specialize (Hb (loads (fst (loadLanguage P p langs o (attend p w))))
                 (length (lang_specs langs))). lia.
Qed.

End LoadLanguagePacket.

(** ** How a language job ends *)

Section JobEnd.

Variable P : Platform.

Lemma take_turn_fields (t : turn) (j : language_job) (w : world) :
  job_packet (fst (take_turn P t j w)) = job_packet j /\
  job_langs (fst (take_turn P t j w)) = job_langs j /\
  (forall e, all_rejection j = Some e ->
             all_rejection (fst (take_turn P t j w)) = Some e).
Proof.
  destruct t as [i|]; simpl.
  - destruct (nth_error (loads j) i) as [[k|a|e]|]; simpl; auto.
    destruct (promise_of (k w)) as [pr w']. simpl.
    split; [reflexivity|]. split; [reflexivity|]. intros e He. now rewrite He.
  - destruct (all_settled j && negb (continued j)); simpl; auto.
    destruct (loadLanguage_continue P j w). simpl. auto.
Qed.

Lemma event_loop_rejection (schedule : list nat) (j : language_job) (w : world) (e : exn) :
  all_rejection j = Some e ->
  all_rejection (fst (event_loop P schedule j w)) = Some e.
Proof.
  revert j w. induction schedule as [|c rest IH]; intros j w He; [exact He|].
  rewrite event_loop_cons. destruct (enabled j) as [|t0 ts]; [exact He|].
  apply IH. now apply take_turn_fields.
Qed.

Lemma event_loop_at_rest (schedule : list nat) (j : language_job) (w : world) :
  quiescent j -> event_loop P schedule j w = (j, w).
Proof.
  intros Hq. destruct schedule as [|c rest]; [reflexivity|].
  rewrite event_loop_cons. unfold quiescent in Hq. now rewrite Hq.
Qed.

Lemma fulfilled_not_pending {A} (ps : list (promise A)) :
  forallb is_fulfilled ps = true ->
  forallb (fun pr => negb (is_pending pr)) ps = true.
Proof.
  induction ps as [|pr ps IH]; simpl; [reflexivity|].
  intros H. apply andb_true_iff in H. destruct H as [H1 H2].
  rewrite IH by assumption. now destruct pr.
Qed.

(** If the job ends resumed and not rejected, the last two things it put
    on the trace are the final [progress] and the [resolve] with [langs]. *)
Lemma event_loop_resolved (p : packet) (langs : langs_arg) (o : language_options)
  (schedule : list nat) (ns : list nat) (j : language_job) (w : world) :
  job_inv (job_event P p langs o) (fulfils P o) ns j ->
  job_packet j = p -> job_langs j = langs ->
  continued j = false ->
  continued (fst (event_loop P schedule j w)) = true ->
  all_rejection (fst (event_loop P schedule j w)) = None ->
  exists before,
    trace (snd (event_loop P schedule j w)) =
      trace w ++ before
        ++ [ Sent p progress (DProgress (workerId p) None "loaded language traineddata" 1);
             Sent p resolve (DLangs langs) ].
Proof.
  revert ns j w. induction schedule as [|c rest IH]; intros ns j w Hinv Hp Hl Hc Hend Hnone.
  - simpl in Hend. congruence.
  - rewrite event_loop_cons in *. destruct (enabled j) as [|t0 ts] eqn:Hen.
    + simpl in Hend. congruence.
    + assert (Hin : In (nth (c mod length (t0 :: ts)) (t0 :: ts) t0) (enabled j))
        by (rewrite Hen; apply picked_enabled).
      generalize dependent (nth (c mod length (t0 :: ts)) (t0 :: ts) t0).
      intros t Hend Hnone Hin.
      destruct (take_turn_fields t j w) as [_ [_ Hsticky]].
      destruct (take_turn_inv P p langs o ns j w t Hinv Hp Hl Hin)
        as [[_ [evs1 [Ht1 _]]] [Hp1 [Hl1 [ns1 [Hinv1 _]]]]].
      apply in_enabled in Hin. destruct Hin as [[i [k [-> Hi]]]|[-> Hset]].
      * destruct (IH ns1 _ (snd (take_turn P (Resume i) j w)) Hinv1 Hp1 Hl1)
          as [before Hb]; [|assumption..|].
        { simpl. rewrite Hi. now destruct (promise_of (k w)). }
        exists (evs1 ++ before). rewrite Hb, Ht1. now rewrite <- !app_assoc.
      * destruct (all_rejection j) as [e|] eqn:Hrej.
        { rewrite (event_loop_rejection rest _ _ e) in Hnone by auto. discriminate. }
        clear Hend Hnone Ht1. simpl. rewrite Hset.
        unfold loadLanguage_continue. rewrite Hrej, Hp, Hl.
        unfold bind, res, record. simpl.
        rewrite event_loop_at_rest.
        -- simpl. exists []. now rewrite <- app_assoc.
        -- unfold quiescent, enabled, all_settled. simpl.
           rewrite andb_false_r, app_nil_r. apply pending_from_nil.
           apply fulfilled_not_pending.
           unfold all_settled in Hset. rewrite Hrej in Hset.
           now apply andb_true_iff in Hset.
Qed.

End JobEnd.

Lemma at_rest_all_fulfilled {A} (b : nat) (ps : list (promise A)) :
  pending_from b ps = [] ->
  Forall (fun pr => rejection pr = None) ps ->
  forallb is_fulfilled ps = true.
Proof.
  revert b. induction ps as [|pr ps IH]; simpl; intros b Hp Hr; [reflexivity|].
  inversion Hr as [|? ? Hr1 Hr2]; subst.
  apply app_eq_nil in Hp. destruct Hp as [Hp1 Hp2].
  destruct pr as [k|a|e]; simpl in *; try discriminate.
  eapply IH; eassumption.
Qed.

(** On a cooperative platform, with a schedule of four turns for each
    language and one more, the call comes to rest with every load
    fulfilled, and the last two things on the trace are the final
    [progress] and the [resolve] with [langs]. *)
Lemma loadLanguage_resolves (P : Platform) (p : packet) (langs : langs_arg)
  (o : language_options) (schedule : list nat) (w : world) :
  action p = "loadLanguage" ->
  payload_of p = PLoadLanguage langs o ->
  cooperative P o ->
  4 * length (lang_specs langs) + 1 <= length schedule ->
  exists before,
    trace (snd (worker P schedule p w)) =
      trace w ++ before
        ++ [ Sent p progress
               (DProgress (workerId p) None "loaded language traineddata" 1);
             Sent p resolve (DLangs langs) ].
Proof.
  intros Ha Hpl Hco Hlen.
  destruct (loadLanguage_events P p langs o Ha Hpl schedule w)
    as [j [evs [Hj [_ [_ [_ [_ [[ns Hinv] Hq]]]]]]]].
  specialize (Hq Hlen).
  rewrite (worker_loadLanguage P p langs o Ha Hpl) in Hj |- *. simpl in Hj |- *.
  inversion Hj as [Hj']. clear Hj.
  destruct (loadLanguage_inv P p langs o (attend p w))
    as [[_ [evs0 [Ht0 _]]] [Hinv0 [Hp0 [Hl0 Hc0]]]].
  destruct Hinv as [Hloads Hnone Hsome].
  assert (Hrej : all_rejection j = None).
  { destruct (all_rejection j) as [e|] eqn:E; [|reflexivity].
    destruct (Hsome e eq_refl) as [w0 Hf]. destruct (Hf Hco) as [b Hb]. discriminate. }
  assert (Hcont : continued j = true).
  { unfold quiescent, enabled in Hq. apply app_eq_nil in Hq. destruct Hq as [Hq1 Hq2].
    destruct (continued j) eqn:E; [reflexivity|]. exfalso.
    unfold all_settled in Hq2. rewrite Hrej in Hq2.
    rewrite (at_rest_all_fulfilled 0 (loads j) Hq1 (Hnone Hrej)) in Hq2.
    simpl in Hq2. discriminate. }
  rewrite <- Hj' in Hrej, Hcont.
  destruct (event_loop_resolved P p langs o schedule _ _ _ Hinv0 Hp0 Hl0 Hc0 Hcont Hrej)
    as [before Hb].
  exists (evs0 ++ before). rewrite Hb, Ht0. simpl. now rewrite <- !app_assoc.
Qed.

(** ** dispatchHandlers: actions that are not in the table *)

(** The lookup finds nothing callable exactly for the names that are
    neither in the table nor those of inherited functions. *)
Lemma lookup_not_a_function (name : string) :
  lookup name = NotAFunction <->
  assoc supported_actions name = None /\ ~ In name Object_prototype_functions.
Proof.
  unfold lookup. destruct (assoc supported_actions name) as [h|].
  - split; [discriminate | intros [H _]; discriminate].
  - destruct (existsb (String.eqb name) Object_prototype_functions) eqn:E.
    + split; [discriminate|]. intros [_ H]. exfalso. apply H.
      apply existsb_exists in E. destruct E as [x [Hin Heq]].
      apply String.eqb_eq in Heq. now subst.
    + split; [|reflexivity]. intros _. split; [reflexivity|]. intros Hin.
      assert (existsb (String.eqb name) Object_prototype_functions = true).
      { apply existsb_exists. exists name. split; [exact Hin | apply String.eqb_refl]. }
      congruence.
Qed.

(** An action that names nothing callable: one [reject], carrying the
    [TypeError] of the call, and nothing else. *)
Lemma dispatch_not_a_function_rejects
  (P : Platform) (schedule : list nat) (p : packet) (w : world) :
  lookup (action p) = NotAFunction ->
  worker P schedule p w =
  (Idle, {| vars := vars (attend p w);
            trace := trace w ++ [Sent p reject (DString (toString not_a_function))] |}).
Proof.
  intros H. unfold worker, dispatchHandlers, bind, try_catch, set_latestJob, get, put.
  simpl. rewrite H. reflexivity.
Qed.

(** An action that names a function every object inherits: the function
    is called, and the worker answers nothing at all. *)
Lemma dispatch_inherited_is_silent
  (P : Platform) (schedule : list nat) (p : packet) (w : world) (name : string) :
  lookup (action p) = Inherited name ->
  worker P schedule p w = (Idle, attend p w).
Proof.
  intros H. unfold worker, dispatchHandlers, bind, try_catch, set_latestJob, get, put.
  simpl. rewrite H. reflexivity.
Qed.

(** C2, at the input on which the code departs from it.  The action
    ["toString"] is not one of the ten supported names, and dispatching the
    packet yields no response: no [reject] (and no [resolve], no
    [progress]). *)
Theorem dispatch_toString_yields_no_response
  (P : Platform) (schedule : list nat) (worker_id job_id : string) (pl : payload) (w : world) :
  assoc supported_actions "toString" = None /\
  trace (snd (worker P schedule
                {| workerId := worker_id; jobId := job_id; action := "toString";
                   payload_of := pl |} w)) = trace w.
Proof.
  split; [reflexivity|].
  now rewrite (dispatch_inherited_is_silent P schedule _ w "toString").
Qed.

(** ** loadLanguage: a directory that cannot be made *)

(** C1, at an input on which the code departs from it.  [loadLanguage] for
    ["eng"] with a [dataPath], on a loaded module whose [mkdir] throws (the
    directory exists): the worker sends a [reject] for the packet and, later,
    a [resolve] for the same packet. *)
Theorem loadLanguage_rejects_then_resolves :
  filter terminalb
    (trace (snd (worker (Sample.node true false true) [0; 0; 0; 0]
                   (Sample.load_job (LangsString "eng") None) Sample.loaded)))
  = [ Sent (Sample.load_job (LangsString "eng") None) reject
        (DString "ErrnoError: File exists");
      Sent (Sample.load_job (LangsString "eng") None) resolve
        (DLangs (LangsString "eng")) ]
  /\ responses
       (trace (snd (worker (Sample.node true false true) [0; 0; 0; 0]
                      (Sample.load_job (LangsString "eng") None) Sample.loaded)))
     = [ (progress, DProgress "Worker-0" None "loading language traineddata" 0);
         (reject, DString "ErrnoError: File exists");
         (progress, DProgress "Worker-0" None "loaded language traineddata" 1);
         (resolve, DLangs (LangsString "eng")) ].
Proof. split; vm_compute; reflexivity. Qed.

(** The same slip in [recognize] (see [free_fails]): a [reject] follows
    the [resolve]. *)
Lemma recognize_resolves_then_rejects :
  map fst
    (responses
       (trace (snd (worker free_fails []
                      (Sample.job "recognize" (PRecognize (VRef 9) None VUndefined))
                      Sample.initialized))))
  = [resolve; reject].
Proof. vm_compute. reflexivity. Qed.

(** ** loadLanguage: what every load has done by the end *)

Lemma later_refl (w : world) : later w w.
Proof. split; [reflexivity|]. exists []. now rewrite app_nil_r. Qed.

Lemma later_trans (w1 w2 w3 : world) : later w1 w2 -> later w2 w3 -> later w1 w3.
Proof.
  intros [Hv1 [e1 H1]] [Hv2 [e2 H2]]. split; [congruence|].
  exists (e1 ++ e2). now rewrite H2, H1, app_assoc.
Qed.

Lemma later_event (w : world) (e : event) :
  later w {| vars := vars w; trace := trace w ++ [e] |}.
Proof. split; [reflexivity|]. now exists [e]. Qed.

Lemma grows_later (Q : event -> Prop) (w w' : world) : grows Q w w' -> later w w'.
Proof. intros [Hv [evs [Ht _]]]. split; [exact Hv | now exists evs]. Qed.

Lemma leads_rebase {A} (G : outcome A -> world -> Prop) (w0 w : world) (s : step A) :
  later w0 w -> leads_to G w s -> leads_to G w0 s.
Proof.
  intros Hl. destruct s as [out w1|w1 k]; simpl; intros [H1 H2];
    (split; [eapply later_trans; eassumption | exact H2]).
Qed.

Lemma leads_world_of {A} (G : outcome A -> world -> Prop) (w0 : world) (s : step A) :
  leads_to G w0 s -> later w0 (world_of s).
Proof. destruct s; simpl; intros [H _]; exact H. Qed.

Lemma leads_implies {A} (G G' : outcome A -> world -> Prop) (w0 : world) (s : step A) :
  (forall out w, G out w -> G' out w) -> leads_to G w0 s -> leads_to G' w0 s.
Proof.
  intros Himp. revert w0. induction s as [out w|w k IH]; simpl; intros w0 [H1 H2].
  - split; auto.
  - split; [exact H1|]. intros w' Hw'. apply IH, H2, Hw'.
Qed.

Lemma leads_bind {A B} (G1 : outcome A -> world -> Prop) (G2 : outcome B -> world -> Prop)
    (w0 : world) (s : step A) (f : A -> Async B) :
  leads_to G1 w0 s ->
  (forall a w, G1 (Returns a) w -> leads_to G2 w (f a w)) ->
  (forall e w, G1 (Throws e) w -> G2 (Throws e) w) ->
  leads_to G2 w0 (step_bind s f).
Proof.
  intros H Hf He. revert w0 H.
  induction s as [[a|e] w|w k IH]; simpl; intros w0 [H1 H2].
  - apply leads_rebase with (w := w); auto.
  - split; auto.
  - split; [exact H1|]. intros w' Hw'. apply IH, H2, Hw'.
Qed.

Lemma leads_catch {A} (G1 G2 : outcome A -> world -> Prop)
    (w0 : world) (s : step A) (h : exn -> Async A) :
  leads_to G1 w0 s ->
  (forall a w, G1 (Returns a) w -> G2 (Returns a) w) ->
  (forall e w, G1 (Throws e) w -> leads_to G2 w (h e w)) ->
  leads_to G2 w0 (step_catch s h).
Proof.
  intros H Ha Hh. revert w0 H.
  induction s as [[a|e] w|w k IH]; simpl; intros w0 [H1 H2].
  - split; auto.
  - apply leads_rebase with (w := w); auto.
  - split; [exact H1|]. intros w' Hw'. apply IH, H2, Hw'.
Qed.

(** The promise made of such a run. *)
Lemma promise_of_leads {A} (G : outcome A -> world -> Prop) (w0 : world) (s : step A) :
  leads_to G w0 s ->
  later w0 (snd (promise_of s)) /\ promise_leads G (snd (promise_of s)) (fst (promise_of s)).
Proof. destruct s as [[a|e] w|w k]; simpl; intros [H1 H2]; split; auto. Qed.

Section Holds.

Variable base : history.
Variable vs : globals.

Lemma holds_later (F : history -> Prop) (w w' : world) :
  lasting F -> holds base vs F w -> later w w' -> holds base vs F w'.
Proof.
  intros HF [Hv [evs [Ht Hf]]] [Hv' [more Hm]]. split; [congruence|].
  exists (evs ++ more). split; [now rewrite Hm, Ht, app_assoc | now apply HF].
Qed.

Lemma holds_implies (F F' : history -> Prop) (w : world) :
  (forall evs, F evs -> F' evs) -> holds base vs F w -> holds base vs F' w.
Proof. intros Himp [Hv [evs [Ht Hf]]]. split; [exact Hv|]. exists evs. auto. Qed.

Lemma holds_event (F F' : history -> Prop) (w : world) (e : event) :
  (forall evs, F evs -> trace w = base ++ evs -> F' (evs ++ [e])) ->
  holds base vs F w ->
  holds base vs F' {| vars := vars w; trace := trace w ++ [e] |}.
Proof.
  intros Himp [Hv [evs [Ht Hf]]]. split; [exact Hv|]. exists (evs ++ [e]).
  simpl. split; [now rewrite Ht, app_assoc | auto].
Qed.

Lemma lasting_True : lasting (fun _ => True).
Proof. intros evs more _. exact I. Qed.

Lemma lasting_const (X : Prop) : lasting (fun _ => X).
Proof. intros evs more H. exact H. Qed.

Lemma lasting_and (F1 F2 : history -> Prop) :
  lasting F1 -> lasting F2 -> lasting (fun evs => F1 evs /\ F2 evs).
Proof. intros H1 H2 evs more [Ha Hb]. split; [now apply H1 | now apply H2]. Qed.

Lemma lasting_or (F1 F2 : history -> Prop) :
  lasting F1 -> lasting F2 -> lasting (fun evs => F1 evs \/ F2 evs).
Proof. intros H1 H2 evs more [Ha|Hb]; [left; now apply H1 | right; now apply H2]. Qed.

Lemma lasting_impl (X : Prop) (F : history -> Prop) :
  lasting F -> lasting (fun evs => X -> F evs).
Proof. intros H evs more Hf Hx. now apply H, Hf. Qed.

Lemma lasting_ex {X} (F : X -> history -> Prop) :
  (forall x, lasting (F x)) -> lasting (fun evs => exists x, F x evs).
Proof. intros H evs more [x Hx]. exists x. now apply H. Qed.

Lemma lasting_In (e : event) : lasting (fun evs => In e evs).
Proof. intros evs more H. apply in_or_app. now left. Qed.

Lemma lasting_fulfilled {T} (answer : history -> ext -> outcome T) (c : ext) (r : T) :
  lasting (fulfilled_with answer c r base).
Proof.
  intros evs more [before [after [E Ha]]]. exists before, (after ++ more).
  split; [now rewrite E, <- app_assoc | exact Ha].
Qed.

Lemma lasting_returned {T} (answer : history -> ext -> outcome T) (c : ext) (r : T) :
  lasting (returned_with answer c r base).
Proof.
  intros evs more [before [after [E Ha]]]. exists before, (after ++ more).
  split; [now rewrite E, <- app_assoc | exact Ha].
Qed.

Lemma lasting_obtained (P : Platform) (o : language_options) (l : lang_spec) (raw : bytes) :
  lasting (obtained P o l raw base).
Proof.
  unfold obtained. apply lasting_or.
  - apply lasting_and; [apply lasting_const | apply lasting_fulfilled].
  - destruct l as [code|code d]; [|apply lasting_const].
    destruct (is_remote P (langPath o)).
    + apply lasting_ex. intros resp. apply lasting_and; apply lasting_fulfilled.
    + apply lasting_ex. intros d.
      apply lasting_and; [apply lasting_fulfilled | apply lasting_const].
Qed.

Lemma lasting_stored (P : Platform) (o : language_options) (there : option handle)
    (lang : string) (raw content : bytes) :
  lasting (stored P o there lang raw content base).
Proof.
  unfold stored. apply lasting_and; [|apply lasting_and].
  - destruct (is_gzip (fileType P raw)); [apply lasting_returned | apply lasting_const].
  - apply lasting_impl, lasting_In.
  - apply lasting_impl, lasting_In.
Qed.

Lemma lasting_loaded (P : Platform) (o : language_options) (there : option handle)
    (l : lang_spec) (content : bytes) :
  lasting (loaded P o there l content base).
Proof.
  unfold loaded. apply lasting_ex. intros raw.
  apply lasting_and; [apply lasting_obtained | apply lasting_stored].
Qed.

(** [await f(...)], with what is known kept. *)
Lemma leads_await {T} (F : history -> Prop) (answer : history -> ext -> outcome T)
    (c : ext) (w : world) :
  lasting F -> holds base vs F w ->
  leads_to
    (fun out w2 =>
       holds base vs
         (fun evs => F evs /\ In (Invoke c) evs /\
                     match out with
                     | Returns r => fulfilled_with answer c r base evs
                     | Throws _ => True
                     end) w2)
    w (await answer c w).
Proof.
  intros HF Hw. unfold await, record. simpl. split; [apply later_event|].
  intros w' Hw'. unfold lift, settle. simpl. split; [apply later_event|].
  assert (H1 : holds base vs (fun evs => F evs /\ In (Invoke c) evs) w').
  { apply holds_later with (w := {| vars := vars w; trace := trace w ++ [Invoke c] |});
      [apply lasting_and; [exact HF | apply lasting_In] | | exact Hw'].
    apply holds_event with (F := F); [|exact Hw].
    intros evs Hf _. split; [now apply HF | apply in_or_app; right; now left]. }
  destruct H1 as [Hv [evs [Ht [Hf Hin]]]]. split; [exact Hv|].
  exists (evs ++ [Settle c]). simpl. split; [now rewrite Ht, app_assoc|].
  split; [now apply HF|]. split; [apply in_or_app; now left|].
  destruct (answer (trace w' ++ [Settle c]) c) as [r|e] eqn:E; [|exact I].
  exists evs, []. split; [reflexivity|]. now rewrite app_assoc, <- Ht.
Qed.

(** A synchronous call, with what is known kept. *)
Lemma holds_invoke {T} (F : history -> Prop) (answer : history -> ext -> outcome T)
    (c : ext) (w : world) :
  lasting F -> holds base vs F w ->
  holds base vs
    (fun evs => F evs /\ In (Invoke c) evs /\
                match fst (invoke answer c w) with
                | Returns r => returned_with answer c r base evs
                | Throws _ => True
                end)
    (snd (invoke answer c w)).
Proof.
  intros HF [Hv [evs [Ht Hf]]]. unfold invoke. simpl. split; [exact Hv|].
  exists (evs ++ [Invoke c]). split; [now rewrite Ht, app_assoc|].
  split; [now apply HF|]. split; [apply in_or_app; right; now left|].
  destruct (answer (trace w ++ [Invoke c]) c) as [r|e] eqn:E; [|exact I].
  exists evs, []. split; [reflexivity|]. now rewrite app_assoc, <- Ht.
Qed.

End Holds.

(** *** One load, from its call to its end *)

Section LoadDone.

Variable P : Platform.
Variable rs : packet.
Variable o : language_options.
Variable base : history.
Variable vs : globals.

Let anything := fun _ : history => True.

Ltac later_here :=
  split; [reflexivity|]; eexists; simpl; rewrite <- ?app_assoc; reflexivity.

Lemma from_cache_leads (lang : string) (w : world) :
  holds base vs anything w ->
  leads_to
    (fun out w' =>
       match out with
       | Returns raw =>
           holds base vs
             (fun evs =>
                includes ["refresh"; "none"] (cacheMethod o) = false /\
                fulfilled_with (answer_cache P) (adapter_readCache (cache_file o lang))
                  (Some raw) base evs) w'
       | Throws _ => holds base vs anything w'
       end)
    w (from_cache P rs o lang w).
Proof.
  intros Hw. unfold from_cache, abind.
  destruct (includes ["refresh"; "none"] (cacheMethod o)) eqn:Hc.
  - unfold await_resolved. simpl. split; [apply later_refl|].
    intros w' Hw'. split; [apply later_refl|].
    apply holds_later with (w := w); [apply lasting_True | exact Hw | exact Hw'].
  - eapply leads_bind.
    + apply leads_await with (F := anything); [apply lasting_True | exact Hw].
    + intros [d|] w1 H1; simpl.
      * unfold lift, res, record, aret. simpl. split; [apply later_event|].
        apply holds_event with (F := fun evs =>
          fulfilled_with (answer_cache P) (adapter_readCache (cache_file o lang))
            (Some d) base evs).
        -- intros evs Hf _. split; [reflexivity|]. now apply lasting_fulfilled.
        -- eapply holds_implies; [|exact H1]. intros evs [_ [_ Hf]]. exact Hf.
      * unfold athrow. split; [apply later_refl|].
        eapply holds_implies; [|exact H1]. intros; exact I.
    + intros e w1 H1. eapply holds_implies; [|exact H1]. intros; exact I.
Qed.

Lemma from_source_leads (l : lang_spec) (w : world) :
  holds base vs anything w ->
  leads_to
    (fun out w' =>
       match out with
       | Returns raw =>
           holds base vs
             (fun evs =>
                match l with
                | LangCode code =>
                    if is_remote P (langPath o) then
                      exists resp,
                        fulfilled_with (answer_handle P)
                          (fetch_call P (source_file o code)) resp base evs /\
                        fulfilled_with (answer_bytes P) (Response_arrayBuffer resp) raw
                          base evs
                    else
                      exists d,
                        fulfilled_with (answer_cache P)
                          (adapter_readCache (source_file o code)) d base evs /\
                        raw = Uint8Array_of d
                | LangInline _ d => raw = d
                end) w'
       | Throws _ => True
       end)
    w (from_source P o l w).
Proof.
  intros Hw. unfold from_source. destruct l as [code|code d]; simpl.
  - destruct (is_remote P (langPath o)); unfold abind.
    + eapply leads_bind.
      * apply leads_await with (F := anything); [apply lasting_True | exact Hw].
      * intros resp w1 H1. simpl in H1.
        eapply leads_implies;
          [|apply leads_await with
              (F := fun evs => fulfilled_with (answer_handle P)
                                 (fetch_call P (source_file o code)) resp base evs)].
        -- intros [raw|e] w2 H2; [|exact I].
           eapply holds_implies; [|exact H2]. intros evs [Hf [_ Hb]]. eauto.
        -- apply lasting_fulfilled.
        -- eapply holds_implies; [|exact H1]. intros evs [_ [_ Hf]]. exact Hf.
      * intros e w1 _. exact I.
    + eapply leads_bind.
      * apply leads_await with (F := anything); [apply lasting_True | exact Hw].
      * intros d w1 H1. simpl in H1. unfold aret. split; [apply later_refl|].
        eapply holds_implies; [|exact H1]. intros evs [_ [_ Hf]]. eauto.
      * intros e w1 _. exact I.
  - unfold aret. split; [apply later_refl|].
    eapply holds_implies; [|exact Hw]. intros; reflexivity.
Qed.

Lemma obtain_data_leads (l : lang_spec) (w : world) :
  holds base vs anything w ->
  leads_to
    (fun out w' =>
       match out with
       | Returns raw => holds base vs (obtained P o l raw base) w'
       | Throws _ => True
       end)
    w (obtain_data P rs o l w).
Proof.
  intros Hw. unfold obtain_data, acatch. eapply leads_catch.
  - apply from_cache_leads, Hw.
  - intros raw w1 H1. eapply holds_implies; [|exact H1].
    intros evs H. left. exact H.
  - intros e w1 H1. eapply leads_implies; [|apply from_source_leads, H1].
    intros [raw|e'] w2 H2; [|exact I].
    eapply holds_implies; [|exact H2]. intros evs H. right. exact H.
Qed.

Lemma gunzip_and_store_leads (l : lang_spec) (raw : bytes) (w : world) :
  holds base vs (obtained P o l raw base) w ->
  leads_to
    (fun out w' =>
       match out with
       | Returns content => holds base vs (loaded P o (TessModule vs) l content base) w'
       | Throws _ => True
       end)
    w (gunzip_and_store P rs o (lang_code l) raw w).
Proof.
  intros Hw. unfold gunzip_and_store, abind.
  set (F1 := fun content evs =>
    obtained P o l raw base evs /\
    (if is_gzip (fileType P raw)
     then returned_with (answer_bytes P) (adapter_gunzip raw) content base evs
     else content = raw)).
  assert (L1 : forall content, lasting (F1 content)).
  { intros content. apply lasting_and; [apply lasting_obtained|].
    destruct (is_gzip (fileType P raw)); [apply lasting_returned | apply lasting_const]. }
  set (F2 := fun content evs =>
    F1 content evs /\
    (TessModule vs <> None ->
     In (Invoke (FS_writeFile (data_file o (lang_code l)) content)) evs)).
  assert (L2 : forall content, lasting (F2 content)).
  { intros content. apply lasting_and; [apply L1 | apply lasting_impl, lasting_In]. }
  apply leads_bind with
    (G1 := fun out w1 => match out with
                         | Returns content => holds base vs (F1 content) w1
                         | Throws _ => True
                         end).
  - (* sniffing, and [gunzip] *)
    unfold lift. unfold F1. destruct (is_gzip (fileType P raw)) eqn:Hgz.
    + unfold call_bytes.
      pose proof (holds_invoke base vs _ (answer_bytes P) (adapter_gunzip raw) w
                    (lasting_obtained base P o l raw) Hw) as H.
      unfold invoke in *. simpl in *. split; [apply later_event|].
      destruct (answer_bytes P _ _) as [content|e]; [|exact I].
      eapply holds_implies; [|exact H]. intros evs [Ho [_ Hr]]. auto.
    + unfold ret. split; [apply later_refl|].
      eapply holds_implies; [|exact Hw]. intros evs Ho. auto.
  - intros content w1 H1.
    apply leads_bind with
      (G1 := fun out w2 => match out with
                           | Returns _ => holds base vs (F2 content) w2
                           | Throws _ => True
                           end).
    + (* the engine's filesystem *)
      destruct H1 as [Hv [evs1 [Ht1 Hf1]]].
      unfold lift, bind, get. simpl. rewrite Hv.
      destruct (TessModule vs) as [m|] eqn:Hm.
      * unfold when, try_catch, call_unit, invoke, res, record, ret, bind.
        destruct (truthy_path (dataPath o)); simpl;
          repeat match goal with
                 | |- context [answer_unit P ?tr ?c] =>
                     destruct (answer_unit P tr c) as [[]|?]; simpl
                 end;
          (split; [later_here|]); try exact I;
          (split; [exact Hv|]); simpl; rewrite Ht1, <- ?app_assoc;
          (eexists; split; [reflexivity|]);
          (split; [now apply L1|]); intros _; simpl;
          apply in_or_app; right; simpl; auto.
      * unfold ret. split; [apply later_refl|]. split; [exact Hv|].
        exists evs1. split; [exact Ht1|]. split; [exact Hf1|]. congruence.
    + intros [] w2 H2.
      apply leads_bind with
        (G1 := fun out w3 =>
           match out with
           | Returns _ =>
               holds base vs
                 (fun evs =>
                    F2 content evs /\
                    (includes_or_undefined ["write"; "refresh"] (cacheMethod o) = true ->
                     In (Invoke (adapter_writeCache (cache_file o (lang_code l)) content))
                        evs)) w3
           | Throws _ => True
           end).
      * destruct (includes_or_undefined ["write"; "refresh"] (cacheMethod o)).
        -- eapply leads_implies; [|apply leads_await with (F := F2 content);
                                    [apply L2 | exact H2]].
           intros [[]|e] w3 H3; [|exact I].
           eapply holds_implies; [|exact H3]. intros evs [Hf [Hin _]]. auto.
        -- unfold aret. split; [apply later_refl|].
           eapply holds_implies; [|exact H2]. intros evs Hf. split; [exact Hf|].
           discriminate.
      * intros [] w3 H3. unfold aret. split; [apply later_refl|].
        eapply holds_implies; [|exact H3].
        intros evs [[[Ho Hg] Hwr] Hca]. exists raw. split; [exact Ho|].
        split; [exact Hg|]. split; [exact Hwr | exact Hca].
      * intros e w3 _. exact I.
    + intros e w2 _. exact I.
  - intros e w1 _. exact I.
Qed.

Lemma loadAndGunzipFile_leads (l : lang_spec) (w : world) :
  holds base vs anything w ->
  leads_to
    (fun out w' =>
       match out with
       | Returns content => holds base vs (loaded P o (TessModule vs) l content base) w'
       | Throws _ => True
       end)
    w (loadAndGunzipFile P rs o l w).
Proof.
  intros Hw. unfold loadAndGunzipFile, abind. eapply leads_bind.
  - apply obtain_data_leads, Hw.
  - intros raw w1 H1. apply gunzip_and_store_leads, H1.
  - intros e w1 _. exact I.
Qed.

End LoadDone.

(** *** All the loads of a job *)

Lemma promise_leads_later {A} (G : outcome A -> world -> Prop) (w w' : world)
    (pr : promise A) :
  (forall out w1 w2, G out w1 -> later w1 w2 -> G out w2) ->
  promise_leads G w pr -> later w w' -> promise_leads G w' pr.
Proof.
  intros HG H Hl. destruct pr as [k|a|e]; simpl in *.
  - intros w2 H2. apply H. eapply later_trans; eassumption.
  - eapply HG; eassumption.
  - eapply HG; eassumption.
Qed.

Lemma Forall2_replace_r {A B} (R : A -> B -> Prop) (l1 : list A) (l2 : list B) (i : nat)
    (x : A) (y : B) :
  Forall2 R l1 l2 -> nth_error l1 i = Some x -> R x y ->
  Forall2 R l1 (replace_nth i y l2).
Proof.
  intros H. revert i. induction H as [|x0 y0 l1 l2 H0 H IH]; intros [|i]; simpl;
    try discriminate.
  - intros E Hxy. inversion E; subst. now constructor.
  - intros E Hxy. constructor; auto.
Qed.

Section JobDone.

Variable P : Platform.
Variable p : packet.
Variable o : language_options.
Variable base : history.
Variable vs : globals.

Let anything := fun _ : history => True.

(** What a load of [l] settles with. *)
Let G (l : lang_spec) : outcome bytes -> world -> Prop :=
  fun out w =>
    match out with
    | Returns content => holds base vs (loaded P o (TessModule vs) l content base) w
    | Throws _ => True
    end.

Lemma G_later (l : lang_spec) (out : outcome bytes) (w1 w2 : world) :
  G l out w1 -> later w1 w2 -> G l out w2.
Proof.
  destruct out as [content|e]; simpl; [|auto].
  intros H Hl. eapply holds_later; [apply lasting_loaded | exact H | exact Hl].
Qed.

Lemma pool_later (specs : list lang_spec) (ps : list (promise bytes)) (w w' : world) :
  Forall2 (fun l pr => promise_leads (G l) w pr) specs ps -> later w w' ->
  Forall2 (fun l pr => promise_leads (G l) w' pr) specs ps.
Proof.
  intros H Hl. induction H as [|l pr specs ps H0 H IH]; constructor; [|exact IH].
  eapply promise_leads_later; [apply G_later | exact H0 | exact Hl].
Qed.

Lemma start_all_leads (specs : list lang_spec) (w : world) :
  holds base vs anything w ->
  later w (snd (start_all (loadAndGunzipFile P p o) specs w)) /\
  Forall2 (fun l pr =>
             promise_leads (G l) (snd (start_all (loadAndGunzipFile P p o) specs w)) pr)
    specs (fst (start_all (loadAndGunzipFile P p o) specs w)).
Proof.
  revert w. induction specs as [|l specs IH]; intros w Hw; simpl.
  - split; [apply later_refl | constructor].
  - unfold start.
    destruct (promise_of_leads _ w _ (loadAndGunzipFile_leads P p o base vs l w Hw))
      as [Hl1 Hp1].
    destruct (promise_of (loadAndGunzipFile P p o l w)) as [pr w1]. simpl in Hl1, Hp1.
    destruct (IH w1) as [Hl2 Hps].
    { eapply holds_later; [apply lasting_True | exact Hw | exact Hl1]. }
    destruct (start_all (loadAndGunzipFile P p o) specs w1) as [ps w2]. simpl in *.
    split; [eapply later_trans; eassumption|].
    constructor; [|exact Hps].
    eapply promise_leads_later; [apply G_later | exact Hp1 | exact Hl2].
Qed.

Lemma take_turn_leads (specs : list lang_spec) (t : turn) (j : language_job) (w : world) :
  Forall2 (fun l pr => promise_leads (G l) w pr) specs (loads j) ->
  later w (snd (take_turn P t j w)) /\
  Forall2 (fun l pr => promise_leads (G l) (snd (take_turn P t j w)) pr)
    specs (loads (fst (take_turn P t j w))).
Proof.
  intros Hps. destruct t as [i|]; simpl.
  - destruct (nth_error (loads j) i) as [[k|a|e]|] eqn:Hi;
      try (split; [apply later_refl | exact Hps]).
    assert (Hl : exists l, nth_error specs i = Some l /\
                           promise_leads (G l) w (Pending k)).
    { clear -Hps Hi. revert i Hi.
      induction Hps as [|l0 pr0 specs ps H0 H IH]; intros [|i] Hi; simpl in *;
        try discriminate.
      - inversion Hi; subst. eauto.
      - apply IH, Hi. }
    destruct Hl as [l [Hn Hk]]. simpl in Hk.
    destruct (promise_of_leads _ w _ (Hk w (later_refl w))) as [Hl1 Hp1].
    destruct (promise_of (k w)) as [pr w1]. simpl in *.
    split; [exact Hl1|].
    apply Forall2_replace_r with (x := l); [|exact Hn | exact Hp1].
    eapply pool_later; eassumption.
  - destruct (all_settled j && negb (continued j));
      [|split; [apply later_refl | exact Hps]].
    assert (Hl : later w (snd (loadLanguage_continue P j w))).
    { unfold loadLanguage_continue.
      destruct (all_rejection j) as [err|].
      - destruct (isWebWorker P && isDOMException err); simpl;
          [apply later_refl | apply later_event].
      - unfold bind, res, record. simpl. split; [reflexivity|].
        eexists. now rewrite <- app_assoc. }
    destruct (loadLanguage_continue P j w) as [out w1]. simpl in *.
    split; [exact Hl|]. eapply pool_later; eassumption.
Qed.

(** When the job ends resumed and not rejected: by the time
    [loadLanguage] was resumed, every load was through. *)
Lemma event_loop_loaded (langs : langs_arg) (specs : list lang_spec)
    (schedule : list nat) (j : language_job) (w : world) :
  job_packet j = p -> job_langs j = langs ->
  Forall2 (fun l pr => promise_leads (G l) w pr) specs (loads j) ->
  continued j = false ->
  continued (fst (event_loop P schedule j w)) = true ->
  all_rejection (fst (event_loop P schedule j w)) = None ->
  exists wb,
    later w wb /\
    trace (snd (event_loop P schedule j w)) =
      trace wb
        ++ [ Sent p progress (DProgress (workerId p) None "loaded language traineddata" 1);
             Sent p resolve (DLangs langs) ] /\
    forall l, In l specs ->
              exists content,
                holds base vs (loaded P o (TessModule vs) l content base) wb.
Proof.
  revert j w. induction schedule as [|c rest IH]; intros j w Hp Hl Hps Hc Hend Hnone.
  - simpl in Hend. congruence.
  - rewrite event_loop_cons in *. destruct (enabled j) as [|t0 ts] eqn:Hen.
    + simpl in Hend. congruence.
    + assert (Hin : In (nth (c mod length (t0 :: ts)) (t0 :: ts) t0) (enabled j))
        by (rewrite Hen; apply picked_enabled).
      generalize dependent (nth (c mod length (t0 :: ts)) (t0 :: ts) t0).
      intros t Hend Hnone Hin.
      destruct (take_turn_fields P t j w) as [Hp1 [Hl1 Hsticky]].
      destruct (take_turn_leads specs t j w Hps) as [Hlater Hps1].
      apply in_enabled in Hin. destruct Hin as [[i [k [-> Hi]]]|[-> Hset]].
      * destruct (IH (fst (take_turn P (Resume i) j w)) (snd (take_turn P (Resume i) j w)))
          as [wb [Hb1 [Hb2 Hb3]]]; try assumption; try congruence.
        { simpl. rewrite Hi. now destruct (promise_of (k w)). }
        exists wb. split; [eapply later_trans; eassumption|]. split; assumption.
      * destruct (all_rejection j) as [e|] eqn:Hrej.
        { rewrite (event_loop_rejection P rest _ _ e) in Hnone by auto. discriminate. }
        exists w. split; [apply later_refl|]. split.
        -- clear Hend Hnone Hps1 Hlater. simpl. rewrite Hset.
           unfold loadLanguage_continue. rewrite Hrej, Hp, Hl.
           unfold bind, res, record. simpl.
           rewrite event_loop_at_rest.
           ++ simpl. now rewrite <- app_assoc.
           ++ unfold quiescent, enabled, all_settled. simpl.
              rewrite andb_false_r, app_nil_r. apply pending_from_nil.
              apply fulfilled_not_pending.
              unfold all_settled in Hset. rewrite Hrej in Hset.
              now apply andb_true_iff in Hset.
        -- unfold all_settled in Hset. rewrite Hrej in Hset.
           apply andb_true_iff in Hset. destruct Hset as [Hful _].
           clear -Hps Hful. intros l Hin.
           induction Hps as [|l0 pr0 specs ps H0 H IH]; [contradiction|].
           simpl in Hful. apply andb_true_iff in Hful. destruct Hful as [Hf0 Hf].
           destruct Hin as [<-|Hin]; [|now apply IH].
           destruct pr0 as [k|content|e]; try discriminate. simpl in H0. eauto.
Qed.

End JobDone.

(** On a cooperative platform, with a schedule of four turns for each
    language and one more: by the time the call resolves, every language
    has been obtained (from the cache or from its source) and stored. *)
Lemma loadLanguage_loads_all (P : Platform) (p : packet) (langs : langs_arg)
    (o : language_options) (schedule : list nat) (w : world) :
  action p = "loadLanguage" ->
  payload_of p = PLoadLanguage langs o ->
  cooperative P o ->
  4 * length (lang_specs langs) + 1 <= length schedule ->
  exists before,
    trace (snd (worker P schedule p w)) =
      trace w ++ before
        ++ [ Sent p progress
               (DProgress (workerId p) None "loaded language traineddata" 1);
             Sent p resolve (DLangs langs) ] /\
    forall l, In l (lang_specs langs) ->
              exists content,
                loaded P o (TessModule (vars w)) l content (trace w) before.
Proof.
  intros Ha Hpl Hco Hlen.
  destruct (loadLanguage_events P p langs o Ha Hpl schedule w)
    as [j [evs [Hj [_ [_ [_ [_ [[ns Hinv] Hq]]]]]]]].
  specialize (Hq Hlen).
  rewrite (worker_loadLanguage P p langs o Ha Hpl) in Hj |- *. simpl in Hj |- *.
  inversion Hj as [Hj']. clear Hj.
  destruct (loadLanguage_inv P p langs o (attend p w))
    as [_ [_ [Hp0 [Hl0 Hc0]]]].
  destruct Hinv as [Hloads Hnone Hsome].
  assert (Hrej : all_rejection j = None).
  { destruct (all_rejection j) as [e|] eqn:E; [|reflexivity].
    destruct (Hsome e eq_refl) as [w0 Hf]. destruct (Hf Hco) as [b Hb]. discriminate. }
  assert (Hcont : continued j = true).
  { unfold quiescent, enabled in Hq. apply app_eq_nil in Hq. destruct Hq as [Hq1 Hq2].
    destruct (continued j) eqn:E; [reflexivity|]. exfalso.
    unfold all_settled in Hq2. rewrite Hrej in Hq2.
    rewrite (at_rest_all_fulfilled 0 (loads j) Hq1 (Hnone Hrej)) in Hq2.
    simpl in Hq2. discriminate. }
  rewrite <- Hj' in Hrej, Hcont.
  set (w1 := {| vars := vars (attend p w); trace := trace w ++ [loading p] |}).
  assert (H1 : holds (trace w) (vars (attend p w)) (fun _ => True) w1).
  { split; [reflexivity|]. exists [loading p]. auto. }
  destruct (start_all_leads P p o (trace w) (vars (attend p w)) (lang_specs langs) w1 H1)
    as [Hl2 Hps].
  assert (E : loadLanguage P p langs o (attend p w) =
              ({| job_packet := p; job_langs := langs;
                  loads := fst (start_all (loadAndGunzipFile P p o) (lang_specs langs) w1);
                  all_rejection :=
                    first_rejection
                      (fst (start_all (loadAndGunzipFile P p o) (lang_specs langs) w1));
                  continued := false |},
               snd (start_all (loadAndGunzipFile P p o) (lang_specs langs) w1))).
  { unfold loadLanguage, res, record. cbn [fst snd]. fold (loading p).
    change (trace (attend p w)) with (trace w). fold w1.
    now destruct (start_all (loadAndGunzipFile P p o) (lang_specs langs) w1). }
  rewrite E in *. cbn [fst snd] in *.
  match type of Hcont with
  | continued (fst (event_loop _ _ ?j0 ?w2)) = _ =>
      destruct (event_loop_loaded P p o (trace w) (vars (attend p w)) langs
                  (lang_specs langs) schedule j0 w2 eq_refl eq_refl Hps eq_refl Hcont Hrej)
        as [wb [Hlb [Htb Hfacts]]]
  end.
  destruct (later_trans _ _ _ (later_trans _ _ _ (later_event _ _ : later _ w1) Hl2) Hlb)
    as [_ [before Hbefore]].
  cbn [trace attend] in Hbefore.
  exists before. split; [now rewrite Htb, Hbefore, <- app_assoc|].
  intros l Hin. destruct (Hfacts l Hin) as [content [_ [evs' [Ht' Hf']]]].
  exists content. rewrite Hbefore in Ht'. apply app_inv_head in Ht'. now subst evs'.
Qed.

(** ** loadLanguage: how it starts *)

Lemma load_start (P : Platform) (p : packet) (o : language_options) (l : lang_spec) (w : world) :
  is_pending (fst (start (loadAndGunzipFile P p o l) w)) = true /\
  vars (snd (start (loadAndGunzipFile P p o l) w)) = vars w /\
  trace (snd (start (loadAndGunzipFile P p o l) w)) = trace w ++ first_request o l.
Proof.
  unfold start, loadAndGunzipFile, obtain_data, from_cache, first_request, abind, acatch.
  destruct (includes ["refresh"; "none"] (cacheMethod o)); simpl.
  - now rewrite app_nil_r.
  - auto.
Qed.

Lemma start_all_trace (P : Platform) (p : packet) (o : language_options)
  (specs : list lang_spec) (w : world) :
  Forall (fun pr => is_pending pr = true)
    (fst (start_all (loadAndGunzipFile P p o) specs w)) /\
  length (fst (start_all (loadAndGunzipFile P p o) specs w)) = length specs /\
  vars (snd (start_all (loadAndGunzipFile P p o) specs w)) = vars w /\
  trace (snd (start_all (loadAndGunzipFile P p o) specs w)) =
    trace w ++ flat_map (first_request o) specs.
Proof.
  revert w. induction specs as [|l specs IH]; intros w; simpl.
  - rewrite app_nil_r. auto.
  - destruct (load_start P p o l w) as [Hp [Hv Ht]].
    destruct (start (loadAndGunzipFile P p o l) w) as [pr w1]. simpl in *.
    destruct (IH w1) as [Hps [Hlen [Hv2 Ht2]]].
    destruct (start_all (loadAndGunzipFile P p o) specs w1) as [ps w2]. simpl in *.
    split; [now constructor|]. split; [now rewrite Hlen|]. split; [congruence|].
    now rewrite Ht2, Ht, app_assoc.
Qed.

Lemma split_plus_cons (s : string) : exists h t, split_plus s = h :: t.
Proof.
  destruct s as [|c s]; simpl; [eauto|].
  destruct (Ascii.eqb c "+"%char); [eauto|].
  destruct (split_plus s); eauto.
Qed.

(** [split('+')] cuts at every ['+'] and nowhere else. *)
Lemma join_split (s : string) : join_plus (split_plus s) = s.
Proof.
  induction s as [|c s IH]; [reflexivity|].
  simpl. destruct (split_plus_cons s) as [h [t E]]. rewrite E in *.
  destruct (Ascii.eqb_spec c "+"%char) as [->|Hne].
  - change (join_plus ("" :: h :: t)) with ("" ++ "+" ++ join_plus (h :: t))%string.
    now rewrite IH.
  - destruct t as [|h' t']; simpl in *; now rewrite <- IH.
Qed.

Lemma split_no_plus (s : string) : Forall (fun c => has_plus c = false) (split_plus s).
Proof.
  induction s as [|c s IH]; simpl.
  - repeat constructor.
  - destruct (Ascii.eqb c "+"%char) eqn:E.
    + constructor; [reflexivity | exact IH].
    + destruct (split_plus s) as [|h t]; inversion IH; subst;
        constructor; simpl; try rewrite E; auto.
Qed.

(** No language load resolves the packet; only [loadLanguage] itself does,
    and with [langs]. *)
Lemma job_event_resolve (P : Platform) (p : packet) (langs : langs_arg)
  (o : language_options) (q : packet) (d : data) :
  job_event P p langs o (Sent q resolve d) -> q = p /\ d = DLangs langs.
Proof.
  intros H. inversion H as [l e Hin Hl | | | |]; subst; auto.
  inversion Hl.
Qed.

(** C10.  [loadLanguage] with a string for [langs]: the string is split at
    every ['+'], and each component is handed to [loadAndGunzipFile] as a
    language code of its own.  When the handler returns to the dispatcher
    there is one load per component, all of them started (each has asked
    for its own cache file, unless the cache is off) and none finished:
    they run concurrently.  Whatever happens then, a [resolve] for the
    packet carries the string as it came.  On a cooperative platform, once
    every load has had its turns, the [resolve] with that string is the
    last thing sent; and by then every component has been loaded as a
    language of its own: its bytes were obtained, from its own cache file
    or else from its own source under [langPath], and stored, gunzipped if
    they were sniffed as gzip, in its own file of the engine (when the
    module is there) and in its own cache file (unless the cache method
    forbids). *)
Theorem loadLanguage_splits_string_and_resolves_with_it
  (P : Platform) (p : packet) (s : string) (o : language_options)
  (schedule : list nat) (w : world) :
  action p = "loadLanguage" ->
  payload_of p = PLoadLanguage (LangsString s) o ->
  (lang_specs (LangsString s) = map LangCode (split_plus s)
   /\ join_plus (split_plus s) = s
   /\ Forall (fun c => has_plus c = false) (split_plus s))
  /\ (exists j0 w0,
        dispatchHandlers P p w = (Returns (Loading j0), w0) /\
        length (loads j0) = length (split_plus s) /\
        Forall (fun pr => is_pending pr = true) (loads j0) /\
        trace w0 =
          trace w ++
          Sent p progress (DProgress (workerId p) None "loading language traineddata" 0)
          :: flat_map (first_request o) (map LangCode (split_plus s)))
  /\ (exists evs,
        trace (snd (worker P schedule p w)) = trace w ++ evs /\
        forall q d, In (Sent q resolve d) evs -> q = p /\ d = DLangs (LangsString s))
  /\ (cooperative P o ->
      4 * length (split_plus s) + 1 <= length schedule ->
      exists before,
        trace (snd (worker P schedule p w)) =
          trace w ++ before
            ++ [ Sent p progress
                   (DProgress (workerId p) None "loaded language traineddata" 1);
                 Sent p resolve (DLangs (LangsString s)) ] /\
        forall code, In code (split_plus s) ->
          exists raw content,
            obtained P o (LangCode code) raw (trace w) before /\
            stored P o (TessModule (vars w)) code raw content (trace w) before).
Proof.
  intros Ha Hpl. split; [|split; [|split]].
  - split; [reflexivity|]. split; [apply join_split | apply split_no_plus].
  - rewrite (dispatch_loadLanguage P p (LangsString s) o Ha Hpl).
    eexists _, _. split; [reflexivity|].
    unfold loadLanguage, res, record. simpl.
    match goal with |- context [start_all _ _ ?w1] =>
      destruct (start_all_trace P p o (map LangCode (split_plus s)) w1)
        as [Hpend [Hlen [_ Ht]]];
      destruct (start_all (loadAndGunzipFile P p o) (map LangCode (split_plus s)) w1)
        as [ps w2]
    end.
    simpl in *. rewrite length_map in Hlen. split; [exact Hlen|].
    split; [exact Hpend|]. now rewrite Ht, <- app_assoc.
  - destruct (loadLanguage_events P p (LangsString s) o Ha Hpl schedule w)
      as [j [evs [_ [Ht [Hq _]]]]].
    exists evs. split; [exact Ht|]. intros q d Hin.
    rewrite Forall_forall in Hq. apply (job_event_resolve P p _ o), Hq, Hin.
  - intros Hco Hlen.
    destruct (loadLanguage_loads_all P p (LangsString s) o schedule w Ha Hpl Hco)
      as [before [Ht Hall]]; [simpl; now rewrite length_map|].
    exists before. split; [exact Ht|]. intros code Hin.
    destruct (Hall (LangCode code)) as [content [raw [Hob Hst]]].
    + simpl. now apply in_map.
    + exists raw, content. split; [exact Hob | exact Hst].
Qed.

(** ** loadLanguage: the cache switched off *)

Lemma load_event_readCache (P : Platform) (rs : packet) (o : language_options)
  (l : lang_spec) (path : string) :
  load_event P rs o l (Invoke (adapter_readCache path)) ->
  (includes ["refresh"; "none"] (cacheMethod o) = false /\
   path = cache_file o (lang_code l))
  \/ (exists code, l = LangCode code /\ is_remote P (langPath o) = false /\
                   path = source_file o code).
Proof.
  intros H. inversion H; subst; eauto.
  - unfold fetch_call in *. destruct (isWebWorker P); discriminate.
Qed.

Lemma load_event_writeCache (P : Platform) (rs : packet) (o : language_options)
  (l : lang_spec) (path : string) (c : bytes) :
  load_event P rs o l (Invoke (adapter_writeCache path c)) ->
  includes_or_undefined ["write"; "refresh"] (cacheMethod o) = true /\
  path = cache_file o (lang_code l).
Proof.
  intros H. inversion H; subst; eauto.
  - unfold fetch_call in *. destruct (isWebWorker P); discriminate.
Qed.

Lemma load_event_network (P : Platform) (rs : packet) (o : language_options)
  (l : lang_spec) (e : event) :
  load_event P rs o l e -> is_network e = true ->
  exists code, l = LangCode code /\ is_remote P (langPath o) = true.
Proof.
  intros H Hn. inversion H; subst; simpl in Hn; try discriminate; eauto.
Qed.

(** With the cache off, getting hold of the bytes is one turn of the event
    loop and then the [catch] block: the network, a file, or the inline
    bytes. *)
Lemma obtain_data_cache_off (P : Platform) (rs : packet) (o : language_options)
  (l : lang_spec) (w : world) :
  includes ["refresh"; "none"] (cacheMethod o) = true ->
  obtain_data P rs o l w = Yield w (from_source P o l).
Proof.
  intros H. unfold obtain_data, acatch, from_cache, abind. rewrite H. reflexivity.
Qed.

(** C4, as the code has it.  [loadLanguage] with cache behaviour ["none"]:
    no language load looks its cache file up; each goes straight to the
    [catch] block, that is to the network or to a file.  [adapter.readCache]
    is called all the same, as the reader of that file: only when [langPath]
    is not remote, only for a spec that is a code, and only on
    [langPath/code.traineddata] (with [.gz] when [gzip]).  The cache is not
    written either. *)
Theorem cache_none_reads_only_the_source
  (P : Platform) (p : packet) (langs : langs_arg) (o : language_options)
  (schedule : list nat) (w : world) :
  action p = "loadLanguage" ->
  payload_of p = PLoadLanguage langs o ->
  cacheMethod o = Some "none" ->
  (forall l w1, obtain_data P p o l w1 = Yield w1 (from_source P o l))
  /\ exists evs,
       trace (snd (worker P schedule p w)) = trace w ++ evs /\
       (forall path, In (Invoke (adapter_readCache path)) evs ->
          is_remote P (langPath o) = false /\
          exists code, In (LangCode code) (lang_specs langs) /\
                       path = source_file o code) /\
       (forall path c, ~ In (Invoke (adapter_writeCache path c)) evs).
Proof.
  intros Ha Hpl Hnone. split.
  - intros l w1. apply obtain_data_cache_off. now rewrite Hnone.
  - destruct (loadLanguage_events P p langs o Ha Hpl schedule w)
      as [j [evs [_ [Ht [Hq _]]]]].
    exists evs. split; [exact Ht|]. rewrite Forall_forall in Hq. split.
    + intros path Hin. specialize (Hq _ Hin).
      inversion Hq as [l e Hl Hle | | | |]; subst.
      apply load_event_readCache in Hle.
      destruct Hle as [[Hoff _]|[code [-> [Hr ->]]]].
      * rewrite Hnone in Hoff. discriminate.
      * eauto.
    + intros path c Hin. specialize (Hq _ Hin).
      inversion Hq as [l e Hl Hle | | | |]; subst.
      apply load_event_writeCache in Hle. destruct Hle as [Hon _].
      rewrite Hnone in Hon. discriminate.
Qed.

(** The claim as it is worded (the cache reader is never invoked) fails:
    with cache behaviour ["none"] and a local [langPath],
    [loadLanguage(["eng"])] calls [adapter.readCache]. *)
Lemma cache_none_still_calls_readCache :
  ~ (forall e,
       In e (trace (snd (worker (Sample.node false false true) [0; 0; 0]
                           (Sample.job "loadLanguage"
                              (PLoadLanguage (LangsArray [LangCode "eng"])
                                 (Sample.options (Some "none"))))
                           Sample.loaded))) ->
       is_readCache e = false).
Proof.
  intros H.
  specialize (H (Invoke (adapter_readCache "./lang-data/eng.traineddata.gz"))).
  assert (Hin : In (Invoke (adapter_readCache "./lang-data/eng.traineddata.gz"))
                  (trace (snd (worker (Sample.node false false true) [0; 0; 0]
                                 (Sample.job "loadLanguage"
                                    (PLoadLanguage (LangsArray [LangCode "eng"])
                                       (Sample.options (Some "none"))))
                                 Sample.loaded)))).
  { vm_compute. tauto. }
  specialize (H Hin). discriminate.
Qed.

(** ** loadLanguage: inline language data *)

Lemma obtain_data_inline (P : Platform) (rs : packet) (o : language_options)
  (code : string) (d : bytes) (w : world) :
  includes ["refresh"; "none"] (cacheMethod o) = false ->
  exists k,
    obtain_data P rs o (LangInline code d) w =
      Yield {| vars := vars w;
               trace := trace w ++ [Invoke (adapter_readCache (cache_file o code))] |} k /\
    forall w',
      settled_with (k w') =
        Some (Returns
                (cached_or d
                   (answer_cache P
                      (trace w' ++ [Settle (adapter_readCache (cache_file o code))])
                      (adapter_readCache (cache_file o code))))).
Proof.
  intros H. unfold obtain_data, acatch, from_cache, abind. rewrite H. simpl.
  eexists. split; [reflexivity|]. intros w'. simpl. unfold lift, settle.
  destruct (answer_cache P _ _) as [[cached|]|e]; reflexivity.
Qed.

(** C5, as the code has it.  [loadLanguage] with inline specs only: the
    network is never used and [langPath] is never read.  The cache is used
    like for any other spec: unless the cache is off, each load first asks
    [adapter.readCache] for its cache file (with default options it does,
    as soon as it starts) and takes the supplied bytes only if the cache has
    none; [adapter.writeCache] is called on no other file than the cache
    file, and not at all with cache behaviour ["none"].  On a cooperative
    platform the call resolves. *)
Theorem inline_specs_use_the_cache_but_no_network
  (P : Platform) (p : packet) (specs : list lang_spec) (o : language_options)
  (schedule : list nat) (w : world) :
  action p = "loadLanguage" ->
  payload_of p = PLoadLanguage (LangsArray specs) o ->
  (forall l, In l specs -> exists code d, l = LangInline code d) ->
  (forall code d w1,
      if includes ["refresh"; "none"] (cacheMethod o)
      then obtain_data P p o (LangInline code d) w1 = Yield w1 (aret d)
      else exists k,
          obtain_data P p o (LangInline code d) w1 =
            Yield {| vars := vars w1;
                     trace := trace w1 ++ [Invoke (adapter_readCache (cache_file o code))] |} k /\
          forall w',
            settled_with (k w') =
              Some (Returns
                      (cached_or d
                         (answer_cache P
                            (trace w' ++ [Settle (adapter_readCache (cache_file o code))])
                            (adapter_readCache (cache_file o code))))))
  /\ exists evs,
       trace (snd (worker P schedule p w)) = trace w ++ evs /\
       (forall e, In e evs -> is_network e = false) /\
       (forall path, In (Invoke (adapter_readCache path)) evs ->
          includes ["refresh"; "none"] (cacheMethod o) = false /\
          exists code d, In (LangInline code d) specs /\ path = cache_file o code) /\
       (forall path c, In (Invoke (adapter_writeCache path c)) evs ->
          cacheMethod o <> Some "none" /\
          exists code d, In (LangInline code d) specs /\ path = cache_file o code) /\
       (cacheMethod o = None ->
        forall code d, In (LangInline code d) specs ->
                       In (Invoke (adapter_readCache (cache_file o code))) evs) /\
       (cooperative P o ->
        4 * length specs + 1 <= length schedule ->
        exists before,
          evs = before ++ [ Sent p progress
                              (DProgress (workerId p) None "loaded language traineddata" 1);
                            Sent p resolve (DLangs (LangsArray specs)) ]).
Proof.
  intros Ha Hpl Hinline. split.
  - intros code d w1.
    destruct (includes ["refresh"; "none"] (cacheMethod o)) eqn:Hc.
    + now rewrite obtain_data_cache_off.
    + now apply obtain_data_inline.
  - destruct (loadLanguage_events P p (LangsArray specs) o Ha Hpl schedule w)
      as [j [evs [_ [Ht [Hq _]]]]].
    exists evs. split; [exact Ht|]. rewrite Forall_forall in Hq.
    split; [|split; [|split; [|split]]].
    + intros e Hin. destruct (is_network e) eqn:Hn; [|reflexivity].
      specialize (Hq _ Hin).
      inversion Hq as [l e' Hl Hle | | | |]; subst; try discriminate.
      destruct (load_event_network P p o l e Hle Hn) as [code [-> _]].
      destruct (Hinline _ Hl) as [code' [d Heq]]. discriminate.
    + intros path Hin. specialize (Hq _ Hin).
      inversion Hq as [l e Hl Hle | | | |]; subst.
      destruct (Hinline _ Hl) as [code [d ->]].
      apply load_event_readCache in Hle.
      destruct Hle as [[Hoff ->]|[code' [Heq _]]]; [eauto | discriminate].
    + intros path c Hin. specialize (Hq _ Hin).
      inversion Hq as [l e Hl Hle | | | |]; subst.
      destruct (Hinline _ Hl) as [code [d ->]].
      apply load_event_writeCache in Hle. destruct Hle as [Hon ->].
      split; [|eauto]. intros Hnone. rewrite Hnone in Hon. discriminate.
    + intros Hdefault code d Hin.
      rewrite (worker_loadLanguage P p (LangsArray specs) o Ha Hpl) in Ht. simpl in Ht.
      destruct (event_loop_inv P p (LangsArray specs) o schedule _ _
                  (snd (loadLanguage P p (LangsArray specs) o (attend p w)))
                  (proj1 (proj2 (loadLanguage_inv P p (LangsArray specs) o (attend p w))))
                  (proj1 (proj2 (proj2 (loadLanguage_inv P p (LangsArray specs) o (attend p w)))))
                  (proj1 (proj2 (proj2 (proj2 (loadLanguage_inv P p (LangsArray specs) o (attend p w)))))))
        as [[_ [evs2 [Ht2 _]]] _].
      rewrite Ht2 in Ht. clear Ht2.
      unfold loadLanguage, res, record in Ht. simpl in Ht.
      match type of Ht with context [start_all _ _ ?w1] =>
        destruct (start_all_trace P p o specs w1) as [_ [_ [_ Hst]]];
        destruct (start_all (loadAndGunzipFile P p o) specs w1) as [ps w2]
      end.
      simpl in Ht, Hst. rewrite Hst in Ht. rewrite <- !app_assoc in Ht.
      apply app_inv_head in Ht. subst evs.
      simpl. right. apply in_or_app. left. apply in_flat_map.
      exists (LangInline code d). split; [exact Hin|].
      unfold first_request. rewrite Hdefault. simpl. now left.
    + intros Hco Hlen.
      destruct (loadLanguage_resolves P p (LangsArray specs) o schedule w Ha Hpl Hco Hlen)
        as [before Hb].
      rewrite Ht in Hb. apply app_inv_head in Hb. eauto.
Qed.

(** The claim as it is worded (no cache reader, no cache writer, no
    network) fails: with default options, [loadLanguage] of an inline
    [{code: "eng", data}] calls [adapter.readCache] and [adapter.writeCache]. *)
Lemma inline_spec_still_calls_the_cache :
  ~ (forall e,
       In e (trace (snd (worker Sample.base [0; 0; 0]
                           (Sample.load_job (LangsArray [LangInline "eng" Sample.text]) None)
                           Sample.loaded))) ->
       is_readCache e = false /\ is_writeCache e = false /\ is_network e = false).
Proof.
  intros H.
  assert (Hin : In (Invoke (adapter_readCache "./eng.traineddata"))
                  (trace (snd (worker Sample.base [0; 0; 0]
                                 (Sample.load_job
                                    (LangsArray [LangInline "eng" Sample.text]) None)
                                 Sample.loaded)))).
  { vm_compute. tauto. }
  destruct (H _ Hin) as [Hr _]. discriminate.
Qed.

(** What that run puts on the trace, in full. *)
Lemma inline_spec_run :
  trace (snd (worker Sample.base [0; 0; 0]
                (Sample.load_job (LangsArray [LangInline "eng" Sample.text]) None)
                Sample.loaded))
  = [ Sent (Sample.load_job (LangsArray [LangInline "eng" Sample.text]) None) progress
        (DProgress "Worker-0" None "loading language traineddata" 0);
      Invoke (adapter_readCache "./eng.traineddata");
      Settle (adapter_readCache "./eng.traineddata");
      Invoke (FS_mkdir "/tessdata");
      Invoke (FS_writeFile "/tessdata/eng.traineddata" Sample.text);
      Invoke (adapter_writeCache "./eng.traineddata" Sample.text);
      Settle (adapter_writeCache "./eng.traineddata" Sample.text);
      Sent (Sample.load_job (LangsArray [LangInline "eng" Sample.text]) None) progress
        (DProgress "Worker-0" None "loaded language traineddata" 1);
      Sent (Sample.load_job (LangsArray [LangInline "eng" Sample.text]) None) resolve
        (DLangs (LangsArray [LangInline "eng" Sample.text])) ].
Proof. vm_compute. reflexivity. Qed.

(** * The theorems at work on the sample platform *)

Lemma sample_params_wf : obj_wf Sample.new_params.
Proof. repeat constructor; simpl; intuition discriminate. Defined.

Lemma sample_defaults_wf : obj_wf Sample.defaults.
Proof. repeat constructor; simpl; intuition discriminate. Defined.

Lemma sample_initialized_wf : obj_wf (params (vars Sample.initialized)).
Proof. repeat constructor; simpl; intuition discriminate. Defined.

Lemma sample_cooperative (cache : option string) :
  cooperative Sample.base (Sample.options cache).
Proof.
  repeat split; intros; try reflexivity;
    try (eexists; reflexivity); destruct c; eexists; reflexivity.
Defined.

Lemma setParameters_forwards_unprefixed_only_witness :
  obj_wf Sample.new_params /\
  api (vars Sample.initialized) = Some 2 /\
  (forall tr k v, answer_unit Sample.base tr (api_SetVariable 2 k v) = Returns tt) /\
  exists w' evs,
    setParameters Sample.base Sample.new_params (Some Sample.set_job) Sample.initialized
      = (Returns tt, w') /\
    trace w' = trace Sample.initialized ++ evs /\
    forall k v, In (k, v) Sample.new_params ->
      obj_get (params (vars w')) k = Some v /\
      if String.prefix "tessjs_" k
      then forall e, In e evs -> ~ is_SetVariable_of k e
      else In (Invoke (api_SetVariable 2 k v)) evs.
Proof.
  assert (H2 : api (vars Sample.initialized) = Some 2) by reflexivity.
  assert (H3 : forall tr k v,
             answer_unit Sample.base tr (api_SetVariable 2 k v) = Returns tt)
    by (intros; reflexivity).
  exact (conj sample_params_wf (conj H2 (conj H3
    (setParameters_forwards_unprefixed_only Sample.base Sample.new_params
       (Some Sample.set_job) 2 Sample.initialized sample_params_wf H2 H3)))).
Defined.

Lemma setParameters_twice_merges_witness :
  obj_wf (params (vars Sample.initialized)) /\
  obj_wf [("a", VNum 1)] /\ obj_wf [("b", VNum 2)] /\
  api (vars Sample.initialized) = Some 2 /\
  (forall tr k v, answer_unit Sample.base tr (api_SetVariable 2 k v) = Returns tt) /\
  exists w1 w2 calls1 calls2,
    setParameters Sample.base [("a", VNum 1)] (Some Sample.set_job) Sample.initialized
      = (Returns tt, w1) /\
    setParameters Sample.base [("b", VNum 2)] (Some Sample.set_job) w1 = (Returns tt, w2) /\
    (forall k, obj_get (params (vars w2)) k =
               match obj_get [("b", VNum 2)] k with
               | Some v => Some v
               | None => match obj_get [("a", VNum 1)] k with
                         | Some v => Some v
                         | None => obj_get (params (vars Sample.initialized)) k
                         end
               end) /\
    (forall k, In k (Object_keys (params (vars w2))) <->
               In k (Object_keys (params (vars Sample.initialized)))
               \/ In k (Object_keys [("a", VNum 1)])
               \/ In k (Object_keys [("b", VNum 2)])) /\
    ((forall k, In k (Object_keys [("a", VNum 1)]) -> ~ In k (Object_keys [("b", VNum 2)])) ->
     forall k v, In (k, v) [("a", VNum 1)] \/ In (k, v) [("b", VNum 2)] ->
                 obj_get (params (vars w2)) k = Some v) /\
    trace w1 = trace Sample.initialized ++ calls1
                 ++ [Sent Sample.set_job resolve (DParams (params (vars w1)))] /\
    trace w2 = trace w1 ++ calls2
                 ++ [Sent Sample.set_job resolve (DParams (params (vars w2)))] /\
    (forall e, In e (calls1 ++ calls2) -> exists k v, e = Invoke (api_SetVariable 2 k v)).
Proof.
  assert (Ha : obj_wf [("a", VNum 1)]) by (repeat constructor; simpl; tauto).
  assert (Hb : obj_wf [("b", VNum 2)]) by (repeat constructor; simpl; tauto).
  assert (H2 : api (vars Sample.initialized) = Some 2) by reflexivity.
  assert (H3 : forall tr k v,
             answer_unit Sample.base tr (api_SetVariable 2 k v) = Returns tt)
    by (intros; reflexivity).
  exact (conj sample_initialized_wf (conj Ha (conj Hb (conj H2 (conj H3
    (setParameters_twice_merges Sample.base [("a", VNum 1)] [("b", VNum 2)]
       Sample.set_job Sample.set_job 2 Sample.initialized
       sample_initialized_wf Ha Hb H2 H3)))))).
Defined.

Lemma initialize_again_ends_then_creates_witness :
  payload_of Sample.init_job = PInitialize (LangsString "eng") (VNum 1) /\
  api (vars Sample.initialized) = Some 2 /\
  TessModule (vars Sample.initialized) = Some 1 /\
  obj_wf (defaultParams Sample.base) /\
  (forall tr, answer_unit Sample.base tr (api_End 2) = Returns tt) /\
  (forall tr, exists a, answer_handle Sample.base tr TessBaseAPI_new = Returns a) /\
  (forall tr a, answer_unit Sample.base tr
                  (api_Init a (init_langs Sample.base (LangsString "eng")) (VNum 1))
                = Returns tt) /\
  exists w' a rest,
    initialize Sample.base Sample.init_job Sample.initialized = (Returns tt, w') /\
    trace w' =
      trace Sample.initialized
        ++ Sent Sample.init_job progress
             (DProgress (workerId Sample.init_job) None "initializing api" 0)
        :: Invoke (api_End 2)
        :: Invoke TessBaseAPI_new
        :: Invoke (api_Init a (init_langs Sample.base (LangsString "eng")) (VNum 1))
        :: rest /\
    precedes (Invoke (api_End 2)) (Invoke TessBaseAPI_new)
      (Sent Sample.init_job progress
         (DProgress (workerId Sample.init_job) None "initializing api" 0)
        :: Invoke (api_End 2)
        :: Invoke TessBaseAPI_new
        :: Invoke (api_Init a (init_langs Sample.base (LangsString "eng")) (VNum 1))
        :: rest) /\
    api (vars w') = Some a /\
    params (vars w') = defaultParams Sample.base.
Proof.
  assert (H1 : payload_of Sample.init_job = PInitialize (LangsString "eng") (VNum 1))
    by reflexivity.
  assert (H2 : api (vars Sample.initialized) = Some 2) by reflexivity.
  assert (H3 : TessModule (vars Sample.initialized) = Some 1) by reflexivity.
  assert (H5 : forall tr, answer_unit Sample.base tr (api_End 2) = Returns tt)
    by (intros; reflexivity).
  assert (H6 : forall tr, exists a, answer_handle Sample.base tr TessBaseAPI_new = Returns a)
    by (intros; eexists; reflexivity).
  assert (H7 : forall tr a, answer_unit Sample.base tr
                 (api_Init a (init_langs Sample.base (LangsString "eng")) (VNum 1))
               = Returns tt)
    by (intros; reflexivity).
  exact (conj H1 (conj H2 (conj H3 (conj sample_defaults_wf (conj H5 (conj H6 (conj H7
    (initialize_again_ends_then_creates Sample.base Sample.init_job
       (LangsString "eng") (VNum 1) 2 1 Sample.initialized
       H1 H2 H3 sample_defaults_wf H5 H6 H7)))))))).
Defined.

Lemma detect_failure_ends_and_rejects_witness :
  payload_of Sample.detect_job = PDetect (VRef 9) /\
  api (vars Sample.initialized) = Some 2 /\
  TessModule (vars Sample.initialized) = Some 1 /\
  (forall tr, exists ptr,
      answer_value (Sample.node false false false) tr (setImage (Some 2) (VRef 9) VUndefined)
      = Returns ptr) /\
  (forall tr, exists r,
      answer_handle (Sample.node false false false) tr OSResults_new = Returns r) /\
  (forall tr r,
      answer_bool (Sample.node false false false) tr (api_DetectOS 2 r) = Returns false) /\
  (forall tr, answer_unit (Sample.node false false false) tr (api_End 2) = Returns tt) /\
  (forall tr ptr,
      answer_unit (Sample.node false false false) tr (TessModule_free ptr) = Returns tt) /\
  exists w' r ptr,
    detect (Sample.node false false false) Sample.detect_job Sample.initialized
      = (Returns tt, w') /\
    trace w' =
      trace Sample.initialized
        ++ [ Invoke (setImage (Some 2) (VRef 9) VUndefined);
             Invoke OSResults_new;
             Invoke (api_DetectOS 2 r);
             Invoke (api_End 2);
             Invoke (TessModule_free ptr);
             Sent Sample.detect_job reject (DString "Failed to detect OS") ] /\
    responses (trace w') =
      responses (trace Sample.initialized) ++ [(reject, DString "Failed to detect OS")] /\
    forall d, ~ In (Sent Sample.detect_job resolve d)
                [ Invoke (setImage (Some 2) (VRef 9) VUndefined);
                  Invoke OSResults_new;
                  Invoke (api_DetectOS 2 r);
                  Invoke (api_End 2);
                  Invoke (TessModule_free ptr);
                  Sent Sample.detect_job reject (DString "Failed to detect OS") ].
Proof.
  assert (H1 : payload_of Sample.detect_job = PDetect (VRef 9)) by reflexivity.
  assert (H2 : api (vars Sample.initialized) = Some 2) by reflexivity.
  assert (H3 : TessModule (vars Sample.initialized) = Some 1) by reflexivity.
  assert (H4 : forall tr, exists ptr,
             answer_value (Sample.node false false false) tr
               (setImage (Some 2) (VRef 9) VUndefined) = Returns ptr)
    by (intros; eexists; reflexivity).
  assert (H5 : forall tr, exists r,
             answer_handle (Sample.node false false false) tr OSResults_new = Returns r)
    by (intros; eexists; reflexivity).
  assert (H6 : forall tr r,
             answer_bool (Sample.node false false false) tr (api_DetectOS 2 r)
             = Returns false)
    by (intros; reflexivity).
  assert (H7 : forall tr,
             answer_unit (Sample.node false false false) tr (api_End 2) = Returns tt)
    by (intros; reflexivity).
  assert (H8 : forall tr ptr,
             answer_unit (Sample.node false false false) tr (TessModule_free ptr)
             = Returns tt)
    by (intros; reflexivity).
  exact (conj H1 (conj H2 (conj H3 (conj H4 (conj H5 (conj H6 (conj H7 (conj H8
    (detect_failure_ends_and_rejects (Sample.node false false false) Sample.detect_job
       (VRef 9) 2 1 Sample.initialized H1 H2 H3 H4 H5 H6 H7 H8))))))))).
Defined.

Lemma sniffed_gzip_is_decompressed_before_write_witness :
  runs_to (obtain_data Sample.base
             (Sample.load_job (LangsArray [LangInline "eng" Sample.gzipped]) (Some "none"))
             (Sample.options (Some "none")) (LangInline "eng" Sample.gzipped) Sample.loaded)
    (Done (Returns Sample.gzipped) Sample.loaded) /\
  TessModule (vars Sample.loaded) = Some 1 /\
  runs_to (loadAndGunzipFile Sample.base
             (Sample.load_job (LangsArray [LangInline "eng" Sample.gzipped]) (Some "none"))
             (Sample.options (Some "none")) (LangInline "eng" Sample.gzipped) Sample.loaded)
    (gunzip_and_store Sample.base
       (Sample.load_job (LangsArray [LangInline "eng" Sample.gzipped]) (Some "none"))
       (Sample.options (Some "none")) "eng" Sample.gzipped Sample.loaded)
  /\ exists evs,
    trace (world_of (gunzip_and_store Sample.base
                       (Sample.load_job (LangsArray [LangInline "eng" Sample.gzipped])
                          (Some "none"))
                       (Sample.options (Some "none")) "eng" Sample.gzipped Sample.loaded))
      = trace Sample.loaded ++ evs /\
    gunzipped evs =
      (if is_gzip (fileType Sample.base Sample.gzipped) then [Sample.gzipped] else []) /\
    written evs =
      (if is_gzip (fileType Sample.base Sample.gzipped)
       then match answer_bytes Sample.base
                    (trace Sample.loaded ++ [Invoke (adapter_gunzip Sample.gzipped)])
                    (adapter_gunzip Sample.gzipped) with
            | Returns unzipped => [(data_file (Sample.options (Some "none")) "eng", unzipped)]
            | Throws _ => []
            end
       else [(data_file (Sample.options (Some "none")) "eng", Sample.gzipped)]) /\
    (is_gzip (fileType Sample.base Sample.gzipped) = true ->
     forall path c, precedes (Invoke (adapter_gunzip Sample.gzipped))
                      (Invoke (FS_writeFile path c)) evs).
Proof.
  assert (H1 : runs_to
                 (obtain_data Sample.base
                    (Sample.load_job (LangsArray [LangInline "eng" Sample.gzipped])
                       (Some "none"))
                    (Sample.options (Some "none")) (LangInline "eng" Sample.gzipped)
                    Sample.loaded)
                 (Done (Returns Sample.gzipped) Sample.loaded)).
  { rewrite obtain_data_cache_off by reflexivity.
    apply runs_on with (w' := Sample.loaded). apply runs_here. }
  assert (H2 : TessModule (vars Sample.loaded) = Some 1) by reflexivity.
  exact (conj H1 (conj H2
    (sniffed_gzip_is_decompressed_before_write Sample.base
       (Sample.load_job (LangsArray [LangInline "eng" Sample.gzipped]) (Some "none"))
       (Sample.options (Some "none")) (LangInline "eng" Sample.gzipped)
       Sample.gzipped 1 Sample.loaded Sample.loaded H1 H2))).
Defined.

(** On the sample platform: gzip bytes are written decompressed, plain
    bytes as they are. *)
Lemma sample_gzip_written_decompressed :
  written (trace (world_of (gunzip_and_store Sample.base
                              (Sample.load_job (LangsString "eng") None)
                              (Sample.options None) "eng" Sample.gzipped Sample.loaded)))
  = [("/tessdata/eng.traineddata", Sample.text)]
  /\ written (trace (world_of (gunzip_and_store Sample.base
                                 (Sample.load_job (LangsString "eng") None)
                                 (Sample.options None) "eng" Sample.text Sample.loaded)))
     = [("/tessdata/eng.traineddata", Sample.text)].
Proof. split; vm_compute; reflexivity. Qed.

Lemma cache_none_reads_only_the_source_witness :
  action (Sample.load_job (LangsArray [LangCode "eng"]) (Some "none")) = "loadLanguage" /\
  payload_of (Sample.load_job (LangsArray [LangCode "eng"]) (Some "none"))
    = PLoadLanguage (LangsArray [LangCode "eng"]) (Sample.options (Some "none")) /\
  cacheMethod (Sample.options (Some "none")) = Some "none" /\
  (forall l w1,
      obtain_data Sample.base (Sample.load_job (LangsArray [LangCode "eng"]) (Some "none"))
        (Sample.options (Some "none")) l w1
      = Yield w1 (from_source Sample.base (Sample.options (Some "none")) l))
  /\ exists evs,
       trace (snd (worker Sample.base [0; 0; 0]
                     (Sample.load_job (LangsArray [LangCode "eng"]) (Some "none"))
                     Sample.loaded))
         = trace Sample.loaded ++ evs /\
       (forall path, In (Invoke (adapter_readCache path)) evs ->
          is_remote Sample.base (langPath (Sample.options (Some "none"))) = false /\
          exists code, In (LangCode code) (lang_specs (LangsArray [LangCode "eng"])) /\
                       path = source_file (Sample.options (Some "none")) code) /\
       (forall path c, ~ In (Invoke (adapter_writeCache path c)) evs).
Proof.
  assert (H1 : action (Sample.load_job (LangsArray [LangCode "eng"]) (Some "none"))
               = "loadLanguage") by reflexivity.
  assert (H2 : payload_of (Sample.load_job (LangsArray [LangCode "eng"]) (Some "none"))
               = PLoadLanguage (LangsArray [LangCode "eng"]) (Sample.options (Some "none")))
    by reflexivity.
  assert (H3 : cacheMethod (Sample.options (Some "none")) = Some "none") by reflexivity.
  exact (conj H1 (conj H2 (conj H3
    (cache_none_reads_only_the_source Sample.base
       (Sample.load_job (LangsArray [LangCode "eng"]) (Some "none"))
       (LangsArray [LangCode "eng"]) (Sample.options (Some "none"))
       [0; 0; 0] Sample.loaded H1 H2 H3)))).
Defined.

Lemma inline_specs_use_the_cache_but_no_network_witness :
  action (Sample.load_job (LangsArray [LangInline "eng" Sample.text]) None) = "loadLanguage" /\
  payload_of (Sample.load_job (LangsArray [LangInline "eng" Sample.text]) None)
    = PLoadLanguage (LangsArray [LangInline "eng" Sample.text]) (Sample.options None) /\
  (forall l, In l [LangInline "eng" Sample.text] -> exists code d, l = LangInline code d) /\
  cacheMethod (Sample.options None) = None /\
  cooperative Sample.base (Sample.options None) /\
  4 * length [LangInline "eng" Sample.text] + 1 <= length [0; 0; 0; 0; 0] /\
  exists evs,
    trace (snd (worker Sample.base [0; 0; 0; 0; 0]
                  (Sample.load_job (LangsArray [LangInline "eng" Sample.text]) None)
                  Sample.loaded))
      = trace Sample.loaded ++ evs /\
    (forall e, In e evs -> is_network e = false) /\
    In (Invoke (adapter_readCache (cache_file (Sample.options None) "eng"))) evs /\
    exists before,
      evs = before
              ++ [ Sent (Sample.load_job (LangsArray [LangInline "eng" Sample.text]) None)
                     progress
                     (DProgress "Worker-0" None "loaded language traineddata" 1);
                   Sent (Sample.load_job (LangsArray [LangInline "eng" Sample.text]) None)
                     resolve (DLangs (LangsArray [LangInline "eng" Sample.text])) ].
Proof.
  assert (H1 : action (Sample.load_job (LangsArray [LangInline "eng" Sample.text]) None)
               = "loadLanguage") by reflexivity.
  assert (H2 : payload_of (Sample.load_job (LangsArray [LangInline "eng" Sample.text]) None)
               = PLoadLanguage (LangsArray [LangInline "eng" Sample.text])
                   (Sample.options None)) by reflexivity.
  assert (H3 : forall l, In l [LangInline "eng" Sample.text] ->
                         exists code d, l = LangInline code d)
    by (intros l [<-|[]]; eauto).
  assert (H4 : cacheMethod (Sample.options None) = None) by reflexivity.
  assert (H5 : 4 * length [LangInline "eng" Sample.text] + 1 <= length [0; 0; 0; 0; 0])
    by (simpl; lia).
  destruct (inline_specs_use_the_cache_but_no_network Sample.base
              (Sample.load_job (LangsArray [LangInline "eng" Sample.text]) None)
              [LangInline "eng" Sample.text] (Sample.options None)
              [0; 0; 0; 0; 0] Sample.loaded H1 H2 H3)
    as [_ [evs [Ht [Hnet [_ [_ [Hread Hres]]]]]]].
  refine (conj H1 (conj H2 (conj H3 (conj H4 (conj (sample_cooperative None) (conj H5 _)))))).
  exists evs. split; [exact Ht|]. split; [exact Hnet|]. split.
  - apply (Hread H4 "eng" Sample.text). now left.
  - exact (Hres (sample_cooperative None) H5).
Defined.

Lemma loadLanguage_splits_string_and_resolves_with_it_witness :
  action (Sample.load_job (LangsString "eng+fra") None) = "loadLanguage" /\
  payload_of (Sample.load_job (LangsString "eng+fra") None)
    = PLoadLanguage (LangsString "eng+fra") (Sample.options None) /\
  cooperative Sample.base (Sample.options None) /\
  4 * length (split_plus "eng+fra") + 1 <= length [1; 0; 1; 0; 1; 0; 0; 0; 0] /\
  split_plus "eng+fra" = ["eng"; "fra"] /\
  (exists j0 w0,
     dispatchHandlers Sample.base (Sample.load_job (LangsString "eng+fra") None) Sample.loaded
       = (Returns (Loading j0), w0) /\
     length (loads j0) = length (split_plus "eng+fra") /\
     Forall (fun pr => is_pending pr = true) (loads j0) /\
     trace w0 =
       trace Sample.loaded ++
       Sent (Sample.load_job (LangsString "eng+fra") None) progress
         (DProgress (workerId (Sample.load_job (LangsString "eng+fra") None)) None
            "loading language traineddata" 0)
       :: flat_map (first_request (Sample.options None))
            (map LangCode (split_plus "eng+fra"))) /\
  exists before,
    trace (snd (worker Sample.base [1; 0; 1; 0; 1; 0; 0; 0; 0]
                  (Sample.load_job (LangsString "eng+fra") None) Sample.loaded))
      = trace Sample.loaded ++ before
          ++ [ Sent (Sample.load_job (LangsString "eng+fra") None) progress
                 (DProgress (workerId (Sample.load_job (LangsString "eng+fra") None)) None
                    "loaded language traineddata" 1);
               Sent (Sample.load_job (LangsString "eng+fra") None) resolve
                 (DLangs (LangsString "eng+fra")) ] /\
    forall code, In code (split_plus "eng+fra") ->
      exists raw content,
        obtained Sample.base (Sample.options None) (LangCode code) raw
          (trace Sample.loaded) before /\
        stored Sample.base (Sample.options None) (TessModule (vars Sample.loaded)) code
          raw content (trace Sample.loaded) before.
Proof.
  assert (H1 : action (Sample.load_job (LangsString "eng+fra") None) = "loadLanguage")
    by reflexivity.
  assert (H2 : payload_of (Sample.load_job (LangsString "eng+fra") None)
               = PLoadLanguage (LangsString "eng+fra") (Sample.options None))
    by reflexivity.
  assert (H3 : 4 * length (split_plus "eng+fra") + 1 <= length [1; 0; 1; 0; 1; 0; 0; 0; 0])
    by (simpl; lia).
  destruct (loadLanguage_splits_string_and_resolves_with_it Sample.base
              (Sample.load_job (LangsString "eng+fra") None) "eng+fra"
              (Sample.options None) [1; 0; 1; 0; 1; 0; 0; 0; 0] Sample.loaded H1 H2)
    as [_ [Hstart [_ Hres]]].
  exact (conj H1 (conj H2 (conj (sample_cooperative None) (conj H3 (conj eq_refl
    (conj Hstart (Hres (sample_cooperative None) H3))))))).
Defined.

(** The two loads of ["eng+fra"] taking turns: both cache files are asked
    for before either answer arrives, and the two loads interleave. *)
Lemma eng_fra_interleaved :
  map (fun e => match e with
                | Invoke (adapter_readCache path) => ("readCache " ++ path)%string
                | Invoke (FS_writeFile path _) => ("writeFile " ++ path)%string
                | Invoke (adapter_writeCache path _) => ("writeCache " ++ path)%string
                | Sent _ resolve _ => "resolve"
                | _ => ""
                end)
    (filter (fun e => match e with
                      | Invoke (adapter_readCache _) | Invoke (FS_writeFile _ _)
                      | Invoke (adapter_writeCache _ _) | Sent _ resolve _ => true
                      | _ => false
                      end)
       (trace (snd (worker Sample.base [1; 0; 1; 0; 1; 0; 0; 0; 0]
                      (Sample.load_job (LangsString "eng+fra") None) Sample.loaded))))
  = [ "readCache ./eng.traineddata"; "readCache ./fra.traineddata";
      "readCache ./lang-data/fra.traineddata.gz";
      "readCache ./lang-data/eng.traineddata.gz";
      "writeFile /tessdata/fra.traineddata"; "writeCache ./fra.traineddata";
      "writeFile /tessdata/eng.traineddata"; "writeCache ./eng.traineddata";
      "resolve" ].
Proof. vm_compute. reflexivity. Qed.

(* ================================================================== *)
(** * More of the script                                               *)
(* ================================================================== *)

(** ** arrayBufferToBase64 *)

Section Base64.

Local Open Scope Z_scope.

Lemma byte_val_range (b : Byte.byte) : 0 <= byte_val b < 256.
Proof.
  unfold byte_val. pose proof (Byte.to_N_bounded b). lia.
Qed.

Lemma byte_of_val (b : Byte.byte) : byte_of (byte_val b) = b.
Proof.
  unfold byte_of, byte_val. rewrite N2Z.id, Byte.of_to_N. reflexivity.
Qed.

(** Below the bits of [x << k] there is nothing of [x]. *)
Lemma land_shiftl_low (x y k : Z) :
  0 <= k -> 0 <= y < 2 ^ k -> Z.land (Z.shiftl x k) y = 0.
Proof.
  intros Hk Hy.
  assert (Hy' : Z.land (Z.ones k) y = y).
  { rewrite Z.land_comm, Z.land_ones by exact Hk. now apply Z.mod_small. }
  rewrite <- Hy', Z.land_assoc, Z.land_ones by exact Hk.
  rewrite Z.shiftl_mul_pow2 by exact Hk.
  rewrite Z.mod_mul by (apply Z.pow_nonzero; lia).
  reflexivity.
Qed.

Lemma lor_shiftl_low (x y k : Z) :
  0 <= k -> 0 <= y < 2 ^ k -> Z.lor (Z.shiftl x k) y = x * 2 ^ k + y.
Proof.
  intros Hk Hy.
  pose proof (Z.add_lor_land (Z.shiftl x k) y) as H.
  rewrite land_shiftl_low in H by assumption.
  rewrite Z.shiftl_mul_pow2 in * by exact Hk. lia.
Qed.

(** [(x & m) >> n] for a mask [m] of [k] bits at [n]. *)
Lemma masked_field (x m n k : Z) :
  0 <= n -> 0 <= k -> Z.shiftr m n = Z.ones k ->
  Z.shiftr (Z.land x m) n = (x / 2 ^ n) mod 2 ^ k.
Proof.
  intros Hn Hk Hm.
  rewrite Z.shiftr_land, Hm, Z.land_ones by exact Hk.
  rewrite Z.shiftr_div_pow2 by exact Hn. reflexivity.
Qed.

Lemma low_bits (x k : Z) : 0 <= k -> forall m, m = Z.ones k -> Z.land x m = x mod 2 ^ k.
Proof. intros Hk m ->. now apply Z.land_ones. Qed.

(** Every index below 64 is the place of one character, which stands
    for it. *)
Lemma encodings_at_char (i : Z) :
  0 <= i < 64 ->
  exists c, encodings_at i = String c "" /\ sextet c = Some i /\ Ascii.eqb c "=" = false.
Proof.
  intros Hi.
  assert (Hall : forallb encodes (seq 0 64) = true) by (vm_compute; reflexivity).
  rewrite forallb_forall in Hall.
  specialize (Hall (Z.to_nat i)). rewrite in_seq in Hall.
  assert (H : encodes (Z.to_nat i) = true) by (apply Hall; lia).
  unfold encodes in H. unfold encodings_at.
  destruct (String.get (Z.to_nat i) encodings) as [c|]; [|discriminate].
  destruct (sextet c) as [j|] eqn:Ej; [|discriminate].
  apply andb_true_iff in H. destruct H as [Hj Hc].
  apply Z.eqb_eq in Hj. apply negb_true_iff in Hc.
  exists c. split; [reflexivity|]. split; [|exact Hc].
  rewrite Ej. f_equal. lia.
Qed.

(** The function, one group at a time, with the bit operations read as
    arithmetic. *)
Lemma base64_one (b0 : Byte.byte) :
  arrayBufferToBase64 [b0] =
  (encodings_at (byte_val b0 / 4) ++ encodings_at (byte_val b0 mod 4 * 16) ++ "==")%string.
Proof.
  cbn [arrayBufferToBase64].
  rewrite (masked_field (byte_val b0) 252 2 6) by (lia || reflexivity).
  rewrite (low_bits (byte_val b0) 2) by (lia || reflexivity).
  rewrite Z.shiftl_mul_pow2 by lia.
  pose proof (byte_val_range b0).
  replace ((byte_val b0 / 2 ^ 2) mod 2 ^ 6) with (byte_val b0 / 4)
    by (change (2 ^ 2) with 4; change (2 ^ 6) with 64; Z.div_mod_to_equations; lia).
  reflexivity.
Qed.

Lemma base64_two (b0 b1 : Byte.byte) :
  arrayBufferToBase64 [b0; b1] =
  (encodings_at (byte_val b0 / 4)
   ++ encodings_at (byte_val b0 mod 4 * 16 + byte_val b1 / 16)
   ++ encodings_at (byte_val b1 mod 16 * 4) ++ "=")%string.
Proof.
  cbn [arrayBufferToBase64].
  pose proof (byte_val_range b0). pose proof (byte_val_range b1).
  rewrite (lor_shiftl_low (byte_val b0) (byte_val b1) 8) by (change (2 ^ 8) with 256; lia).
  rewrite (masked_field _ 64512 10 6) by (lia || reflexivity).
  rewrite (masked_field _ 1008 4 6) by (lia || reflexivity).
  rewrite (low_bits _ 4) by (lia || reflexivity).
  rewrite Z.shiftl_mul_pow2 by lia.
  change (2 ^ 8) with 256. change (2 ^ 10) with 1024. change (2 ^ 6) with 64.
  change (2 ^ 4) with 16. change (2 ^ 2) with 4.
  f_equal; [|f_equal; [|f_equal]]; f_equal; Z.div_mod_to_equations; lia.
Qed.

Lemma base64_three (b0 b1 b2 : Byte.byte) (rest : bytes) :
  arrayBufferToBase64 (b0 :: b1 :: b2 :: rest) =
  ((encodings_at (byte_val b0 / 4)
    ++ encodings_at (byte_val b0 mod 4 * 16 + byte_val b1 / 16)
    ++ encodings_at (byte_val b1 mod 16 * 4 + byte_val b2 / 64)
    ++ encodings_at (byte_val b2 mod 64))
   ++ arrayBufferToBase64 rest)%string.
Proof.
  cbn [arrayBufferToBase64].
  pose proof (byte_val_range b0). pose proof (byte_val_range b1).
  pose proof (byte_val_range b2).
  rewrite (lor_shiftl_low (byte_val b0) (Z.shiftl (byte_val b1) 8) 16).
  2: lia.
  2: { rewrite Z.shiftl_mul_pow2 by lia. change (2 ^ 8) with 256.
       change (2 ^ 16) with 65536. lia. }
  rewrite Z.shiftl_mul_pow2 by lia.
  replace (byte_val b0 * 2 ^ 16 + byte_val b1 * 2 ^ 8)
    with (Z.shiftl (byte_val b0 * 256 + byte_val b1) 8)
    by (rewrite Z.shiftl_mul_pow2 by lia; change (2 ^ 8) with 256;
        change (2 ^ 16) with 65536; lia).
  rewrite lor_shiftl_low by (change (2 ^ 8) with 256; lia).
  rewrite (masked_field _ 16515072 18 6) by (lia || reflexivity).
  rewrite (masked_field _ 258048 12 6) by (lia || reflexivity).
  rewrite (masked_field _ 4032 6 6) by (lia || reflexivity).
  rewrite (low_bits _ 6) by (lia || reflexivity).
  change (2 ^ 8) with 256. change (2 ^ 18) with 262144. change (2 ^ 6) with 64.
  change (2 ^ 12) with 4096.
  f_equal. f_equal; [|f_equal; [|f_equal]]; f_equal; Z.div_mod_to_equations; lia.
Qed.

(** Induction on a buffer, three bytes at a time. *)
Lemma bytes_ind3 (Q : bytes -> Prop) :
  Q [] -> (forall b0, Q [b0]) -> (forall b0 b1, Q [b0; b1]) ->
  (forall b0 b1 b2 rest, Q rest -> Q (b0 :: b1 :: b2 :: rest)) ->
  forall bs, Q bs.
Proof.
  intros H0 H1 H2 H3.
  fix IH 1.
  intros [|b0 [|b1 [|b2 rest]]]; [exact H0 | apply H1 | apply H2 | apply H3, IH].
Qed.

(** Every index the function looks up is below 64. *)
Lemma sextet_ranges (b0 b1 b2 : Byte.byte) :
  0 <= byte_val b0 / 4 < 64 /\
  0 <= byte_val b0 mod 4 * 16 < 64 /\
  0 <= byte_val b0 mod 4 * 16 + byte_val b1 / 16 < 64 /\
  0 <= byte_val b1 mod 16 * 4 < 64 /\
  0 <= byte_val b1 mod 16 * 4 + byte_val b2 / 64 < 64 /\
  0 <= byte_val b2 mod 64 < 64.
Proof.
  pose proof (byte_val_range b0). pose proof (byte_val_range b1).
  pose proof (byte_val_range b2).
  repeat split; Z.div_mod_to_equations; lia.
Qed.

(** The bytes come back from the four sextets. *)
Lemma regroup (x0 x1 x2 : Z) :
  0 <= x0 < 256 -> 0 <= x1 < 256 -> 0 <= x2 < 256 ->
  x0 / 4 * 4 + (x0 mod 4 * 16) / 16 = x0 /\
  x0 / 4 * 4 + (x0 mod 4 * 16 + x1 / 16) / 16 = x0 /\
  (x0 mod 4 * 16 + x1 / 16) mod 16 * 16 + (x1 mod 16 * 4) / 4 = x1 /\
  (x0 mod 4 * 16 + x1 / 16) mod 16 * 16 + (x1 mod 16 * 4 + x2 / 64) / 4 = x1 /\
  (x1 mod 16 * 4 + x2 / 64) mod 4 * 64 + x2 mod 64 = x2.
Proof.
  intros. repeat split; Z.div_mod_to_equations; lia.
Qed.


Lemma append_assoc (s1 s2 s3 : string) :
  ((s1 ++ s2) ++ s3 = s1 ++ (s2 ++ s3))%string.
Proof. induction s1 as [|c s1 IH]; simpl; [reflexivity | now rewrite IH]. Qed.

(** The characters the function looks up for the group [b0 b1 b2]. *)
Ltac chars b0 b1 b2 :=
  let R := fresh "R" in
  pose proof (sextet_ranges b0 b1 b2) as R;
  destruct R as (R1 & R2 & R3 & R4 & R5 & R6);
  repeat match goal with
  | H : (0 <= ?i < 64)%Z |- context [encodings_at ?i] =>
      let c := fresh "c" in let He := fresh "He" in let Hs := fresh "Hs" in
      let Hn := fresh "Hn" in
      destruct (encodings_at_char i H) as (c & He & Hs & Hn); rewrite He; clear H
  end.

Ltac decode_step :=
  cbn [String.append base64_decode];
  repeat match goal with
  | H : sextet ?c = Some _ |- context [sextet ?c] => rewrite H
  | H : Ascii.eqb ?c "=" = false |- context [Ascii.eqb ?c "="] => rewrite H
  end.


(** X1.  [arrayBufferToBase64] writes four characters for every three
    bytes, the last group rounded up: a buffer of [n] bytes gives a string
    of [4 * ceil(n / 3)] characters. *)
Theorem base64_length (bs : bytes) :
  String.length (arrayBufferToBase64 bs) = (4 * ((List.length bs + 2) / 3))%nat.
Proof.
  induction bs as [|b0|b0 b1|b0 b1 b2 rest IH] using bytes_ind3.
  - reflexivity.
  - rewrite base64_one. chars b0 b0 b0. reflexivity.
  - rewrite base64_two. chars b0 b1 b1. reflexivity.
  - rewrite base64_three. chars b0 b1 b2. cbn [String.append String.length List.length].
    rewrite IH.
    replace (S (S (S (List.length rest))) + 2)%nat
      with (1 * 3 + (List.length rest + 2))%nat by lia.
    rewrite Nat.div_add_l by lia. lia.
Qed.


(** X3.  Nothing is lost in [arrayBufferToBase64]: decoding what it writes
    gives the bytes back, for every buffer.  (So two different buffers
    never give the same string.) *)
Theorem base64_round_trip (bs : bytes) :
  base64_decode (arrayBufferToBase64 bs) = Some bs.
Proof.
  induction bs as [|b0|b0 b1|b0 b1 b2 rest IH] using bytes_ind3.
  - reflexivity.
  - rewrite base64_one. chars b0 b0 b0. decode_step. cbn.
    destruct (regroup (byte_val b0) 0 0) as (E & _); try apply byte_val_range; try lia.
    rewrite E, byte_of_val. reflexivity.
  - rewrite base64_two. chars b0 b1 b1. decode_step. cbn.
    destruct (regroup (byte_val b0) (byte_val b1) 0) as (_ & E0 & E1 & _);
      try apply byte_val_range; try lia.
    rewrite E0, E1, !byte_of_val. reflexivity.
  - rewrite base64_three. chars b0 b1 b2. decode_step. rewrite IH.
    destruct (regroup (byte_val b0) (byte_val b1) (byte_val b2)) as (_ & E0 & _ & E1 & E2);
      try apply byte_val_range.
    rewrite E0, E1, E2, !byte_of_val. reflexivity.
Qed.

(** X4.  The groups of three bytes are encoded one by one: for a buffer
    whose length is a multiple of three, what follows it is encoded as if
    it stood alone. *)
Theorem base64_app (bs bs' : bytes) :
  (List.length bs mod 3 = 0)%nat ->
  arrayBufferToBase64 (bs ++ bs') = (arrayBufferToBase64 bs ++ arrayBufferToBase64 bs')%string.
Proof.
  induction bs as [|b0|b0 b1|b0 b1 b2 rest IH] using bytes_ind3; intros H.
  - reflexivity.
  - discriminate.
  - discriminate.
  - cbn [List.app]. rewrite !base64_three, IH.
    + now rewrite !append_assoc.
    + cbn [List.length] in H.
      replace (S (S (S (List.length rest)))) with (List.length rest + 1 * 3)%nat in H by lia.
      now rewrite Nat.Div0.mod_add in H.
Qed.

End Base64.

(** ** Handlers: what reaches the emitter *)

Lemma keeps_refl (w : world) : keeps w w.
Proof. split; reflexivity. Qed.

Lemma keeps_trans (w1 w2 w3 : world) : keeps w1 w2 -> keeps w2 w3 -> keeps w1 w3.
Proof. intros [A1 B1] [A2 B2]. split; congruence. Qed.

(** What a piece of synchronous code adds to the trace, from what its
    parts add. *)
Section Adds.

Variable Q : event -> Prop.
Hypothesis Q_invoke : forall c, Q (Invoke c).

Lemma adds_ret {A} (a : A) : adds Q (ret a).
Proof.
  intros w. split; [apply keeps_refl|]. exists []. simpl. now rewrite app_nil_r.
Qed.

Lemma adds_throw {A} (e : exn) : adds Q (@throw A e).
Proof.
  intros w. split; [apply keeps_refl|]. exists []. simpl. now rewrite app_nil_r.
Qed.

Lemma adds_get : adds Q get.
Proof.
  intros w. split; [apply keeps_refl|]. exists []. simpl. now rewrite app_nil_r.
Qed.

Lemma adds_set_api (a : option handle) : adds Q (set_api a).
Proof.
  intros w. split; [split; reflexivity|]. exists []. simpl. now rewrite app_nil_r.
Qed.

Lemma adds_set_params (o : obj) : adds Q (set_params o).
Proof.
  intros w. split; [split; reflexivity|]. exists []. simpl. now rewrite app_nil_r.
Qed.

Lemma adds_invoke {T} (answer : history -> ext -> outcome T) (c : ext) :
  adds Q (invoke answer c).
Proof.
  intros w. split; [split; reflexivity|]. exists [Invoke c]. simpl. auto.
Qed.

Lemma adds_res (p : packet) (st : status) (d : data) :
  Q (Sent p st d) -> adds Q (res p st d).
Proof.
  intros H w. split; [split; reflexivity|]. exists [Sent p st d]. simpl. auto.
Qed.

Lemma adds_bind {A B} (m : M A) (f : A -> M B) :
  adds Q m -> (forall a, adds Q (f a)) -> adds Q (bind m f).
Proof.
  intros Hm Hf w. unfold bind.
  destruct (Hm w) as [K [evs [Ht HQ]]].
  destruct (m w) as [[a|e] w1]; simpl in *.
  - destruct (Hf a w1) as [K' [evs' [Ht' HQ']]].
    split; [eapply keeps_trans; eassumption|].
    exists (evs ++ evs'). rewrite Ht', Ht, app_assoc. split; [reflexivity|].
    apply Forall_app; auto.
  - split; [exact K|]. eauto.
Qed.

Lemma adds_try_catch {A} (m : M A) (h : exn -> M A) :
  adds Q m -> (forall e, adds Q (h e)) -> adds Q (try_catch m h).
Proof.
  intros Hm Hh w. unfold try_catch.
  destruct (Hm w) as [K [evs [Ht HQ]]].
  destruct (m w) as [[a|e] w1]; simpl in *.
  - split; [exact K|]. eauto.
  - destruct (Hh e w1) as [K' [evs' [Ht' HQ']]].
    split; [eapply keeps_trans; eassumption|].
    exists (evs ++ evs'). rewrite Ht', Ht, app_assoc. split; [reflexivity|].
    apply Forall_app; auto.
Qed.

Lemma adds_forEach {A} (f : A -> M unit) (l : list A) :
  (forall x, adds Q (f x)) -> adds Q (forEach f l).
Proof.
  intros Hf. induction l as [|x l IH]; simpl.
  - apply adds_ret.
  - apply adds_bind; auto.
Qed.

Lemma adds_the_api (f : string) : adds Q (the_api f).
Proof.
  unfold the_api. apply adds_bind; [apply adds_get|].
  intros g. destruct (api g); [apply adds_ret | apply adds_throw].
Qed.

Lemma adds_the_module (f : string) : adds Q (the_module f).
Proof.
  unfold the_module. apply adds_bind; [apply adds_get|].
  intros g. destruct (TessModule g); [apply adds_ret | apply adds_throw].
Qed.

Lemma adds_getCore (P : Platform) (corePath : jsval) (p : packet) :
  Q (Invoke (adapter_getCore corePath)) -> (forall st d, Q (Sent p st d)) ->
  adds Q (getCore P corePath p).
Proof.
  intros Hi Hs w. unfold getCore. simpl. split; [split; reflexivity|].
  eexists. split; [rewrite <- app_assoc; reflexivity|].
  constructor; [exact Hi|]. apply Forall_forall. intros e He.
  apply in_map_iff in He. destruct He as [[st d] [<- _]]. apply Hs.
Qed.

End Adds.

Ltac adds_step :=
  lazymatch goal with
  | |- adds _ (bind _ _) => apply adds_bind; [|intros ?]
  | |- adds _ (try_catch _ _) => apply adds_try_catch; [|intros ?]
  | |- adds _ (ret _) => apply adds_ret
  | |- adds _ (throw _) => apply adds_throw
  | |- adds _ bad_payload => apply adds_throw
  | |- adds _ get => apply adds_get
  | |- adds _ (set_api _) => apply adds_set_api
  | |- adds _ (set_params _) => apply adds_set_params
  | |- adds _ (invoke _ _) => apply adds_invoke
  | |- adds _ (getCore _ _ _) => apply adds_getCore
  | |- adds _ (the_api _) => apply adds_the_api
  | |- adds _ (the_module _) => apply adds_the_module
  | |- adds _ (res _ _ _) => apply adds_res
  | |- adds _ (forEach _ _) => apply adds_forEach; intros ?
  | |- adds _ (match ?x with _ => _ end) => destruct x
  end.

Ltac adds_tac :=
  unfold api_call, module_call, call_unit, call_handle, call_value, call_bytes,
    call_bool, set_image;
  repeat adds_step.

Lemma unanswered_invoke (p : packet) (c : ext) : unanswered p (Invoke c).
Proof. split; [reflexivity|]. intros p' st d H. discriminate. Qed.

Lemma unanswered_progress (p : packet) (d : data) : unanswered p (Sent p progress d).
Proof. split; [reflexivity|]. intros p' st d' H. now injection H as <- _ _. Qed.

(** Code that answers the job of [p], from code that does not and a
    response at the end. *)
Section Answers.

Variable p : packet.

Lemma answers_res (st : status) (d : data) : st <> progress -> answers p (res p st d).
Proof.
  intros Hst w. split; [split; reflexivity|].
  exists [Sent p st d]. split; [reflexivity|]. simpl.
  exists [], st, d. auto.
Qed.

Lemma answers_throw {A} (e : exn) : answers p (@throw A e).
Proof.
  intros w. split; [apply keeps_refl|]. exists []. simpl.
  now rewrite app_nil_r.
Qed.

Lemma answers_bind {A B} (m : M A) (f : A -> M B) :
  adds (unanswered p) m -> (forall a, answers p (f a)) -> answers p (bind m f).
Proof.
  intros Hm Hf w. unfold bind.
  destruct (Hm w) as [K [evs [Ht HQ]]].
  destruct (m w) as [[a|e] w1]; simpl in *.
  - destruct (Hf a w1) as [K' [evs' [Ht' H']]].
    split; [eapply keeps_trans; eassumption|].
    exists (evs ++ evs'). rewrite Ht', Ht, app_assoc. split; [reflexivity|].
    destruct (fst (f a w1)).
    + destruct H' as [before [st [d [-> [Hb Hst]]]]].
      exists (evs ++ before), st, d. rewrite app_assoc.
      split; [reflexivity|]. split; [apply Forall_app; auto | exact Hst].
    + apply Forall_app; auto.
  - split; [exact K|]. eauto.
Qed.

Lemma answers_try_catch {A} (m : M A) (h : exn -> M A) :
  answers p m -> (forall e, answers p (h e)) -> answers p (try_catch m h).
Proof.
  intros Hm Hh w. unfold try_catch.
  destruct (Hm w) as [K [evs [Ht H]]].
  destruct (m w) as [[a|e] w1]; simpl in *.
  - split; [exact K|]. eauto.
  - destruct (Hh e w1) as [K' [evs' [Ht' H']]].
    split; [eapply keeps_trans; eassumption|].
    exists (evs ++ evs'). rewrite Ht', Ht, app_assoc. split; [reflexivity|].
    destruct (fst (h e w1)).
    + destruct H' as [before [st [d [-> [Hb Hst]]]]].
      exists (evs ++ before), st, d. rewrite app_assoc.
      split; [reflexivity|]. split; [apply Forall_app; auto | exact Hst].
    + apply Forall_app; auto.
Qed.

End Answers.

Ltac adds_unanswered :=
  adds_tac; auto using unanswered_invoke, unanswered_progress.

Ltac answers_step :=
  lazymatch goal with
  | |- answers _ (bind _ _) => apply answers_bind; [adds_unanswered|intros ?]
  | |- answers _ (try_catch _ _) => apply answers_try_catch; [|intros ?]
  | |- answers _ (throw _) => apply answers_throw
  | |- answers _ bad_payload => apply answers_throw
  | |- answers _ (res _ _ _) => apply answers_res; discriminate
  | |- answers _ (match ?x with _ => _ end) => destruct x
  end.

Ltac answers_tac :=
  unfold api_call, module_call, call_unit, call_handle, call_value, call_bytes,
    call_bool;
  repeat answers_step.

Section HandlersAnswer.

Variable P : Platform.
Variable p : packet.

Lemma setParameters_adds (_params : obj) : adds (unanswered p) (setParameters P _params None).
Proof. unfold setParameters. adds_unanswered. Qed.

Lemma setParameters_answers (_params : obj) : answers p (setParameters P _params (Some p)).
Proof. unfold setParameters. answers_tac. Qed.

Lemma initialize_answers : answers p (initialize P p).
Proof.
  unfold initialize. answers_tac. apply setParameters_adds.
Qed.

Lemma FS_answers : answers p (FS P p).
Proof. unfold FS. answers_tac. Qed.

Lemma threshold_answers : answers p (threshold P p).
Proof. unfold threshold. answers_tac. Qed.

Lemma getPDF_answers : answers p (getPDF P p).
Proof. unfold getPDF. answers_tac. Qed.

Lemma detect_answers : answers p (detect P p).
Proof. unfold detect. answers_tac. Qed.

Lemma terminate_answers : answers p (terminate P p).
Proof. unfold terminate. answers_tac. Qed.

End HandlersAnswer.

(** The [try] of [dispatchHandlers] around a handler that answers or
    throws: the job is answered, once. *)
Lemma dispatch_answers (P : Platform) (p : packet) (m : M unit) (w : world) :
  answers p m ->
  exists before st d w',
    try_catch (m ;; ret Idle)
      (fun err => res p reject (DString (toString err)) ;; ret Idle) w
    = (Returns Idle, w') /\
    keeps w w' /\
    trace w' = trace w ++ before ++ [Sent p st d] /\
    Forall (unanswered p) before /\ st <> progress.
Proof.
  intros Hm. destruct (Hm w) as [K [evs [Ht H]]].
  unfold try_catch, bind.
  destruct (m w) as [[[]|e] w1]; simpl in *.
  - destruct H as [before [st [d [-> [Hb Hst]]]]].
    exists before, st, d, w1. auto.
  - exists evs, reject, (DString (toString e)). eexists.
    split; [reflexivity|]. simpl. rewrite Ht, <- app_assoc.
    repeat split; try apply K; auto. discriminate.
Qed.

(** X5.  Seven of the ten handlers answer a job exactly once, whatever the
    engine does: [FS], [initialize], [setParameters], [threshold], [getPDF],
    [detect] and [terminate].  For a packet with one of these actions (and
    the payload of its action) [dispatchHandlers] returns with nothing left
    to do; all it has put on the trace are calls and [progress] responses
    for the packet, and then, last, one [resolve] or [reject] for the
    packet.  A failure inside a handler that has no [try] of its own ([FS],
    [getPDF], [setParameters]) is answered by the [catch] of the
    dispatcher.  The packet is the latest job, and [TessModule] is as it
    was. *)
Theorem handlers_answer_exactly_once (P : Platform) (p : packet) (h : handler_name)
    (w : world) :
  lookup (action p) = Own h ->
  answers_at_once h = true ->
  payload_for h (payload_of p) = true ->
  exists before st d w',
    dispatchHandlers P p w = (Returns Idle, w') /\
    trace w' = trace w ++ before ++ [Sent p st d] /\
    Forall (unanswered p) before /\
    st <> progress /\
    latestJob (vars w') = Some p /\
    TessModule (vars w') = TessModule (vars w).
Proof.
  intros Hl Hh _.
  assert (Hm : exists m : M unit, call_handler P h p = (m ;; ret Idle) /\ answers p m).
  { destruct h; try discriminate; simpl.
    - eexists; split; [reflexivity | apply FS_answers].
    - eexists; split; [reflexivity | apply initialize_answers].
    - destruct (payload_of p);
        try (exists bad_payload; split; [reflexivity | apply answers_throw]).
      eexists; split; [reflexivity | apply setParameters_answers].
    - eexists; split; [reflexivity | apply threshold_answers].
    - eexists; split; [reflexivity | apply getPDF_answers].
    - eexists; split; [reflexivity | apply detect_answers].
    - eexists; split; [reflexivity | apply terminate_answers]. }
  destruct Hm as [m [Em Hm]].
  unfold dispatchHandlers. rewrite Hl, Em.
  unfold bind at 1. unfold set_latestJob, bind, get, put. cbn [fst snd].
  match goal with |- context [try_catch _ _ ?w0] =>
    destruct (dispatch_answers P p m w0 Hm) as (before & st & d & w' & E & [K1 K2] & Ht & Hb & Hst)
  end.
  exists before, st, d, w'. 
  split; [exact E|]. simpl in *. auto.
Qed.

Lemma on_emitter_invoke (p : packet) (c : ext) : on_emitter p (Invoke c).
Proof. intros p' st d H. discriminate. Qed.

Lemma on_emitter_sent (p : packet) (st : status) (d : data) : on_emitter p (Sent p st d).
Proof. intros p' st' d' H. now injection H as <- _ _. Qed.

Lemma job_event_on_emitter (P : Platform) (p : packet) (langs : langs_arg)
    (o : language_options) (e : event) :
  job_event P p langs o e -> on_emitter p e.
Proof.
  intros H. destruct H as [l e Hin He| | | |msg];
    try apply on_emitter_sent.
  destruct He; try apply on_emitter_invoke; try apply on_emitter_sent;
    intros p' st d H'; discriminate.
Qed.

Ltac adds_on_emitter :=
  adds_tac; auto using on_emitter_invoke, on_emitter_sent.

(** Whatever the handler, what it does before it returns to the dispatcher
    is calls and responses for its own packet. *)
Lemma call_handler_adds (P : Platform) (p : packet) (h : handler_name) :
  adds (on_emitter p) (call_handler P h p).
Proof.
  destruct h; unfold call_handler.
  - unfold load. adds_on_emitter.
  - unfold FS. adds_on_emitter.
  - intros w. destruct (payload_of p) as [| |langs o| | | | | | |];
      try (split; [apply keeps_refl|]; exists []; simpl; now rewrite app_nil_r).
    destruct (loadLanguage_inv P p langs o w) as [[Hv [evs [Ht Hq]]] _].
    destruct (loadLanguage P p langs o w) as [j w1]. simpl in *.
    split; [unfold keeps; now rewrite Hv|].
    exists evs. split; [exact Ht|].
    eapply Forall_impl; [|exact Hq]. apply job_event_on_emitter.
  - unfold initialize, setParameters. adds_on_emitter.
  - unfold setParameters. adds_on_emitter.
  - unfold recognize. adds_on_emitter.
  - unfold threshold. adds_on_emitter.
  - unfold getPDF. adds_on_emitter.
  - unfold detect. adds_on_emitter.
  - unfold terminate. adds_on_emitter.
Qed.

(** The [try] of [dispatchHandlers] around a body that adds only events
    for the packet. *)
Lemma dispatch_caught (p : packet) (body : M background) (w : world) :
  adds (on_emitter p) body ->
  exists bg w' evs,
    (set_latestJob (Some p) ;;
     try_catch body (fun err => res p reject (DString (toString err)) ;; ret Idle)) w
    = (Returns bg, w') /\
    trace w' = trace w ++ evs /\
    Forall (on_emitter p) evs /\
    latestJob (vars w') = Some p /\
    TessModule (vars w') = TessModule (vars w).
Proof.
  intros Hbody.
  unfold bind at 1. unfold set_latestJob, bind, get, put. cbn [fst snd].
  match goal with |- context [try_catch _ _ ?w0] =>
    destruct (Hbody w0) as [[K1 K2] [evs [Ht Hq]]]; unfold try_catch;
    destruct (body w0) as [[bg|e] w1]
  end; simpl in *.
  - exists bg, w1, evs. auto.
  - unfold res, record, ret. simpl.
    eexists Idle, _, (evs ++ [Sent p reject (DString (toString e))]).
    split; [reflexivity|]. simpl. rewrite Ht, app_assoc.
    split; [reflexivity|]. split; [|auto].
    apply Forall_app. split; [exact Hq|]. constructor; [apply on_emitter_sent | constructor].
Qed.

Lemma handler_table_adds (P : Platform) (p : packet) :
  adds (on_emitter p)
    (match lookup (action p) with
     | Own h => call_handler P h p
     | Inherited _ => ret Idle
     | NotAFunction => throw not_a_function
     end).
Proof.
  destruct (lookup (action p)).
  - apply call_handler_adds.
  - apply adds_ret.
  - apply adds_throw.
Qed.

(** X6.  [dispatchHandlers] never throws, for any packet: whatever the
    action (one of the ten, a property every object inherits, or anything
    else) and whatever the engine and the adapter do, it returns.  By then
    the packet is the latest job, [TessModule] is as it was (only the
    [then] of [load] assigns it, later), and every response sent meanwhile
    was sent for this packet. *)
Theorem dispatch_never_throws (P : Platform) (p : packet) (w : world) :
  exists bg w' evs,
    dispatchHandlers P p w = (Returns bg, w') /\
    trace w' = trace w ++ evs /\
    Forall (on_emitter p) evs /\
    latestJob (vars w') = Some p /\
    TessModule (vars w') = TessModule (vars w).
Proof.
  unfold dispatchHandlers. apply dispatch_caught.
  destruct (lookup (action p)) as [h|name|].
  - apply call_handler_adds.
  - apply adds_ret.
  - apply adds_throw.
Qed.

(** ** Handlers, call by call

    A handler is run against every answer the platform can give to each
    of its calls in turn. *)

(** What a run is waiting on: the innermost subject of its [match]es. *)
Ltac stuck_on t :=
  lazymatch t with
  | match ?X with _ => _ end => stuck_on X
  | (match ?X with _ => _ end) _ => stuck_on X
  | _ => t
  end.

Ltac run :=
  repeat (cbv beta iota delta
            [try_catch bind get put ret throw invoke record res the_api the_module
             api_call module_call call_unit call_value call_bytes call_handle
             call_bool set_api set_params bad_payload when];
          cbn [vars trace fst snd TessModule api latestJob params];
          try match goal with
              | |- _ (match ?X with _ => _ end) =>
                  let x := stuck_on X in destruct x eqn:?
              end).

Ltac leaf :=
  cbv beta; repeat match goal with u : unit |- _ => destruct u end; rewrite <- ?app_assoc; eexists; split; [reflexivity|]; cbn.

Ltac settle_goal G :=
  run; try congruence; subst G; leaf.

Ltac settle_dispatch G :=
  unfold set_latestJob; run; try congruence; subst G; unfold attend;
  repeat match goal with H : _ = _ |- _ => rewrite H end;
  leaf.




(** X10.  [terminate] never touches the variables: with no API instance
    it makes no engine call and resolves with [{terminated: true}]; with
    one it calls [End] on it and resolves, or rejects with the error of
    [End]; and in each case [api] still refers to the instance
    afterwards. *)
Theorem terminate_keeps_the_instance (P : Platform) (p : packet) (w : world) :
  exists evs,
    terminate P p w = (Returns tt, {| vars := vars w; trace := trace w ++ evs |}) /\
    match api (vars w) with
    | None => evs = [Sent p resolve DTerminated]
    | Some a =>
        evs = [Invoke (api_End a);
               match answer_unit P (trace w ++ [Invoke (api_End a)]) (api_End a) with
               | Returns _ => Sent p resolve DTerminated
               | Throws e => Sent p reject (DString (toString e))
               end]
    end.
Proof.
  unfold terminate.
  match goal with |- exists evs, ?m = _ /\ _ =>
    set (G := fun r : outcome unit * world => exists evs,
      r = (Returns tt, {| vars := vars w; trace := trace w ++ evs |}) /\
      match api (vars w) with
      | None => evs = [Sent p resolve DTerminated]
      | Some a =>
          evs = [Invoke (api_End a);
                 match answer_unit P (trace w ++ [Invoke (api_End a)]) (api_End a) with
                 | Returns _ => Sent p resolve DTerminated
                 | Throws e => Sent p reject (DString (toString e))
                 end]
      end);
    change (G m)
  end.
  settle_goal G.
  all: repeat match goal with H : _ = _ |- _ => rewrite H end; reflexivity.
Qed.

(** X11.  Since [terminate] does not reset [api], two [terminate] jobs
    in a row call [End] twice on the same instance (each is resolved, when
    [End] returns). *)
Theorem terminate_twice_ends_twice (P : Platform) (p1 p2 : packet) (a : handle)
    (w : world) :
  action p1 = "terminate" ->
  action p2 = "terminate" ->
  api (vars w) = Some a ->
  (forall tr, answer_unit P tr (api_End a) = Returns tt) ->
  exists w1 w2,
    dispatchHandlers P p1 w = (Returns Idle, w1) /\
    dispatchHandlers P p2 w1 = (Returns Idle, w2) /\
    api (vars w2) = Some a /\
    trace w2 =
      trace w ++ [Invoke (api_End a); Sent p1 resolve DTerminated;
                  Invoke (api_End a); Sent p2 resolve DTerminated].
Proof.
  intros Ha1 Ha2 Hapi HEnd.
  assert (Hone : forall p w0, action p = "terminate" -> api (vars w0) = Some a ->
            dispatchHandlers P p w0 =
            (Returns Idle,
             {| vars := vars (attend p w0);
                trace := trace w0 ++ [Invoke (api_End a); Sent p resolve DTerminated] |})).
  { intros p w0 Ha H0. unfold dispatchHandlers. rewrite Ha.
    change (lookup "terminate") with (Own h_terminate).
    unfold call_handler, terminate, set_latestJob, try_catch, bind, get, put, call_unit,
      invoke, res, record, ret.
    simpl. rewrite H0, HEnd. simpl. now rewrite <- app_assoc. }
  eexists _, _. split; [apply Hone; assumption|].
  split; [apply Hone; [assumption | exact Hapi]|].
  split; [exact Hapi|]. simpl. now rewrite <- app_assoc.
Qed.

(** X12.  [FS] passes the call through: when the engine module is loaded
    it calls the named filesystem method with the arguments and resolves
    with what the method returned, or (through the [catch] of the
    dispatcher) rejects with what it threw.  Before [load], when
    [TessModule] is undefined, it makes no call and the job is rejected
    with the [TypeError] of reading [FS] of [undefined]. *)
Theorem FS_passes_the_call_through (P : Platform) (p : packet) (method : string)
    (args : list jsval) (w : world) :
  action p = "FS" ->
  payload_of p = PFS method args ->
  exists evs,
    dispatchHandlers P p w =
      (Returns Idle, {| vars := vars (attend p w); trace := trace w ++ evs |}) /\
    match TessModule (vars w) with
    | None =>
        evs = [Sent p reject
                 (DString "TypeError: Cannot read properties of undefined (reading 'FS')")]
    | Some _ =>
        evs = [Invoke (FS_method method args);
               match answer_value P (trace w ++ [Invoke (FS_method method args)])
                       (FS_method method args) with
               | Returns v => Sent p resolve (DValue v)
               | Throws e => Sent p reject (DString (toString e))
               end]
    end.
Proof.
  intros Ha Hp. unfold dispatchHandlers. rewrite Ha.
  change (lookup "FS") with (Own h_FS). unfold call_handler, FS. rewrite Hp.
  match goal with |- exists evs, ?m = _ /\ _ =>
    set (G := fun r : outcome background * world => exists evs,
      r = (Returns Idle, {| vars := vars (attend p w); trace := trace w ++ evs |}) /\
      match TessModule (vars w) with
      | None =>
          evs = [Sent p reject
                   (DString "TypeError: Cannot read properties of undefined (reading 'FS')")]
      | Some _ =>
          evs = [Invoke (FS_method method args);
                 match answer_value P (trace w ++ [Invoke (FS_method method args)])
                         (FS_method method args) with
                 | Returns v => Sent p resolve (DValue v)
                 | Throws e => Sent p reject (DString (toString e))
                 end]
      end);
    change (G m)
  end.
  settle_dispatch G.
  all: reflexivity.
Qed.

(** X13.  [getPDF], whatever the engine does.  Either every call returns,
    and then the calls are, in this order: the renderer is made,
    [BeginDocument], [AddImage] with [api] as it is (be it [null]),
    [EndDocument], [_free] of the renderer, and only then the read of
    [/tesseract-ocr.pdf]; and the job is resolved with the bytes that
    read returned.  Or a call throws, and then the job is rejected once
    (by the [catch] of the dispatcher), and the renderer has been freed
    only if [EndDocument] had been called on it. *)
Theorem getPDF_frees_the_renderer_then_reads (P : Platform) (p : packet)
    (title textonly : jsval) (w : world) :
  action p = "getPDF" ->
  payload_of p = PGetPDF title textonly ->
  exists evs,
    dispatchHandlers P p w =
      (Returns Idle, {| vars := vars (attend p w); trace := trace w ++ evs |}) /\
    ((exists r pdf,
        answer_handle P (trace w ++ [Invoke (TessPDFRenderer_new textonly)])
          (TessPDFRenderer_new textonly) = Returns r /\
        answer_bytes P
          (trace w ++ [Invoke (TessPDFRenderer_new textonly);
                       Invoke (pdf_BeginDocument r title);
                       Invoke (pdf_AddImage r (api (vars w)));
                       Invoke (pdf_EndDocument r);
                       Invoke (TessModule_free (VRef r));
                       Invoke (FS_readFile "/tesseract-ocr.pdf")])
          (FS_readFile "/tesseract-ocr.pdf") = Returns pdf /\
        evs = [Invoke (TessPDFRenderer_new textonly);
               Invoke (pdf_BeginDocument r title);
               Invoke (pdf_AddImage r (api (vars w)));
               Invoke (pdf_EndDocument r);
               Invoke (TessModule_free (VRef r));
               Invoke (FS_readFile "/tesseract-ocr.pdf");
               Sent p resolve (DBytes pdf)]) \/
     (exists msg,
        responses evs = [(reject, DString msg)] /\
        forall ptr, In (Invoke (TessModule_free ptr)) evs ->
                    exists r, ptr = VRef r /\ In (Invoke (pdf_EndDocument r)) evs)).
Proof.
  intros Ha Hp. unfold dispatchHandlers. rewrite Ha.
  change (lookup "getPDF") with (Own h_getPDF). unfold call_handler, getPDF. rewrite Hp.
  match goal with |- exists evs, ?m = _ /\ _ =>
    set (G := fun r : outcome background * world => exists evs,
      r = (Returns Idle, {| vars := vars (attend p w); trace := trace w ++ evs |}) /\
      ((exists r pdf,
          answer_handle P (trace w ++ [Invoke (TessPDFRenderer_new textonly)])
            (TessPDFRenderer_new textonly) = Returns r /\
          answer_bytes P
            (trace w ++ [Invoke (TessPDFRenderer_new textonly);
                         Invoke (pdf_BeginDocument r title);
                         Invoke (pdf_AddImage r (api (vars w)));
                         Invoke (pdf_EndDocument r);
                         Invoke (TessModule_free (VRef r));
                         Invoke (FS_readFile "/tesseract-ocr.pdf")])
            (FS_readFile "/tesseract-ocr.pdf") = Returns pdf /\
          evs = [Invoke (TessPDFRenderer_new textonly);
                 Invoke (pdf_BeginDocument r title);
                 Invoke (pdf_AddImage r (api (vars w)));
                 Invoke (pdf_EndDocument r);
                 Invoke (TessModule_free (VRef r));
                 Invoke (FS_readFile "/tesseract-ocr.pdf");
                 Sent p resolve (DBytes pdf)]) \/
       (exists msg,
          responses evs = [(reject, DString msg)] /\
          forall ptr, In (Invoke (TessModule_free ptr)) evs ->
                      exists r, ptr = VRef r /\ In (Invoke (pdf_EndDocument r)) evs)));
    change (G m)
  end.
  unfold set_latestJob; run; try congruence; subst G; unfold attend;
    rewrite <- ?app_assoc in *; cbn [app] in *;
    repeat match goal with H : TessModule _ = _ |- _ => rewrite H end; leaf.
  all: try (left; do 2 eexists; split; [reflexivity|]; split; [eassumption|]; reflexivity).
  all: right; eexists; (split; [reflexivity|]); intros ptr H; simpl in H.
  all: intuition (try discriminate).
  all: match goal with H : Invoke _ = Invoke _ |- _ => injection H as <- end.
  all: eexists; split; [reflexivity | simpl; auto 10].
Qed.

(** ** load *)

(** X14.  [load] when the engine module is there already: it sets the
    logging, and resolves at once with [{loaded: true}] (or rejects, should
    [setLogging] throw); [adapter.getCore] and the core are not called
    again, and nothing is left for later. *)
Theorem load_again_resolves_at_once (P : Platform) (p : packet) (corePath logging : jsval)
    (m : handle) (schedule : list nat) (w : world) :
  action p = "load" ->
  payload_of p = PLoad corePath logging ->
  TessModule (vars w) = Some m ->
  worker P schedule p w =
    (Idle,
     {| vars := vars (attend p w);
        trace := trace w ++
          [Invoke (setLogging logging);
           match answer_unit P (trace w ++ [Invoke (setLogging logging)])
                   (setLogging logging) with
           | Returns _ => Sent p resolve DLoaded
           | Throws e => Sent p reject (DString (toString e))
           end] |}).
Proof.
  intros Ha Hp Hm. unfold worker, dispatchHandlers. rewrite Ha.
  change (lookup "load") with (Own h_load). unfold call_handler, load. rewrite Hp.
  unfold set_latestJob, attend, try_catch, bind, get, put, call_unit, invoke, res, record, ret.
  cbn [vars trace fst snd TessModule api latestJob params]. rewrite Hm.
  destruct (answer_unit P _ _) as [[]|e]; cbn; rewrite <- ?app_assoc; reflexivity.
Qed.



Lemma fraction_of_bounds (percent : Z) :
  Qle 0%Q (fraction_of percent) /\
  ((percent <= 30)%Z -> Qeq (fraction_of percent) 0%Q) /\
  ((30 <= percent)%Z -> fraction_of percent = Qmake (percent - 30) 70) /\
  ((percent <= 100)%Z -> Qle (fraction_of percent) 1%Q).
Proof.
  unfold fraction_of.
  destruct (Qle_bool 0%Q (Qmake (percent - 30) 70)) eqn:E.
  - apply Qle_bool_iff in E. unfold Qle in E. simpl in E.
    repeat split; intros; unfold Qle, Qeq; simpl; lia.
  - assert (H : ~ Qle 0%Q (Qmake (percent - 30) 70)).
    { intros H. apply Qle_bool_iff in H. congruence. }
    unfold Qle in H. simpl in H.
    repeat split; intros; unfold Qle, Qeq; simpl; try lia.
Qed.

(** X16.  The [TesseractProgress] callback [load] hands to the core
    reports on the emitter of the latest job: called once some packet [p2]
    has been dispatched, it sends a [progress] response for [p2], whose
    data carry the worker id and the job id of the packet of the [load].
    The fraction is never negative, is zero up to 30 percent,
    [(percent - 30) / 70] from there on, and at most one up to 100
    percent. *)
Theorem TesseractProgress_reports_on_the_latest_job (P : Platform) (p1 p2 : packet)
    (percent : Z) (w : world) :
  exists bg w1,
    dispatchHandlers P p2 w = (Returns bg, w1) /\
    TesseractProgress p1 percent w1 =
      (Returns tt,
       {| vars := vars w1;
          trace := trace w1 ++
            [Sent p2 progress
               (DProgress (workerId p1) (Some (jobId p1)) "recognizing text"
                  (fraction_of percent))] |}) /\
    Qle 0%Q (fraction_of percent) /\
    ((percent <= 30)%Z -> Qeq (fraction_of percent) 0%Q) /\
    ((30 <= percent)%Z -> fraction_of percent = Qmake (percent - 30) 70) /\
    ((percent <= 100)%Z -> Qle (fraction_of percent) 1%Q).
Proof.
  destruct (dispatch_caught p2 _ w (handler_table_adds P p2))
    as (bg & w1 & evs & E & _ & _ & Hjob & _).
  exists bg, w1. split; [exact E|]. split; [|apply fraction_of_bounds].
  unfold TesseractProgress, bind, get. simpl. rewrite Hjob. reflexivity.
Qed.

(** ** setParameters and initialize, when something is missing *)

(** X17.  [setParameters] with no API instance ([api] is [null]).  When
    the mapping has a key to forward (one without the [tessjs_] prefix),
    the job is rejected with the [TypeError] of reading [SetVariable] of
    [null], and the retained parameters stay as they were.  When every key
    carries the prefix, nothing is forwarded, so nothing fails: the
    mapping is merged into the retained parameters and the job is resolved
    with the merged set. *)
Theorem setParameters_without_an_api (P : Platform) (p : packet) (_params : obj)
    (w : world) :
  action p = "setParameters" ->
  payload_of p = PSetParameters _params ->
  api (vars w) = None ->
  exists evs prms,
    dispatchHandlers P p w =
      (Returns Idle,
       {| vars := {| TessModule := TessModule (vars w); api := None;
                     latestJob := Some p; params := prms |};
          trace := trace w ++ evs |}) /\
    match forwarded _params with
    | [] =>
        prms = spread (params (vars w)) _params /\
        evs = [Sent p resolve (DParams prms)]
    | _ :: _ =>
        prms = params (vars w) /\
        evs = [Sent p reject
                 (DString "TypeError: Cannot read properties of null (reading 'SetVariable')")]
    end.
Proof.
  intros Ha Hp Hapi. unfold dispatchHandlers. rewrite Ha.
  change (lookup "setParameters") with (Own h_setParameters).
  unfold call_handler. rewrite Hp, setParameters_unfold.
  destruct (forwarded _params) as [|k ks].
  - do 2 eexists. split; [|split; reflexivity].
    unfold set_latestJob, try_catch, bind, get, put, set_params, res, record, ret.
    simpl. rewrite Hapi. reflexivity.
  - do 2 eexists. split; [|split; reflexivity].
    unfold set_latestJob, try_catch, bind, get, put. simpl.
    unfold forward, api_call, the_api, bind, get, res, record, ret, throw. simpl.
    rewrite Hapi. reflexivity.
Qed.

(** X18.  [initialize] when [Init] throws: after the first [progress]
    (and [End] on the instance there was, if any) the constructor is
    called, [Init] is called on the instance the constructor returned, and
    the job is rejected with the error of [Init]; nothing else happens, so
    no parameter is forwarded to the engine.  Afterwards [api] refers to
    that new instance, and the retained parameters are still those from
    before (they are reset only after [Init]). *)
Theorem initialize_failed_Init_keeps_the_new_instance (P : Platform) (p : packet)
    (_langs : langs_arg) (oem : jsval) (m : handle) (e : exn) (w : world) :
  payload_of p = PInitialize _langs oem ->
  TessModule (vars w) = Some m ->
  (forall tr a, answer_unit P tr (api_End a) = Returns tt) ->
  (forall tr, exists a', answer_handle P tr TessBaseAPI_new = Returns a') ->
  (forall tr a langs, answer_unit P tr (api_Init a langs oem) = Throws e) ->
  exists a' evs,
    initialize P p w =
      (Returns tt,
       {| vars := {| TessModule := Some m; api := Some a';
                     latestJob := latestJob (vars w); params := params (vars w) |};
          trace := trace w ++ evs |}) /\
    answer_handle P
      (trace w
         ++ Sent p progress (DProgress (workerId p) None "initializing api" 0)
         :: match api (vars w) with Some old => [Invoke (api_End old)] | None => [] end
         ++ [Invoke TessBaseAPI_new])
      TessBaseAPI_new = Returns a' /\
    evs =
      Sent p progress (DProgress (workerId p) None "initializing api" 0)
      :: match api (vars w) with Some old => [Invoke (api_End old)] | None => [] end
      ++ [Invoke TessBaseAPI_new;
          Invoke (api_Init a' (init_langs P _langs) oem);
          Sent p reject (DString (toString e))].
Proof.
  intros Hp Hm HEnd Hnew HInit. unfold initialize. rewrite Hp.
  set (G := fun r : outcome unit * world => exists a' evs,
    r = (Returns tt,
         {| vars := {| TessModule := Some m; api := Some a';
                       latestJob := latestJob (vars w); params := params (vars w) |};
            trace := trace w ++ evs |}) /\
    answer_handle P
      (trace w
         ++ Sent p progress (DProgress (workerId p) None "initializing api" 0)
         :: match api (vars w) with Some old => [Invoke (api_End old)] | None => [] end
         ++ [Invoke TessBaseAPI_new])
      TessBaseAPI_new = Returns a' /\
    evs =
      Sent p progress (DProgress (workerId p) None "initializing api" 0)
      :: match api (vars w) with Some old => [Invoke (api_End old)] | None => [] end
      ++ [Invoke TessBaseAPI_new;
          Invoke (api_Init a' (init_langs P _langs) oem);
          Sent p reject (DString (toString e))]).
  match goal with |- exists a' evs, ?it = _ /\ _ => change (G it) end.
  destruct (api (vars w)) as [old|] eqn:Hapi;
    repeat (cbv beta iota delta
              [try_catch bind get put set_api module_call api_call the_module the_api
               call_unit call_handle invoke res record ret throw];
            cbn [vars trace fst snd TessModule api latestJob params];
            try first
              [ rewrite Hapi | rewrite HEnd | rewrite Hm | rewrite HInit
              | match goal with
                | |- context [answer_handle P ?tr TessBaseAPI_new] =>
                    let a' := fresh "a'" in let Ha := fresh "Ha" in
                    destruct (Hnew tr) as [a' Ha]; rewrite Ha
                end ]);
    subst G; cbv beta; rewrite <- ?app_assoc in *; cbn [app] in *;
    (do 2 eexists; split; [reflexivity|]); (split; [eassumption | reflexivity]).
Qed.

(** ** loadLanguage: the parts of a run *)

Lemma promise_of_obeys_any {A} (Q : event -> Prop) (R : outcome A -> world -> Prop)
    (n : nat) (w : world) (s : step A) :
  obeys Q R n w s ->
  grows Q w (snd (promise_of s)) /\ promise_obeys Q R n (fst (promise_of s)).
Proof.
  intros H. destruct H as [n w0 [a|e] w Hg HR | n w0 w k Hg Hk]; simpl;
    (split; [assumption|]); eauto.
Qed.

(** The loads of a call, apart from the call itself: what they add to
    the trace are events of loads. *)
Section LoadsOnly.

Variable P : Platform.
Variable p : packet.
Variable langs : langs_arg.
Variable o : language_options.

Let Q := of_loads P p langs o.
Let R := fulfils P o.

Lemma load_obeys_own (_lang : lang_spec) (w : world) :
  In _lang (lang_specs langs) ->
  obeys Q R 4 w (loadAndGunzipFile P p o _lang w).
Proof.
  intros Hin. apply obeys_mono with (Q := load_event P p o _lang).
  - intros e He. exists _lang. auto.
  - apply loadAndGunzipFile_obeys.
Qed.

Lemma start_all_own (specs : list lang_spec) (w : world) :
  (forall l, In l specs -> In l (lang_specs langs)) ->
  grows Q w (snd (start_all (loadAndGunzipFile P p o) specs w)) /\
  Forall2 (promise_obeys Q R) (repeat 4 (length specs))
    (fst (start_all (loadAndGunzipFile P p o) specs w)).
Proof.
  revert w. induction specs as [|l specs IH]; intros w Hin; simpl.
  - split; [apply grows_refl | constructor].
  - unfold start.
    destruct (promise_of_obeys_any Q R 4 w (loadAndGunzipFile P p o l w)) as [Hg Hp].
    { apply load_obeys_own, Hin. now left. }
    destruct (promise_of (loadAndGunzipFile P p o l w)) as [pr w1]. simpl in Hg, Hp.
    destruct (IH w1) as [Hg2 Hps]; [intros l' Hl'; apply Hin; now right|].
    destruct (start_all (loadAndGunzipFile P p o) specs w1) as [ps w2]. simpl in *.
    split; [eapply grows_trans; eassumption | constructor; assumption].
Qed.

Lemma loadLanguage_own (w : world) :
  exists ls,
    trace (snd (loadLanguage P p langs o w)) = trace w ++ loading p :: ls /\
    Forall Q ls /\
    job_inv Q R (repeat 4 (length (lang_specs langs))) (fst (loadLanguage P p langs o w)) /\
    job_packet (fst (loadLanguage P p langs o w)) = p /\
    job_langs (fst (loadLanguage P p langs o w)) = langs /\
    continued (fst (loadLanguage P p langs o w)) = false.
Proof.
  unfold loadLanguage, res, record.
  match goal with |- context [start_all _ _ ?w1] =>
    destruct (start_all_own (lang_specs langs) w1 (fun l H => H))
      as [[_ [ls [Ht Hq]]] Hps];
    destruct (start_all (loadAndGunzipFile P p o) (lang_specs langs) w1) as [ps w2]
  end.
  simpl in *. exists ls. rewrite Ht, <- app_assoc. split; [reflexivity|].
  split; [exact Hq|]. split; [|auto]. constructor; simpl.
  - exact Hps.
  - apply first_rejection_None.
  - intros e He. apply first_rejection_Some in He.
    destruct (Forall2_In_r _ _ _ _ Hps He) as [n Hn]. exact Hn.
Qed.

(** A load is resumed: only its own events are added. *)
Lemma resume_own (ns : list nat) (j : language_job) (w : world) (i : nat)
    (k : world -> step bytes) :
  job_inv Q R ns j ->
  nth_error (loads j) i = Some (Pending k) ->
  grows Q w (snd (take_turn P (Resume i) j w)) /\
  (exists ns', job_inv Q R ns' (fst (take_turn P (Resume i) j w))) /\
  continued (fst (take_turn P (Resume i) j w)) = continued j.
Proof.
  intros [Hloads Hnone Hsome] Hi. simpl. rewrite Hi.
  destruct (Forall2_nth_error _ _ _ _ _ Hloads Hi) as [n [Hn [m [-> Hk]]]].
  destruct (promise_of_obeys_any Q R m w (k w) (Hk w)) as [Hg Hpr].
  destruct (promise_of (k w)) as [pr w']. simpl in *.
  split; [exact Hg|]. split; [|reflexivity].
  exists (replace_nth i m ns). constructor; simpl.
  - now apply Forall2_replace_nth.
  - intros Hnone'. destruct (all_rejection j) as [e|]; [discriminate|].
    apply Forall_replace_nth; auto.
  - intros e He. destruct (all_rejection j) as [e0|] eqn:E.
    + inversion He; subst. now apply Hsome.
    + destruct pr as [k'|a|e']; simpl in He; try discriminate.
      inversion He; subst. exact Hpr.
Qed.

Lemma own_answer_eq (j j' : language_job) :
  job_packet j' = job_packet j -> job_langs j' = job_langs j ->
  continued j' = continued j -> all_rejection j' = all_rejection j ->
  own_answer P j' = own_answer P j.
Proof. unfold own_answer. now intros -> -> -> ->. Qed.

(** Past the answer of a rejected call, the loads still pending run on. *)
Lemma event_loop_after_rejection (schedule : list nat) (ns : list nat) (j : language_job)
    (w : world) (e : exn) :
  job_inv Q R ns j -> continued j = true -> all_rejection j = Some e ->
  exists ls,
    trace (snd (event_loop P schedule j w)) = trace w ++ ls /\ Forall Q ls /\
    own_answer P (fst (event_loop P schedule j w)) = own_answer P j /\
    job_packet (fst (event_loop P schedule j w)) = job_packet j /\
    job_langs (fst (event_loop P schedule j w)) = job_langs j.
Proof.
  revert ns j w. induction schedule as [|c rest IH]; intros ns j w Hinv Hc He.
  - exists []. simpl. rewrite app_nil_r. auto.
  - rewrite event_loop_cons. destruct (enabled j) as [|t0 ts] eqn:Hen.
    + exists []. simpl. rewrite app_nil_r. auto.
    + assert (Hin : In (nth (c mod length (t0 :: ts)) (t0 :: ts) t0) (enabled j))
        by (rewrite Hen; apply picked_enabled).
      generalize dependent (nth (c mod length (t0 :: ts)) (t0 :: ts) t0).
      intros t Hin.
      destruct (take_turn_fields P t j w) as [Hp1 [Hl1 Hsticky]].
      specialize (Hsticky e He).
      apply in_enabled in Hin. destruct Hin as [[i [k [-> Hi]]]|[-> Hset]].
      * destruct (resume_own ns j w i k Hinv Hi) as [[_ [ls1 [Ht1 Hq1]]] [[ns1 Hinv1] Hc1]].
        rewrite Hc in Hc1.
        destruct (IH ns1 _ (snd (take_turn P (Resume i) j w)) Hinv1 Hc1 Hsticky)
          as [ls [Ht [Hq [Ha [Hp2 Hl2]]]]].
        exists (ls1 ++ ls). rewrite Ht, Ht1, app_assoc.
        split; [reflexivity|]. split; [apply Forall_app; auto|].
        split; [|split; congruence].
        rewrite Ha. apply own_answer_eq; congruence.
      * rewrite Hc in Hset. rewrite andb_false_r in Hset. discriminate.
Qed.

(** The whole run, from a job that has not been resumed yet. *)
Lemma event_loop_own (schedule : list nat) (ns : list nat) (j : language_job) (w : world) :
  job_inv Q R ns j -> continued j = false ->
  exists before after,
    trace (snd (event_loop P schedule j w)) =
      trace w ++ before ++ own_answer P (fst (event_loop P schedule j w)) ++ after /\
    Forall Q before /\ Forall Q after /\
    (all_rejection (fst (event_loop P schedule j w)) = None -> after = []) /\
    job_packet (fst (event_loop P schedule j w)) = job_packet j /\
    job_langs (fst (event_loop P schedule j w)) = job_langs j.
Proof.
  revert ns j w. induction schedule as [|c rest IH]; intros ns j w Hinv Hc.
  - exists [], []. simpl. unfold own_answer. rewrite Hc. simpl.
    rewrite app_nil_r. repeat split; auto.
  - rewrite event_loop_cons. destruct (enabled j) as [|t0 ts] eqn:Hen.
    + exists [], []. simpl. unfold own_answer. rewrite Hc. simpl.
      rewrite app_nil_r. repeat split; auto.
    + assert (Hin : In (nth (c mod length (t0 :: ts)) (t0 :: ts) t0) (enabled j))
        by (rewrite Hen; apply picked_enabled).
      generalize dependent (nth (c mod length (t0 :: ts)) (t0 :: ts) t0).
      intros t Hin.
      destruct (take_turn_fields P t j w) as [Hp1 [Hl1 _]].
      apply in_enabled in Hin. destruct Hin as [[i [k [-> Hi]]]|[-> Hset]].
      * destruct (resume_own ns j w i k Hinv Hi) as [[_ [ls1 [Ht1 Hq1]]] [[ns1 Hinv1] Hc1]].
        rewrite Hc in Hc1.
        destruct (IH ns1 _ (snd (take_turn P (Resume i) j w)) Hinv1 Hc1)
          as [before [after [Ht [Hb [Ha [Hn [Hp2 Hl2]]]]]]].
        exists (ls1 ++ before), after. rewrite Ht, Ht1, <- !app_assoc.
        split; [reflexivity|]. split; [apply Forall_app; auto|].
        split; [exact Ha|]. split; [exact Hn|]. split; congruence.
      * (* the call itself is resumed *)
        set (j1 := fst (take_turn P Continue j w)) in *.
        set (w1 := snd (take_turn P Continue j w)) in *.
        assert (Hj1 : continued j1 = true /\ all_rejection j1 = all_rejection j /\
                      loads j1 = loads j /\ trace w1 = trace w ++ own_answer P j1).
        { subst j1 w1. simpl. rewrite Hset. unfold own_answer, loadLanguage_continue.
          destruct (all_rejection j) as [err|] eqn:E; simpl.
          - rewrite ?E. destruct (isWebWorker P && isDOMException err) eqn:D; simpl;
              rewrite ?D, ?app_nil_r; auto.
          - rewrite ?E. unfold bind, res, record. simpl. rewrite <- app_assoc. auto. }
        destruct Hj1 as [Hc1 [Hr1 [Hlo1 Ht1]]].
        assert (Hinv1 : job_inv Q R ns j1).
        { destruct Hinv as [H1 H2 H3]. constructor; rewrite ?Hlo1, ?Hr1; assumption. }
        destruct (all_rejection j) as [err|] eqn:E.
        -- destruct (event_loop_after_rejection rest ns j1 w1 err Hinv1 Hc1 Hr1)
             as [ls [Ht [Hq [Ha [Hp2 Hl2]]]]].
           exists [], ls. rewrite Ht, Ht1, Ha, <- app_assoc. simpl.
           split; [reflexivity|]. split; [constructor|]. split; [exact Hq|].
           split; [|split; congruence].
           intros Hnone.
           rewrite (event_loop_rejection P rest j1 w1 err Hr1) in Hnone. discriminate.
        -- rewrite event_loop_at_rest.
           ++ exists [], []. simpl. rewrite Ht1, app_nil_r.
              split; [reflexivity|]. repeat split; auto.
           ++ unfold quiescent, enabled. rewrite Hc1, andb_false_r, app_nil_r, Hlo1.
              apply pending_from_nil. apply fulfilled_not_pending.
              unfold all_settled in Hset. rewrite E in Hset.
              now apply andb_true_iff in Hset.
Qed.

End LoadsOnly.

(** A run of [loadLanguage], whatever the platform and the schedule: the
    first [progress]; then events of the loads; then, once the call has been
    resumed, what it sends itself; and after that, when it was rejected,
    events of the loads that were still pending. *)
Lemma loadLanguage_shape (P : Platform) (p : packet) (langs : langs_arg)
    (o : language_options) (schedule : list nat) (w : world) :
  action p = "loadLanguage" ->
  payload_of p = PLoadLanguage langs o ->
  exists j before after,
    fst (worker P schedule p w) = Loading j /\
    trace (snd (worker P schedule p w)) =
      trace w ++ loading p :: before ++ own_answer P j ++ after /\
    Forall (of_loads P p langs o) before /\
    Forall (of_loads P p langs o) after /\
    (all_rejection j = None -> after = []) /\
    job_packet j = p /\ job_langs j = langs.
Proof.
  intros Ha Hp. rewrite (worker_loadLanguage P p langs o Ha Hp). simpl.
  destruct (loadLanguage_own P p langs o (attend p w))
    as [ls [Ht0 [Hq0 [Hinv [Hp0 [Hl0 Hc0]]]]]].
  destruct (event_loop_own P p langs o schedule _ _
              (snd (loadLanguage P p langs o (attend p w))) Hinv Hc0)
    as [before [after [Ht [Hb [Haf [Hn [Hp1 Hl1]]]]]]].
  eexists _, (ls ++ before), after. split; [reflexivity|].
  rewrite Ht, Ht0. simpl. rewrite <- !app_assoc. simpl.
  split; [reflexivity|]. split; [apply Forall_app; auto|].
  split; [exact Haf|]. split; [exact Hn|]. split; congruence.
Qed.

Lemma of_loads_not_resolve (P : Platform) (p : packet) (langs : langs_arg)
    (o : language_options) (q : packet) (d : data) :
  ~ of_loads P p langs o (Sent q resolve d).
Proof. intros [l [_ H]]. inversion H. Qed.

Lemma of_loads_terminal (P : Platform) (p : packet) (langs : langs_arg)
    (o : language_options) (e : event) :
  of_loads P p langs o e -> terminalb e = true -> truthy_path (dataPath o) = true.
Proof.
  intros [l [_ H]] Ht. destruct H; simpl in Ht; try discriminate; try assumption.
  all: unfold fetch_call in Ht; destruct (isWebWorker P); discriminate.
Qed.

Lemma Forall_not_In {A} (Q : A -> Prop) (l : list A) (x : A) :
  Forall Q l -> ~ Q x -> ~ In x l.
Proof. intros H Hx Hin. rewrite Forall_forall in H. auto. Qed.

Ltac in_cases :=
  repeat match goal with
         | H : _ \/ _ |- _ => destruct H
         | H : In _ (_ ++ _) |- _ => apply in_app_or in H
         | H : In _ (_ :: _) |- _ => simpl in H
         | H : In _ [] |- _ => destruct H
         | H : False |- _ => destruct H
         end;
  try discriminate;
  try match goal with
      | Hn : forall q d, ~ In (Sent q _ d) ?l, H : In (Sent _ _ _) ?l |- _ =>
          exact (Hn _ _ H)
      end.

(** X19.  A call of [loadLanguage] resolves at most once, and then last:
    whatever the platform and the schedule, either no [resolve] is sent at
    all, or exactly one is, for the packet and with [langs] as it came, as
    the last event of the run, when no load was rejected. *)
Theorem loadLanguage_resolves_last_and_once (P : Platform) (p : packet)
    (langs : langs_arg) (o : language_options) (schedule : list nat) (w : world) :
  action p = "loadLanguage" ->
  payload_of p = PLoadLanguage langs o ->
  exists j evs,
    worker P schedule p w = (Loading j, snd (worker P schedule p w)) /\
    trace (snd (worker P schedule p w)) = trace w ++ evs /\
    ((forall q d, ~ In (Sent q resolve d) evs) \/
     (exists before,
        evs = before ++ [Sent p resolve (DLangs langs)] /\
        (forall q d, ~ In (Sent q resolve d) before) /\
        all_rejection j = None /\ continued j = true)).
Proof.
  intros Ha Hp.
  destruct (loadLanguage_shape P p langs o schedule w Ha Hp)
    as (j & before & after & Hj & Ht & Hb & Haf & Hn & Hpj & Hlj).
  exists j. eexists. split; [rewrite <- Hj; now destruct (worker P schedule p w)|].
  split; [exact Ht|].
  assert (Hnb : forall q d, ~ In (Sent q resolve d) before).
  { intros q d. apply Forall_not_In with (Q := of_loads P p langs o); [exact Hb|].
    apply of_loads_not_resolve. }
  assert (Hna : forall q d, ~ In (Sent q resolve d) after).
  { intros q d. apply Forall_not_In with (Q := of_loads P p langs o); [exact Haf|].
    apply of_loads_not_resolve. }
  unfold own_answer. rewrite Hpj, Hlj.
  destruct (continued j) eqn:Hc; [destruct (all_rejection j) as [e|] eqn:He|].
  - left. intros q d Hin.
    destruct (isWebWorker P && isDOMException e); in_cases.
  - right. rewrite (Hn eq_refl), app_nil_r.
    exists (loading p :: before ++
            [Sent p progress (DProgress (workerId p) None "loaded language traineddata" 1)]).
    split; [simpl; now rewrite <- app_assoc|]. split; [|auto].
    intros q d Hin. in_cases.
  - left. intros q d Hin. in_cases.
Qed.

Lemma In_replace_nth {A} (l : list A) (i : nat) (x y : A) :
  nth_error l i = Some y -> In x (replace_nth i x l).
Proof.
  revert i. induction l as [|a l IH]; intros [|i]; simpl; try discriminate; auto.
Qed.

Lemma In_replace_nth_other {A} (l : list A) (i : nat) (x y z : A) :
  nth_error l i = Some y -> In z l -> z <> y -> In z (replace_nth i x l).
Proof.
  revert i. induction l as [|a l IH]; intros [|i]; simpl; try discriminate.
  - intros E [->|H] Hne; [congruence | auto].
  - intros E [->|H] Hne; [auto | right; eapply IH; eassumption].
Qed.

Lemma take_turn_rejection_kept (P : Platform) (t : turn) (j : language_job) (w : world) :
  rejection_kept j -> rejection_kept (fst (take_turn P t j w)).
Proof.
  intros Hk. destruct t as [i|]; simpl.
  - destruct (nth_error (loads j) i) as [[k|a|e0]|] eqn:Hi; try exact Hk.
    destruct (promise_of (k w)) as [pr w']. intros e He. simpl in *.
    destruct (all_rejection j) as [e1|] eqn:E.
    + inversion He; subst.
      apply In_replace_nth_other with (y := Pending k); auto. discriminate.
    + destruct pr as [k'|a|e']; simpl in He; try discriminate.
      inversion He; subst. eapply In_replace_nth; eassumption.
  - destruct (all_settled j && negb (continued j)); [|exact Hk].
    destruct (loadLanguage_continue P j w). exact Hk.
Qed.

Lemma event_loop_rejection_kept (P : Platform) (schedule : list nat) (j : language_job)
    (w : world) :
  rejection_kept j -> rejection_kept (fst (event_loop P schedule j w)).
Proof.
  revert j w. induction schedule as [|c rest IH]; intros j w Hk; [exact Hk|].
  rewrite event_loop_cons. destruct (enabled j) as [|t0 ts]; [exact Hk|].
  apply IH. now apply take_turn_rejection_kept.
Qed.

Lemma loadLanguage_rejection_kept (P : Platform) (p : packet) (langs : langs_arg)
    (o : language_options) (w : world) :
  rejection_kept (fst (loadLanguage P p langs o w)).
Proof.
  unfold loadLanguage, res, record.
  match goal with |- context [start_all ?f ?l ?w1] => destruct (start_all f l w1) as [ps w2] end.
  simpl. intros e He. simpl in *. now apply first_rejection_Some.
Qed.

(** X20.  A rejected [loadLanguage], once the event loop has run long
    enough (four turns for each language and one more): the call is at
    rest; if [Promise.all] was rejected, it was with the rejection of one
    of the loads, no [resolve] has been sent, and the job has been rejected
    with that error, as a string; unless the script runs in a web worker
    and the error is a [DOMException]: then the [catch] block sends
    nothing, and (with no [dataPath], so that no load answers for a failed
    [mkdir]) the job is never answered. *)
Theorem loadLanguage_rejection_is_answered_or_swallowed (P : Platform) (p : packet)
    (langs : langs_arg) (o : language_options) (schedule : list nat) (w : world) :
  action p = "loadLanguage" ->
  payload_of p = PLoadLanguage langs o ->
  4 * length (lang_specs langs) + 1 <= length schedule ->
  exists j evs,
    worker P schedule p w = (Loading j, snd (worker P schedule p w)) /\
    trace (snd (worker P schedule p w)) = trace w ++ evs /\
    quiescent j /\
    forall e, all_rejection j = Some e ->
      In (Rejected e) (loads j) /\
      (forall q d, ~ In (Sent q resolve d) evs) /\
      if isWebWorker P && isDOMException e
      then truthy_path (dataPath o) = false ->
           Forall (fun ev => terminalb ev = false) evs
      else In (Sent p reject (DString (toString e))) evs.
Proof.
  intros Ha Hp Hlen.
  destruct (loadLanguage_shape P p langs o schedule w Ha Hp)
    as (j & before & after & Hj & Ht & Hb & Haf & Hn & Hpj & Hlj).
  destruct (loadLanguage_events P p langs o Ha Hp schedule w)
    as (j' & _ & Hj' & _ & _ & _ & _ & _ & Hq).
  rewrite Hj in Hj'. inversion Hj'; subst j'. specialize (Hq Hlen).
  exists j. eexists. split; [rewrite <- Hj; now destruct (worker P schedule p w)|].
  split; [exact Ht|]. split; [exact Hq|].
  intros e He.
  assert (Hc : continued j = true).
  { unfold quiescent, enabled in Hq. apply app_eq_nil in Hq. destruct Hq as [_ Hq].
    unfold all_settled in Hq. rewrite He in Hq. simpl in Hq.
    now destruct (continued j). }
  assert (Hk : rejection_kept j).
  { assert (E : j = fst (event_loop P schedule (fst (loadLanguage P p langs o (attend p w)))
                           (snd (loadLanguage P p langs o (attend p w))))).
    { rewrite (worker_loadLanguage P p langs o Ha Hp) in Hj. simpl in Hj.
      now inversion Hj. }
    rewrite E. apply event_loop_rejection_kept, loadLanguage_rejection_kept. }
  split; [now apply Hk|].
  assert (Hnb : forall q d, ~ In (Sent q resolve d) before).
  { intros q d. apply Forall_not_In with (Q := of_loads P p langs o); [exact Hb|].
    apply of_loads_not_resolve. }
  assert (Hna : forall q d, ~ In (Sent q resolve d) after).
  { intros q d. apply Forall_not_In with (Q := of_loads P p langs o); [exact Haf|].
    apply of_loads_not_resolve. }
  unfold own_answer. rewrite Hc, He, Hpj.
  destruct (isWebWorker P && isDOMException e) eqn:D.
  - split; [intros q d Hin; in_cases|].
    intros Hdp. simpl. constructor; [reflexivity|].
    apply Forall_app. split; eapply Forall_impl; try eassumption;
      intros ev Hev; destruct (terminalb ev) eqn:T; try reflexivity;
      pose proof (of_loads_terminal P p langs o ev Hev T); congruence.
  - split; [intros q d Hin; in_cases|].
    right. apply in_or_app. right. now left.
Qed.

(** X21.  [loadLanguage] touches only what belongs to its languages,
    whatever the platform and the schedule.  It fetches only
    [langPath/code.traineddata] (with [.gz] unless [gzip] is [false]) of a
    language given by code, only when [langPath] is remote, with the
    global [fetch] in a web worker and [adapter.fetch] elsewhere.  It
    writes to the filesystem of the engine only the file
    [dataPath/code.traineddata] of one of its languages ([.] for a missing
    [dataPath]); it writes to the cache only
    [cachePath/code.traineddata], and only when the cache method is
    [write], [refresh] or not given; it makes no directory but
    [dataPath]; and it reads, through [adapter.readCache], only the cache
    file of one of its languages (never when the cache method is [refresh]
    or [none]) or, when [langPath] is not remote, the file
    [langPath/code.traineddata] of a language given by code. *)
Theorem loadLanguage_touches_only_its_own_files (P : Platform) (p : packet)
    (langs : langs_arg) (o : language_options) (schedule : list nat) (w : world) :
  action p = "loadLanguage" ->
  payload_of p = PLoadLanguage langs o ->
  exists evs,
    trace (snd (worker P schedule p w)) = trace w ++ evs /\
    (forall url,
        In (Invoke (adapter_fetch url)) evs \/ In (Invoke (global_fetch url)) evs ->
        is_remote P (langPath o) = true /\
        exists code, In (LangCode code) (lang_specs langs) /\ url = source_file o code) /\
    (forall url, In (Invoke (adapter_fetch url)) evs -> isWebWorker P = false) /\
    (forall url, In (Invoke (global_fetch url)) evs -> isWebWorker P = true) /\
    (forall path content,
        In (Invoke (FS_writeFile path content)) evs ->
        exists l, In l (lang_specs langs) /\ path = data_file o (lang_code l)) /\
    (forall path content,
        In (Invoke (adapter_writeCache path content)) evs ->
        includes_or_undefined ["write"; "refresh"] (cacheMethod o) = true /\
        exists l, In l (lang_specs langs) /\ path = cache_file o (lang_code l)) /\
    (forall path,
        In (Invoke (FS_mkdir path)) evs ->
        truthy_path (dataPath o) = true /\ dataPath o = Some path) /\
    (forall path,
        In (Invoke (adapter_readCache path)) evs ->
        (includes ["refresh"; "none"] (cacheMethod o) = false /\
         exists l, In l (lang_specs langs) /\ path = cache_file o (lang_code l)) \/
        (is_remote P (langPath o) = false /\
         exists code, In (LangCode code) (lang_specs langs) /\ path = source_file o code)).
Proof.
  intros Ha Hp.
  destruct (loadLanguage_events P p langs o Ha Hp schedule w)
    as (j & evs & _ & Ht & Hq & _).
  exists evs. split; [exact Ht|].
  rewrite Forall_forall in Hq.
  assert (Hl : forall c, In (Invoke c) evs ->
             exists l, In l (lang_specs langs) /\ load_event P p o l (Invoke c)).
  { intros c Hin. specialize (Hq _ Hin). inversion Hq; subst. eauto. }
  split; [|split; [|split; [|split; [|split; [|split]]]]].
  - intros url H.
    assert (H' : exists c, (c = adapter_fetch url \/ c = global_fetch url) /\
                           In (Invoke c) evs)
      by (destruct H; eauto).
    destruct H' as [c [Hc Hin]]. apply Hl in Hin. destruct Hin as [l [Hin He]].
    inversion He; subst; try (destruct Hc; discriminate).
    split; [assumption|]. exists code. split; [assumption|].
    unfold fetch_call in *. destruct (isWebWorker P), Hc; congruence.
  - intros url H. apply Hl in H. destruct H as [l [_ H]]. inversion H; subst.
    unfold fetch_call in *. now destruct (isWebWorker P).
  - intros url H. apply Hl in H. destruct H as [l [_ H]]. inversion H; subst.
    unfold fetch_call in *. now destruct (isWebWorker P).
  - intros path content H. apply Hl in H. destruct H as [l [Hin H]].
    inversion H; subst; eauto.
    unfold fetch_call in *. destruct (isWebWorker P); discriminate.
  - intros path content H. apply Hl in H. destruct H as [l [Hin H]].
    inversion H; subst; eauto.
    unfold fetch_call in *. destruct (isWebWorker P); discriminate.
  - intros path H. apply Hl in H. destruct H as [l [Hin H]].
    inversion H; subst.
    + unfold fetch_call in *. destruct (isWebWorker P); discriminate.
    + split; [assumption|].
      unfold or_dot, truthy_path in *. destruct (dataPath o) as [[|c s]|]; try discriminate.
      reflexivity.
  - intros path H. apply Hl in H. destruct H as [l [Hin H]].
    apply load_event_readCache in H.
    destruct H as [[Hc ->]|[code [-> [Hr ->]]]]; [left | right]; eauto.
Qed.

(** X22.  No languages, two ways.  With an empty array there is nothing
    to wait for: at the first turn of the event loop the call sends its
    final [progress] and resolves with the empty array, having called
    neither adapter nor engine.  An empty string is not that: [split] gives
    one component, the empty code, so one load is started, and (unless
    the cache is off) it asks the cache for [cachePath/.traineddata]. *)
Theorem loadLanguage_of_nothing (P : Platform) (p : packet) (o : language_options)
    (c : nat) (schedule : list nat) (w : world) :
  action p = "loadLanguage" ->
  (payload_of p = PLoadLanguage (LangsArray []) o ->
   trace (snd (worker P (c :: schedule) p w)) =
     trace w ++
       [loading p;
        Sent p progress (DProgress (workerId p) None "loaded language traineddata" 1);
        Sent p resolve (DLangs (LangsArray []))]) /\
  (payload_of p = PLoadLanguage (LangsString "") o ->
   includes ["refresh"; "none"] (cacheMethod o) = false ->
   exists rest,
     trace (snd (dispatchHandlers P p w)) =
       trace w ++ [loading p; Invoke (adapter_readCache (cache_file o ""))] /\
     fst (dispatchHandlers P p w) = Returns (Loading rest) /\
     length (loads rest) = 1).
Proof.
  intros Ha. split.
  - intros Hp. rewrite (worker_loadLanguage P p (LangsArray []) o Ha Hp).
    cbn [snd]. unfold loadLanguage. cbn [lang_specs start_all res record fst snd].
    rewrite event_loop_cons. unfold enabled. cbn [loads pending_from all_settled
      all_rejection first_rejection forallb continued negb andb app length].
    rewrite Nat.mod_1_r. cbn [nth take_turn]. unfold all_settled.
    cbn [all_rejection first_rejection loads forallb continued negb andb].
    unfold loadLanguage_continue.
    cbn [all_rejection first_rejection job_packet job_langs].
    unfold bind, res, record. cbn [fst snd vars trace].
    rewrite event_loop_at_rest by reflexivity.
    cbn [snd trace]. now rewrite <- !app_assoc.
  - intros Hp Hc. rewrite (dispatch_loadLanguage P p (LangsString "") o Ha Hp).
    eexists. simpl. split; [|split; [reflexivity|]].
    + unfold loadLanguage. simpl.
      destruct (start_all_trace P p o [LangCode ""]
                  {| vars := vars (attend p w); trace := trace w ++ [loading p] |})
        as [_ [_ [_ Ht]]].
      unfold res, record. simpl in *.
      destruct (start (loadAndGunzipFile P p o (LangCode "")) _) as [pr w1] eqn:E.
      simpl in *. rewrite Ht. unfold first_request. rewrite Hc. simpl.
      now rewrite <- app_assoc.
    + unfold loadLanguage. simpl.
      destruct (start (loadAndGunzipFile P p o (LangCode "")) _) as [pr w1]. reflexivity.
Qed.

(** ** The languages of initialize and of loadLanguage *)

(** A string without ['+'] is one component. *)
Lemma split_plus_plain (x : string) : has_plus x = false -> split_plus x = [x].
Proof.
  induction x as [|c r IH]; simpl; [reflexivity|].
  intros H. apply orb_false_iff in H. destruct H as [Hc Hr].
  rewrite Hc, (IH Hr). reflexivity.
Qed.

Lemma split_plus_app (x s : string) :
  has_plus x = false -> split_plus (x ++ String "+" s) = x :: split_plus s.
Proof.
  induction x as [|c r IH]; simpl; [reflexivity|].
  intros H. apply orb_false_iff in H. destruct H as [Hc Hr].
  rewrite Hc, (IH Hr). reflexivity.
Qed.

(** [join('+')] and then [split('+')]: the components again, when there
    is one at least and none has a ['+']. *)
Lemma split_join (l : list string) :
  l <> [] -> Forall (fun c => has_plus c = false) l -> split_plus (join_plus l) = l.
Proof.
  induction l as [|x [|y r] IH]; intros Hne Hl.
  - congruence.
  - inversion Hl; subst. now apply split_plus_plain.
  - inversion Hl; subst.
    change (join_plus (x :: y :: r)) with (x ++ String "+" (join_plus (y :: r)))%string.
    rewrite split_plus_app by assumption. f_equal. apply IH; [discriminate | assumption].
Qed.

(** X23.  [initialize] and [loadLanguage] name the same languages.  The
    string [initialize] hands to [Init] for the array of components of a
    string is the string itself; and the string it hands to [Init] for an
    array of codes (not empty, no code with a ['+']) is split by
    [loadLanguage] into those codes again. *)
Theorem initialize_and_loadLanguage_name_the_same_languages (P : Platform) :
  (forall s, init_langs P (LangsArray (lang_specs (LangsString s))) = s) /\
  (forall codes,
      codes <> [] -> Forall (fun c => has_plus c = false) codes ->
      lang_specs (LangsString (init_langs P (LangsArray (map LangCode codes))))
      = map LangCode codes).
Proof.
  split.
  - intros s. simpl. rewrite map_map. simpl. rewrite map_id. apply join_split.
  - intros codes Hne Hc. simpl. rewrite map_map. simpl. rewrite map_id.
    now rewrite split_join.
Qed.

(** ** Who assigns the variables of the script *)

Section Untouched.

Context {X : Type}.
Variable f : globals -> X.

Lemma untouched_ret {A} (a : A) : untouched f (ret a).
Proof. intros w. reflexivity. Qed.

Lemma untouched_throw {A} (e : exn) : untouched f (@throw A e).
Proof. intros w. reflexivity. Qed.

Lemma untouched_get : untouched f get.
Proof. intros w. reflexivity. Qed.

Lemma untouched_invoke {T} (answer : history -> ext -> outcome T) (c : ext) :
  untouched f (invoke answer c).
Proof. intros w. reflexivity. Qed.

Lemma untouched_res (p : packet) (st : status) (d : data) : untouched f (res p st d).
Proof. intros w. reflexivity. Qed.

Lemma untouched_bind {A B} (m : M A) (k : A -> M B) :
  untouched f m -> (forall a, untouched f (k a)) -> untouched f (bind m k).
Proof.
  intros Hm Hk w. unfold bind. specialize (Hm w).
  destruct (m w) as [[a|e] w1]; simpl in *; [|exact Hm].
  now rewrite (Hk a w1).
Qed.

Lemma untouched_try_catch {A} (m : M A) (h : exn -> M A) :
  untouched f m -> (forall e, untouched f (h e)) -> untouched f (try_catch m h).
Proof.
  intros Hm Hh w. unfold try_catch. specialize (Hm w).
  destruct (m w) as [[a|e] w1]; simpl in *; [exact Hm|].
  now rewrite (Hh e w1).
Qed.

Lemma untouched_forEach {A} (g : A -> M unit) (l : list A) :
  (forall x, untouched f (g x)) -> untouched f (forEach g l).
Proof.
  intros Hg. induction l as [|x l IH]; simpl.
  - apply untouched_ret.
  - apply untouched_bind; auto.
Qed.

Lemma untouched_the_api (name : string) : untouched f (the_api name).
Proof.
  unfold the_api. apply untouched_bind; [apply untouched_get|].
  intros g. destruct (api g); [apply untouched_ret | apply untouched_throw].
Qed.

Lemma untouched_the_module (name : string) : untouched f (the_module name).
Proof.
  unfold the_module. apply untouched_bind; [apply untouched_get|].
  intros g. destruct (TessModule g); [apply untouched_ret | apply untouched_throw].
Qed.

End Untouched.

Ltac untouched_step :=
  lazymatch goal with
  | |- untouched _ (bind _ _) => apply untouched_bind; [|intros ?]
  | |- untouched _ (try_catch _ _) => apply untouched_try_catch; [|intros ?]
  | |- untouched _ (ret _) => apply untouched_ret
  | |- untouched _ (throw _) => apply untouched_throw
  | |- untouched _ bad_payload => apply untouched_throw
  | |- untouched _ get => apply untouched_get
  | |- untouched _ (set_api _) => intros ?; reflexivity
  | |- untouched _ (set_params _) => intros ?; reflexivity
  | |- untouched _ (invoke _ _) => apply untouched_invoke
  | |- untouched _ (getCore _ _ _) => intros ?; reflexivity
  | |- untouched _ (the_api _) => apply untouched_the_api
  | |- untouched _ (the_module _) => apply untouched_the_module
  | |- untouched _ (res _ _ _) => apply untouched_res
  | |- untouched _ (forEach _ _) => apply untouched_forEach; intros ?
  | |- untouched _ (match ?x with _ => _ end) => destruct x
  end.

Ltac untouched_tac :=
  unfold api_call, module_call, call_unit, call_handle, call_value, call_bytes,
    call_bool, set_image;
  repeat untouched_step.

(** An action that finds a handler is the name of the handler. *)
Lemma lookup_own (s : string) (h : handler_name) :
  lookup s = Own h -> In (s, h) supported_actions.
Proof.
  unfold lookup. destruct (assoc supported_actions s) as [h'|] eqn:E.
  - intros H. inversion H; subst. clear H.
    induction supported_actions as [|[k a] l IH]; simpl in *; [discriminate|].
    destruct (String.eqb_spec k s) as [->|Hne].
    + inversion E; subst. now left.
    + right. now apply IH.
  - destruct (existsb (String.eqb s) Object_prototype_functions); discriminate.
Qed.

Lemma lookup_own_action (s : string) (h : handler_name) :
  lookup s = Own h ->
  s = match h with
      | h_load => "load" | h_FS => "FS" | h_loadLanguage => "loadLanguage"
      | h_initialize => "initialize" | h_setParameters => "setParameters"
      | h_recognize => "recognize" | h_threshold => "threshold"
      | h_getPDF => "getPDF" | h_detect => "detect" | h_terminate => "terminate"
      end.
Proof.
  intros H. apply lookup_own in H. simpl in H.
  repeat (destruct H as [H|H]; [inversion H; reflexivity|]). destruct H.
Qed.

Lemma untouched_loadLanguage {X} (f : globals -> X) (P : Platform) (p : packet) :
  untouched f (call_handler P h_loadLanguage p).
Proof.
  intros w. simpl. destruct (payload_of p) as [| |langs o| | | | | | |]; try reflexivity.
  destruct (loadLanguage_inv P p langs o w) as [[Hv _] _].
  destruct (loadLanguage P p langs o w) as [j w1]. simpl in *. now rewrite Hv.
Qed.

(** What a handler assigns: none of them [TessModule] or [latestJob] before
    it returns; only [initialize] assigns [api]; only [initialize] and
    [setParameters] assign [params]. *)
Lemma call_handler_TessModule (P : Platform) (p : packet) (h : handler_name) :
  untouched TessModule (call_handler P h p).
Proof.
  destruct h; try apply untouched_loadLanguage; unfold call_handler;
    unfold load, FS, initialize, setParameters, recognize, threshold, getPDF, detect,
      terminate; untouched_tac.
Qed.

Lemma call_handler_latestJob (P : Platform) (p : packet) (h : handler_name) :
  untouched latestJob (call_handler P h p).
Proof.
  destruct h; try apply untouched_loadLanguage; unfold call_handler;
    unfold load, FS, initialize, setParameters, recognize, threshold, getPDF, detect,
      terminate; untouched_tac.
Qed.

Lemma call_handler_api (P : Platform) (p : packet) (h : handler_name) :
  h <> h_initialize -> untouched api (call_handler P h p).
Proof.
  intros Hne. destruct h; try congruence; try apply untouched_loadLanguage;
    unfold call_handler;
    unfold load, FS, setParameters, recognize, threshold, getPDF, detect, terminate;
    untouched_tac.
Qed.

Lemma call_handler_params (P : Platform) (p : packet) (h : handler_name) :
  h <> h_initialize -> h <> h_setParameters -> untouched params (call_handler P h p).
Proof.
  intros Hne Hne'. destruct h; try congruence; try apply untouched_loadLanguage;
    unfold call_handler;
    unfold load, FS, recognize, threshold, getPDF, detect, terminate;
    untouched_tac.
Qed.

(** The dispatcher around a handler that leaves [f] alone. *)
Lemma dispatch_untouched {X} (f : globals -> X) (P : Platform) (p : packet) (w : world) :
  (forall h, lookup (action p) = Own h -> untouched f (call_handler P h p)) ->
  f (vars (snd (dispatchHandlers P p w))) = f (vars (attend p w)).
Proof.
  intros Hh.
  assert (Hb : untouched f
            (try_catch
               (match lookup (action p) with
                | Own h => call_handler P h p
                | Inherited _ => ret Idle
                | NotAFunction => throw not_a_function
                end)
               (fun err => res p reject (DString (toString err)) ;; ret Idle))).
  { apply untouched_try_catch.
    - destruct (lookup (action p)) as [h|name|];
        [now apply Hh | apply untouched_ret | apply untouched_throw].
    - intros e. apply untouched_bind; [apply untouched_res | intros ?; apply untouched_ret]. }
  unfold dispatchHandlers. unfold bind at 1. unfold set_latestJob, bind, get, put.
  cbn [fst snd]. apply (Hb (attend p w)).
Qed.

(** What a handler can leave for the event loop. *)
Lemma then_Idle {A} (m : M A) (w w1 : world) (bg : background) :
  (m ;; ret Idle) w = (Returns bg, w1) -> bg = Idle.
Proof.
  unfold bind, ret. destruct (m w) as [[a|e] w2]; intros H; inversion H; reflexivity.
Qed.

Lemma load_background (P : Platform) (p : packet) (w w1 : world) (bg : background) :
  load P p w = (Returns bg, w1) ->
  bg = Idle \/ (exists core, bg = CoreThen p core) /\ TessModule (vars w) = None.
Proof.
  unfold load. destruct (payload_of p); try discriminate.
  unfold bind, get, call_unit, call_handle, invoke, res, record, ret. simpl.
  destruct (answer_unit P _ _) as [[]|e]; [|discriminate].
  simpl. destruct (TessModule (vars w)) as [m|].
  - intros H. inversion H. now left.
  - simpl. destruct (answer_handle P _ _) as [core|e]; [|discriminate].
    simpl. destruct (answer_unit P _ _) as [[]|e]; [|discriminate].
    intros H. inversion H. right. eauto.
Qed.

Lemma dispatch_background (P : Platform) (p : packet) (w w1 : world) (bg : background) :
  dispatchHandlers P p w = (Returns bg, w1) ->
  match bg with
  | Idle => True
  | CoreThen q core => action p = "load" /\ TessModule (vars w) = None
  | Loading j =>
      exists langs o,
        action p = "loadLanguage" /\ payload_of p = PLoadLanguage langs o
  end.
Proof.
  unfold dispatchHandlers. unfold bind at 1. unfold set_latestJob, bind, get, put.
  cbn [fst snd]. fold (attend p w). unfold try_catch.
  destruct (lookup (action p)) as [h|name|] eqn:Hl.
  - apply lookup_own_action in Hl.
    destruct (call_handler P h p (attend p w)) as [[bg'|e] w2] eqn:E.
    + intros H. inversion H; subst. clear H.
      destruct h; simpl in E;
        try (apply then_Idle in E; subst; exact I).
      * apply load_background in E. destruct E as [->|[[core ->] Hm]]; [exact I|].
        split; assumption.
      * destruct (payload_of p) as [| |langs o| | | | | | |] eqn:Hp;
          try (inversion E; exact I).
        destruct (loadLanguage P p langs o (attend p w)). inversion E. eauto.
      * destruct (payload_of p); try discriminate.
        apply then_Idle in E. subst. exact I.
    + unfold bind, res, record, ret. simpl. intros H. inversion H. exact I.
  - unfold ret. intros H. inversion H. exact I.
  - unfold throw, bind, res, record, ret. simpl. intros H. inversion H. exact I.
Qed.

(** X24.  Each variable of the script has its owners.  Whatever the
    packet, the platform and the schedule, when the worker has run on the
    packet: [api] is as it was unless the action is [initialize];
    [params] are as they were unless the action is [initialize] or
    [setParameters]; [TessModule] is as it was unless the action is
    [load], and a module that was there is never replaced, by [load]
    either; and the packet is the latest job.  (So [terminate], and a
    [detect] that has called [End], leave [api] referring to the ended
    instance.) *)
Theorem only_the_owner_assigns (P : Platform) (p : packet) (schedule : list nat)
    (w : world) :
  (action p <> "initialize" ->
   api (vars (snd (worker P schedule p w))) = api (vars w)) /\
  (action p <> "initialize" -> action p <> "setParameters" ->
   params (vars (snd (worker P schedule p w))) = params (vars w)) /\
  (action p <> "load" ->
   TessModule (vars (snd (worker P schedule p w))) = TessModule (vars w)) /\
  (forall m, TessModule (vars w) = Some m ->
             TessModule (vars (snd (worker P schedule p w))) = Some m) /\
  latestJob (vars (snd (worker P schedule p w))) = Some p.
Proof.
  assert (Hapi : action p <> "initialize" ->
                 api (vars (snd (dispatchHandlers P p w))) = api (vars w)).
  { intros Hne. rewrite dispatch_untouched; [reflexivity|].
    intros h Hl. apply call_handler_api. intros ->.
    apply lookup_own_action in Hl. contradiction. }
  assert (Hpar : action p <> "initialize" -> action p <> "setParameters" ->
                 params (vars (snd (dispatchHandlers P p w))) = params (vars w)).
  { intros Hne Hne'. rewrite dispatch_untouched; [reflexivity|].
    intros h Hl. apply call_handler_params; intros ->;
      apply lookup_own_action in Hl; contradiction. }
  assert (Hmod : TessModule (vars (snd (dispatchHandlers P p w))) = TessModule (vars w)).
  { rewrite dispatch_untouched; [reflexivity|].
    intros h _. apply call_handler_TessModule. }
  assert (Hjob : latestJob (vars (snd (dispatchHandlers P p w))) = Some p).
  { rewrite dispatch_untouched; [reflexivity|].
    intros h _. apply call_handler_latestJob. }
  unfold worker.
  destruct (dispatchHandlers P p w) as [[bg|e] w1] eqn:E; simpl in *;
    [|repeat split; auto; intros m Hm; now rewrite Hmod].
  pose proof (dispatch_background P p w w1 bg E) as Hbg.
  destruct bg as [|q core|j]; simpl.
  - repeat split; auto. intros m Hm. now rewrite Hmod.
  - destruct Hbg as [Ha Hnone].
    destruct schedule as [|c rest]; simpl.
    + repeat split; auto. intros m Hm. congruence.
    + unfold load_then, settle, set_TessModule, bind, get, put, res, record.
      destruct (answer_handle P _ _) as [m|e]; simpl;
        repeat split; auto; try congruence.
  - destruct Hbg as [langs [o [Ha Hp]]].
    rewrite (dispatch_loadLanguage P p langs o Ha Hp) in E. inversion E; subst.
    destruct (loadLanguage_inv P p langs o (attend p w)) as [_ [Hinv [Hp0 [Hl0 _]]]].
    destruct (event_loop_inv P p langs o schedule _ _
                (snd (loadLanguage P p langs o (attend p w))) Hinv Hp0 Hl0)
      as [[Hv _] _].
    destruct (event_loop P schedule _ _) as [j' w2]. simpl in *.
    rewrite Hv. repeat split; auto. intros m Hm. now rewrite Hmod.
Qed.

(** ** Handlers that find no API instance, and parameters on their way *)

(** X25.  [recognize], [threshold] and [detect] with no API instance
    ([api] is [null], as before [initialize]): whatever [setImage] and the
    engine do, the job is rejected once and never resolved; the only
    calls made are [setImage], with [null] for the instance, and for
    [detect] the construction of the results; and nothing is freed. *)
Theorem image_handlers_need_an_api (P : Platform) (p : packet) (h : handler_name)
    (w : world) :
  lookup (action p) = Own h ->
  needs_api h = true ->
  payload_for h (payload_of p) = true ->
  api (vars w) = None ->
  exists evs msg,
    dispatchHandlers P p w =
      (Returns Idle, {| vars := vars (attend p w); trace := trace w ++ evs |}) /\
    responses evs = [(reject, DString msg)] /\
    (forall c, In (Invoke c) evs ->
               (exists image angle, c = setImage None image angle) \/ c = OSResults_new).
Proof.
  intros Hl Hh Hp Hapi. unfold dispatchHandlers. rewrite Hl.
  set (G := fun r : outcome background * world => exists evs msg,
    r = (Returns Idle, {| vars := vars (attend p w); trace := trace w ++ evs |}) /\
    responses evs = [(reject, DString msg)] /\
    (forall c, In (Invoke c) evs ->
               (exists image angle, c = setImage None image angle) \/ c = OSResults_new)).
  match goal with |- exists evs msg, ?it = _ /\ _ => change (G it) end.
  destruct h; try discriminate; unfold call_handler, recognize, threshold, detect;
    destruct (payload_of p); try discriminate;
    unfold set_latestJob; run; try congruence; subst G; unfold attend; cbv beta;
    repeat match goal with H : _ = _ |- _ => rewrite H end;
    repeat match goal with u : unit |- _ => destruct u end;
    rewrite <- ?app_assoc; do 2 eexists; (split; [reflexivity|]);
    (split; [reflexivity|]);
    intros c Hin; simpl in Hin;
    repeat match goal with
           | H : _ \/ _ |- _ => destruct H as [H|H]
           | H : False |- _ => destruct H
           | H : Invoke _ = Invoke _ |- _ => injection H as <-
           | H : Sent _ _ _ = Invoke _ |- _ => discriminate H
           end; eauto.
Qed.

(** Whatever [recognize] hands to [dump], it is the instance and the
    retained parameters of the moment. *)
Lemma recognize_dump (P : Platform) (p : packet) (image : jsval) (rec : option rectangle)
    (angle : jsval) (w : world) :
  action p = "recognize" ->
  payload_of p = PRecognize image rec angle ->
  exists evs,
    dispatchHandlers P p w =
      (Returns Idle, {| vars := vars (attend p w); trace := trace w ++ evs |}) /\
    forall a prms, In (Invoke (dump a prms)) evs ->
                   a = api (vars w) /\ prms = params (vars w).
Proof.
  intros Ha Hp. unfold dispatchHandlers. rewrite Ha.
  change (lookup "recognize") with (Own h_recognize). unfold call_handler, recognize.
  rewrite Hp.
  set (G := fun r : outcome background * world => exists evs,
    r = (Returns Idle, {| vars := vars (attend p w); trace := trace w ++ evs |}) /\
    forall a prms, In (Invoke (dump a prms)) evs ->
                   a = api (vars w) /\ prms = params (vars w)).
  match goal with |- exists evs, ?it = _ /\ _ => change (G it) end.
  unfold set_latestJob, set_image; run; try congruence; subst G; unfold attend; cbv beta;
    repeat match goal with H : _ = _ |- _ => rewrite H end;
    repeat match goal with u : unit |- _ => destruct u end;
    rewrite <- ?app_assoc; eexists; (split; [reflexivity|]);
    intros a' prms Hin; simpl in Hin;
    repeat match goal with
           | H : _ \/ _ |- _ => destruct H as [H|H]
           | H : False |- _ => destruct H
           | H : Invoke _ = Invoke _ |- _ => inversion H; clear H; subst
           | H : Sent _ _ _ = Invoke _ |- _ => discriminate H
           end; auto.
Qed.

(** X26.  Parameters set are parameters used: after a [setParameters] job
    (on a live instance whose [SetVariable] returns) has been resolved with
    the merged parameters, a [recognize] job that gets as far as [dump]
    hands it the instance and exactly those merged parameters. *)
Theorem recognize_uses_the_parameters_set (P : Platform) (p1 p2 : packet) (_params : obj)
    (image : jsval) (rec : option rectangle) (angle : jsval) (a : handle) (w : world) :
  action p1 = "setParameters" ->
  payload_of p1 = PSetParameters _params ->
  action p2 = "recognize" ->
  payload_of p2 = PRecognize image rec angle ->
  api (vars w) = Some a ->
  (forall tr k v, answer_unit P tr (api_SetVariable a k v) = Returns tt) ->
  exists w1 w2 evs,
    dispatchHandlers P p1 w = (Returns Idle, w1) /\
    responses (trace w1) =
      responses (trace w) ++ [(resolve, DParams (spread (params (vars w)) _params))] /\
    dispatchHandlers P p2 w1 = (Returns Idle, w2) /\
    trace w2 = trace w1 ++ evs /\
    forall a' prms, In (Invoke (dump a' prms)) evs ->
                    a' = Some a /\ prms = spread (params (vars w)) _params.
Proof.
  intros Ha1 Hp1 Ha2 Hp2 Hapi Hset.
  assert (E1 : dispatchHandlers P p1 w =
               (Returns Idle,
                {| vars := with_params (vars (attend p1 w)) (spread (params (vars w)) _params);
                   trace := trace w ++ SetVariable_calls a _params (forwarded _params)
                              ++ [Sent p1 resolve (DParams (spread (params (vars w)) _params))] |})).
  { unfold dispatchHandlers. rewrite Ha1.
    change (lookup "setParameters") with (Own h_setParameters).
    unfold call_handler. rewrite Hp1.
    unfold bind at 1. unfold set_latestJob, bind, get, put. cbn [fst snd].
    fold (attend p1 w). unfold try_catch.
    rewrite (setParameters_run P _params (Some p1) a (attend p1 w)) by assumption.
    reflexivity. }
  destruct (recognize_dump P p2 image rec angle
              {| vars := with_params (vars (attend p1 w)) (spread (params (vars w)) _params);
                 trace := trace w ++ SetVariable_calls a _params (forwarded _params)
                            ++ [Sent p1 resolve (DParams (spread (params (vars w)) _params))] |}
              Ha2 Hp2) as [evs [E2 Hd]].
  eexists _, _, evs. split; [exact E1|]. split.
  - simpl. rewrite app_assoc, responses_app. simpl. f_equal.
    rewrite responses_app.
    assert (Hn : forall ks, responses (SetVariable_calls a _params ks) = []).
    { induction ks; simpl; auto. }
    rewrite Hn. now rewrite app_nil_r.
  - split; [exact E2|]. split; [reflexivity|].
    intros a' prms Hin. destruct (Hd a' prms Hin) as [-> ->]. simpl. auto.
Qed.

(** ** loadLanguage: runs that keep within bounds

    A run of an [async] function that, resumed in worlds in [I] only,
    adds only events in [Q]. *)

Section Tame.

Variable I : world -> Prop.
Variable Q : event -> Prop.
Hypothesis I_vars : forall w w', vars w' = vars w -> I w -> I w'.

Lemma I_grows (w w' : world) : grows Q w w' -> I w -> I w'.
Proof. intros [Hv _]. now apply I_vars. Qed.

Lemma tame_aret {A} (a : A) : tame I Q (aret a).
Proof. intros w _. split; [apply grows_refl | exact Logic.I]. Qed.

Lemma tame_athrow {A} (e : exn) : tame I Q (@athrow A e).
Proof. intros w _. split; [apply grows_refl | exact Logic.I]. Qed.

Lemma tame_lift {A} (m : M A) :
  (forall w, I w -> grows Q w (snd (m w))) -> tame I Q (lift m).
Proof.
  intros Hm w Hw. unfold lift. specialize (Hm w Hw).
  destruct (m w) as [out w1]. split; [exact Hm | exact Logic.I].
Qed.

Lemma tame_await {T} (answer : history -> ext -> outcome T) (c : ext) :
  Q (Invoke c) -> Q (Settle c) -> tame I Q (await answer c).
Proof.
  intros Hi Hs w Hw. unfold await, record. simpl. split.
  - now apply grows_event.
  - intros w' Hw'. unfold lift, settle. simpl. split; [now apply grows_event | exact Logic.I].
Qed.

Lemma tame_await_resolved {T} (v : T) : tame I Q (await_resolved v).
Proof.
  intros w Hw. unfold await_resolved. simpl. split; [apply grows_refl|].
  intros w' Hw'. split; [apply grows_refl | exact Logic.I].
Qed.

Lemma stays_bind {A B} (s : step A) (f : A -> Async B) (w0 : world) :
  I w0 -> grows Q w0 (world_of s) -> stays I Q s -> (forall a, tame I Q (f a)) ->
  grows Q w0 (world_of (step_bind s f)) /\ stays I Q (step_bind s f).
Proof.
  revert w0. induction s as [[a|e] w|w k IH]; intros w0 H0 Hg Hs Hf; simpl in *.
  - destruct (Hf a w (I_grows _ _ Hg H0)) as [Hg' Hs'].
    split; [eapply grows_trans; eassumption | exact Hs'].
  - split; [exact Hg | exact Logic.I].
  - split; [exact Hg|]. intros w' Hw'. destruct (Hs w' Hw') as [Hg' Hs'].
    now apply IH.
Qed.

Lemma tame_bind {A B} (m : Async A) (f : A -> Async B) :
  tame I Q m -> (forall a, tame I Q (f a)) -> tame I Q (abind m f).
Proof.
  intros Hm Hf w Hw. unfold abind. destruct (Hm w Hw) as [Hg Hs].
  now apply stays_bind.
Qed.

Lemma stays_catch {A} (s : step A) (h : exn -> Async A) (w0 : world) :
  I w0 -> grows Q w0 (world_of s) -> stays I Q s -> (forall e, tame I Q (h e)) ->
  grows Q w0 (world_of (step_catch s h)) /\ stays I Q (step_catch s h).
Proof.
  revert w0. induction s as [[a|e] w|w k IH]; intros w0 H0 Hg Hs Hh; simpl in *.
  - split; [exact Hg | exact Logic.I].
  - destruct (Hh e w (I_grows _ _ Hg H0)) as [Hg' Hs'].
    split; [eapply grows_trans; eassumption | exact Hs'].
  - split; [exact Hg|]. intros w' Hw'. destruct (Hs w' Hw') as [Hg' Hs'].
    now apply IH.
Qed.

Lemma tame_catch {A} (m : Async A) (h : exn -> Async A) :
  tame I Q m -> (forall e, tame I Q (h e)) -> tame I Q (acatch m h).
Proof.
  intros Hm Hh w Hw. unfold acatch. destruct (Hm w Hw) as [Hg Hs].
  now apply stays_catch.
Qed.

(** A promise made of a tame run. *)
Lemma promise_of_tame {A} (s : step A) (w : world) :
  grows Q w (world_of s) -> stays I Q s ->
  grows Q w (snd (promise_of s)) /\ pending_stays I Q (fst (promise_of s)).
Proof.
  destruct s as [[a|e] w1|w1 k]; simpl; intros Hg Hs; (split; [exact Hg|]);
    try exact Logic.I.
  exact Hs.
Qed.

End Tame.

(** A call of [loadLanguage] whose loads are tame. *)
Section TameJob.

Variable P : Platform.
Variable p : packet.
Variable o : language_options.
Variable I : world -> Prop.
Variable Q : event -> Prop.

Hypothesis I_vars : forall w w', vars w' = vars w -> I w -> I w'.
Hypothesis Q_sent : forall st d, Q (Sent p st d).
Hypothesis load_tame : forall l, tame I Q (loadAndGunzipFile P p o l).

Lemma start_all_tame (specs : list lang_spec) (w : world) :
  I w ->
  grows Q w (snd (start_all (loadAndGunzipFile P p o) specs w)) /\
  Forall (pending_stays I Q) (fst (start_all (loadAndGunzipFile P p o) specs w)).
Proof.
  revert w. induction specs as [|l specs IH]; intros w Hw; simpl.
  - split; [apply grows_refl | constructor].
  - unfold start. destruct (load_tame l w Hw) as [Hg Hs].
    destruct (promise_of_tame I Q _ w Hg Hs) as [Hg1 Hp1].
    destruct (promise_of (loadAndGunzipFile P p o l w)) as [pr w1]. simpl in *.
    destruct (IH w1) as [Hg2 Hps].
    { destruct Hg1 as [Hv _]. now apply (I_vars w). }
    destruct (start_all (loadAndGunzipFile P p o) specs w1) as [ps w2]. simpl in *.
    split; [eapply grows_trans; eassumption | constructor; assumption].
Qed.

Lemma take_turn_tame (t : turn) (j : language_job) (w : world) :
  job_packet j = p ->
  I w -> Forall (pending_stays I Q) (loads j) ->
  grows Q w (snd (take_turn P t j w)) /\
  Forall (pending_stays I Q) (loads (fst (take_turn P t j w))) /\
  job_packet (fst (take_turn P t j w)) = p.
Proof.
  intros Hp Hw Hl. destruct t as [i|]; simpl.
  - destruct (nth_error (loads j) i) as [[k|a|e]|] eqn:Hi;
      try (split; [apply grows_refl | split; [exact Hl | exact Hp]]).
    assert (Hk : tame I Q k).
    { rewrite Forall_forall in Hl. apply (Hl (Pending k)).
      eapply nth_error_In; eassumption. }
    destruct (Hk w Hw) as [Hg Hs].
    destruct (promise_of_tame I Q _ w Hg Hs) as [Hg1 Hp1].
    destruct (promise_of (k w)) as [pr w1]. simpl in *.
    split; [exact Hg1|]. split; [now apply Forall_replace_nth | exact Hp].
  - destruct (all_settled j && negb (continued j));
      [|split; [apply grows_refl | split; [exact Hl | exact Hp]]].
    unfold loadLanguage_continue. rewrite Hp.
    destruct (all_rejection j) as [err|].
    + destruct (isWebWorker P && isDOMException err); simpl.
      * split; [apply grows_refl | split; [exact Hl | reflexivity]].
      * split; [now apply grows_event | split; [exact Hl | reflexivity]].
    + unfold bind, res, record. simpl. split; [|split; [exact Hl | reflexivity]].
      split; [reflexivity|]. eexists. split; [now rewrite <- app_assoc|].
      repeat constructor; apply Q_sent.
Qed.

Lemma event_loop_tame (schedule : list nat) (j : language_job) (w : world) :
  job_packet j = p ->
  I w -> Forall (pending_stays I Q) (loads j) ->
  grows Q w (snd (event_loop P schedule j w)).
Proof.
  revert j w. induction schedule as [|c rest IH]; intros j w Hp Hw Hl.
  - apply grows_refl.
  - rewrite event_loop_cons. destruct (enabled j) as [|t0 ts]; [apply grows_refl|].
    generalize (nth (c mod length (t0 :: ts)) (t0 :: ts) t0). intros t.
    destruct (take_turn_tame t j w Hp Hw Hl) as [Hg [Hl1 Hp1]].
    eapply grows_trans; [exact Hg|]. apply IH; [exact Hp1| |exact Hl1].
    destruct Hg as [Hv _]. now apply (I_vars w).
Qed.

(** The whole run of the worker on the packet. *)
Lemma worker_tame (langs : langs_arg) (schedule : list nat) (w : world) :
  action p = "loadLanguage" ->
  payload_of p = PLoadLanguage langs o ->
  I (attend p w) ->
  exists evs,
    trace (snd (worker P schedule p w)) = trace w ++ evs /\ Forall Q evs.
Proof.
  intros Ha Hp Hw.
  rewrite (worker_loadLanguage P p langs o Ha Hp). simpl.
  assert (H0 : I {| vars := vars (attend p w); trace := trace w ++ [loading p] |})
    by (apply (I_vars (attend p w)); [reflexivity | exact Hw]).
  destruct (start_all_tame (lang_specs langs) _ H0) as [Hg1 Hl1].
  unfold loadLanguage at 1 2. unfold res, record. cbn [fst snd].
  fold (loading p).
  destruct (start_all (loadAndGunzipFile P p o) (lang_specs langs) _) as [ps w2] eqn:Es.
  cbn [fst snd] in *.
  match goal with |- context [event_loop P schedule ?j0 w2] =>
    pose proof (event_loop_tame schedule j0 w2 eq_refl) as Hloop
  end.
  cbn [loads] in Hloop.
  assert (H2 : I w2).
  { destruct Hg1 as [Hv _]. now apply (I_vars _ _ Hv). }
  specialize (Hloop H2 Hl1).
  destruct Hg1 as [_ [e1 [Ht1 Hq1]]]. destruct Hloop as [_ [e2 [Ht2 Hq2]]].
  exists ([loading p] ++ e1 ++ e2).
  split; [rewrite Ht2, Ht1; simpl; now rewrite <- !app_assoc|].
  apply Forall_app. split; [repeat constructor; apply Q_sent|].
  apply Forall_app. now split.
Qed.

End TameJob.

Section BeforeLoad.

Variable P : Platform.
Variable rs : packet.
Variable o : language_options.

Let Q := fun e : event => is_engine_write e = false.

Lemma no_module_vars (w w' : world) : vars w' = vars w -> no_module w -> no_module w'.
Proof. unfold no_module. now intros ->. Qed.

Lemma obtain_data_tame (_lang : lang_spec) : tame no_module Q (obtain_data P rs o _lang).
Proof.
  unfold obtain_data, from_cache, from_source.
  apply (tame_catch _ _ no_module_vars).
  - apply (tame_bind _ _ no_module_vars).
    + destruct (includes ["refresh"; "none"] (cacheMethod o)).
      * apply tame_await_resolved.
      * apply tame_await; reflexivity.
    + intros [d|].
      * apply (tame_bind _ _ no_module_vars); [|intros ?; apply tame_aret].
        apply tame_lift. intros w _. now apply grows_event.
      * apply tame_athrow.
  - intros e. destruct _lang as [code|code d].
    + destruct (is_remote P (langPath o)).
      * apply (tame_bind _ _ no_module_vars).
        -- apply tame_await; destruct (isWebWorker P); reflexivity.
        -- intros resp. apply tame_await; reflexivity.
      * apply (tame_bind _ _ no_module_vars); [|intros ?; apply tame_aret].
        apply tame_await; reflexivity.
    + apply tame_aret.
Qed.

Lemma gunzip_and_store_tame (lang : string) (content : bytes) :
  tame no_module Q (gunzip_and_store P rs o lang content).
Proof.
  unfold gunzip_and_store.
  apply (tame_bind _ _ no_module_vars).
  - apply tame_lift. intros w _. destruct (is_gzip (fileType P content)).
    + unfold call_bytes, invoke. simpl. now apply grows_event.
    + apply grows_refl.
  - intros unzipped. apply (tame_bind _ _ no_module_vars).
    + apply tame_lift. intros w Hw. unfold bind, get. simpl.
      unfold no_module in Hw. rewrite Hw. apply grows_refl.
    + intros []. apply (tame_bind _ _ no_module_vars); [|intros ?; apply tame_aret].
      destruct (includes_or_undefined ["write"; "refresh"] (cacheMethod o)).
      * apply tame_await; reflexivity.
      * apply tame_aret.
Qed.

Lemma loadAndGunzipFile_tame (_lang : lang_spec) :
  tame no_module Q (loadAndGunzipFile P rs o _lang).
Proof.
  unfold loadAndGunzipFile. apply (tame_bind _ _ no_module_vars).
  - apply obtain_data_tame.
  - intros content. apply gunzip_and_store_tame.
Qed.

End BeforeLoad.

(** X27.  [loadLanguage] before [load]: while the engine module is not
    there, nothing is written to the filesystem of the engine, and no
    directory is made, whatever the platform and the schedule.  The job
    is resolved all the same (on a cooperative platform, once the event
    loop has run long enough). *)
Theorem loadLanguage_before_load_stores_nothing (P : Platform) (p : packet)
    (langs : langs_arg) (o : language_options) (schedule : list nat) (w : world) :
  action p = "loadLanguage" ->
  payload_of p = PLoadLanguage langs o ->
  TessModule (vars w) = None ->
  exists evs,
    trace (snd (worker P schedule p w)) = trace w ++ evs /\
    Forall (fun e => is_engine_write e = false) evs /\
    (cooperative P o ->
     4 * length (lang_specs langs) + 1 <= length schedule ->
     exists before, evs = before ++ [Sent p resolve (DLangs langs)]).
Proof.
  intros Ha Hp Hm.
  destruct (worker_tame P p o no_module (fun e => is_engine_write e = false)
              no_module_vars (fun _ _ => eq_refl) (loadAndGunzipFile_tame P p o)
              langs schedule w Ha Hp Hm) as [evs [Ht Hq]].
  exists evs. split; [exact Ht|]. split; [exact Hq|].
  intros Hco Hlen.
  destruct (loadLanguage_resolves P p langs o schedule w Ha Hp Hco Hlen) as [before Hb].
  rewrite Ht in Hb. apply app_inv_head in Hb.
  exists (before ++
          [Sent p progress (DProgress (workerId p) None "loaded language traineddata" 1)]).
  rewrite Hb, <- app_assoc. reflexivity.
Qed.

(** The [try] and the [catch] of a load: the cache is asked first; what
    it has is taken, with a [progress]; when it has nothing, or fails, the
    source is turned to. *)
Lemma cache_first_then_the_source (P : Platform) (rs : packet) (o : language_options)
    (_lang : lang_spec) (w : world) :
  includes ["refresh"; "none"] (cacheMethod o) = false ->
  exists k,
    obtain_data P rs o _lang w =
      Yield {| vars := vars w;
               trace := trace w
                 ++ [Invoke (adapter_readCache (cache_file o (lang_code _lang)))] |} k /\
    forall w',
      k w' =
      match answer_cache P
              (trace w' ++ [Settle (adapter_readCache (cache_file o (lang_code _lang)))])
              (adapter_readCache (cache_file o (lang_code _lang))) with
      | Returns (Some d) =>
          Done (Returns d)
            {| vars := vars w';
               trace := (trace w'
                 ++ [Settle (adapter_readCache (cache_file o (lang_code _lang)))])
                 ++ [Sent rs progress
                       (DProgress (workerId rs) None
                          "loading language traineddata (from cache)" (Qmake 1 2))] |}
      | _ =>
          from_source P o _lang
            {| vars := vars w';
               trace := trace w'
                 ++ [Settle (adapter_readCache (cache_file o (lang_code _lang)))] |}
      end.
Proof.
  intros H. unfold obtain_data, acatch, from_cache, abind. rewrite H. simpl.
  eexists. split; [reflexivity|]. intros w'. simpl. unfold lift, settle.
  destruct (answer_cache P _ _) as [[cached|]|e]; reflexivity.
Qed.

Section WarmCache.

Variable P : Platform.
Variable rs : packet.
Variable o : language_options.

Hypothesis cache_on : includes ["refresh"; "none"] (cacheMethod o) = false.
Hypothesis cache_has :
  forall tr path, exists d, answer_cache P tr (adapter_readCache path) = Returns (Some d).

Let Q := fun e : event => is_network e = false.
Let anywhere := fun _ : world => True.

Lemma anywhere_vars (w w' : world) : vars w' = vars w -> anywhere w -> anywhere w'.
Proof. intros _ _. exact I. Qed.

Lemma obtain_data_warm (_lang : lang_spec) : tame anywhere Q (obtain_data P rs o _lang).
Proof.
  intros w _.
  destruct (cache_first_then_the_source P rs o _lang w cache_on) as [k [E Hk]].
  rewrite E. simpl. split; [now apply grows_event|].
  intros w' _. rewrite Hk.
  destruct (cache_has (trace w' ++ [Settle (adapter_readCache (cache_file o (lang_code _lang)))])
              (cache_file o (lang_code _lang))) as [d Hd].
  rewrite Hd. simpl. split; [|exact I].
  split; [reflexivity|]. eexists. split; [now rewrite <- app_assoc|].
  repeat constructor.
Qed.

Lemma gunzip_and_store_warm (lang : string) (content : bytes) :
  tame anywhere Q (gunzip_and_store P rs o lang content).
Proof.
  unfold gunzip_and_store.
  apply (tame_bind _ _ anywhere_vars).
  - apply tame_lift. intros w _. destruct (is_gzip (fileType P content)).
    + unfold call_bytes, invoke. simpl. now apply grows_event.
    + apply grows_refl.
  - intros unzipped. apply (tame_bind _ _ anywhere_vars).
    + apply tame_lift. intros w _. unfold bind, get. simpl.
      destruct (TessModule (vars w)) as [m|]; [|apply grows_refl].
      unfold when, try_catch, call_unit, invoke, res, record, ret, bind.
      destruct (truthy_path (dataPath o)); simpl.
      * destruct (answer_unit P _ (FS_mkdir _)) as [[]|err]; simpl;
          (split; [reflexivity|]); eexists;
          (split; [rewrite <- ?app_assoc; reflexivity|]); repeat constructor.
      * now apply grows_event.
    + intros []. apply (tame_bind _ _ anywhere_vars); [|intros ?; apply tame_aret].
      destruct (includes_or_undefined ["write"; "refresh"] (cacheMethod o)).
      * apply tame_await; reflexivity.
      * apply tame_aret.
Qed.

Lemma loadAndGunzipFile_warm (_lang : lang_spec) :
  tame anywhere Q (loadAndGunzipFile P rs o _lang).
Proof.
  unfold loadAndGunzipFile. apply (tame_bind _ _ anywhere_vars).
  - apply obtain_data_warm.
  - intros content. apply gunzip_and_store_warm.
Qed.

End WarmCache.

(** X28.  With the cache on and a cache that has the files, [loadLanguage]
    needs no network: whatever the schedule, every language asks the cache
    for its cache file, and nothing is fetched, no body of a response is
    read (be [langPath] remote or not). *)
Theorem warm_cache_needs_no_network (P : Platform) (p : packet) (langs : langs_arg)
    (o : language_options) (schedule : list nat) (w : world) :
  action p = "loadLanguage" ->
  payload_of p = PLoadLanguage langs o ->
  includes ["refresh"; "none"] (cacheMethod o) = false ->
  (forall tr path, exists d, answer_cache P tr (adapter_readCache path) = Returns (Some d)) ->
  exists evs,
    trace (snd (worker P schedule p w)) = trace w ++ evs /\
    Forall (fun e => is_network e = false) evs /\
    forall l, In l (lang_specs langs) ->
              In (Invoke (adapter_readCache (cache_file o (lang_code l)))) evs.
Proof.
  intros Ha Hp Hon Hhas.
  destruct (worker_tame P p o (fun _ => True) (fun e => is_network e = false)
              (fun _ _ _ _ => I) (fun _ _ => eq_refl)
              (loadAndGunzipFile_warm P p o Hon Hhas)
              langs schedule w Ha Hp I) as [evs [Ht Hq]].
  exists evs. split; [exact Ht|]. split; [exact Hq|].
  intros l Hin.
  destruct (start_all_trace P p o (lang_specs langs)
              {| vars := vars (attend p w); trace := trace w ++ [loading p] |})
    as [_ [_ [_ Hst]]].
  destruct (loadLanguage_inv P p langs o (attend p w)) as [_ [Hinv [Hp0 [Hl0 _]]]].
  destruct (event_loop_inv P p langs o schedule _ _
              (snd (loadLanguage P p langs o (attend p w))) Hinv Hp0 Hl0)
    as [[_ [e2 [Ht2 _]]] _].
  rewrite (worker_loadLanguage P p langs o Ha Hp) in Ht. simpl in Ht.
  rewrite Ht2 in Ht. unfold loadLanguage in Ht at 1. unfold res, record in Ht.
  cbn [fst snd] in Ht. fold (loading p) in Ht.
  destruct (start_all (loadAndGunzipFile P p o) (lang_specs langs) _) as [ps w2].
  cbn [fst snd] in *. rewrite Hst in Ht. cbn [trace] in Ht.
  rewrite <- !app_assoc in Ht. apply app_inv_head in Ht. subst evs.
  apply in_or_app. right. apply in_or_app. left.
  apply in_flat_map. exists l. split; [exact Hin|].
  unfold first_request. rewrite Hon. now left.
Qed.

(* ================================================================== *)
(** * More of the script, on the sample platforms                      *)
(* ================================================================== *)

Lemma base64_app_witness :
  ((List.length Sample.text mod 3 = 0)%nat) /\
  (arrayBufferToBase64 (Sample.text ++ Sample.gzipped) = (arrayBufferToBase64 Sample.text ++ arrayBufferToBase64 Sample.gzipped)%string).
Proof.
  assert (H1 : (List.length Sample.text mod 3 = 0)%nat)
    by (reflexivity).
  exact (conj H1 (base64_app Sample.text Sample.gzipped H1)).
Defined.

Lemma handlers_answer_exactly_once_witness :
  (lookup (action pdf_job) = Own h_getPDF) /\
  (answers_at_once h_getPDF = true) /\
  (payload_for h_getPDF (payload_of pdf_job) = true) /\
  (exists before st d w',
    dispatchHandlers Sample.base pdf_job Sample.initialized = (Returns Idle, w') /\
    trace w' = trace Sample.initialized ++ before ++ [Sent pdf_job st d] /\
    Forall (unanswered pdf_job) before /\
    st <> progress /\
    latestJob (vars w') = Some pdf_job /\
    TessModule (vars w') = TessModule (vars Sample.initialized)).
Proof.
  assert (H1 : lookup (action pdf_job) = Own h_getPDF)
    by (reflexivity).
  assert (H2 : answers_at_once h_getPDF = true)
    by (reflexivity).
  assert (H3 : payload_for h_getPDF (payload_of pdf_job) = true)
    by (reflexivity).
  exact (conj H1 (conj H2 (conj H3 (handlers_answer_exactly_once Sample.base pdf_job h_getPDF Sample.initialized H1 H2 H3)))).
Defined.




Lemma terminate_twice_ends_twice_witness :
  (action terminate_job = "terminate") /\
  (action terminate_job = "terminate") /\
  (api (vars Sample.initialized) = Some 2) /\
  ((forall tr, answer_unit Sample.base tr (api_End 2) = Returns tt)) /\
  (exists w1 w2,
    dispatchHandlers Sample.base terminate_job Sample.initialized = (Returns Idle, w1) /\
    dispatchHandlers Sample.base terminate_job w1 = (Returns Idle, w2) /\
    api (vars w2) = Some 2 /\
    trace w2 =
      trace Sample.initialized ++ [Invoke (api_End 2); Sent terminate_job resolve DTerminated;
                  Invoke (api_End 2); Sent terminate_job resolve DTerminated]).
Proof.
  assert (H1 : action terminate_job = "terminate")
    by (reflexivity).
  assert (H2 : action terminate_job = "terminate")
    by (reflexivity).
  assert (H3 : api (vars Sample.initialized) = Some 2)
    by (reflexivity).
  assert (H4 : (forall tr, answer_unit Sample.base tr (api_End 2) = Returns tt))
    by (intros; reflexivity).
  exact (conj H1 (conj H2 (conj H3 (conj H4 (terminate_twice_ends_twice Sample.base terminate_job terminate_job 2 Sample.initialized H1 H2 H3 H4))))).
Defined.

Lemma FS_passes_the_call_through_witness :
  (action fs_job = "FS") /\
  (payload_of fs_job = PFS ("readFile") ([VStr "/debug.png"])) /\
  (exists evs,
    dispatchHandlers Sample.base fs_job Sample.loaded =
      (Returns Idle, {| vars := vars (attend fs_job Sample.loaded); trace := trace Sample.loaded ++ evs |}) /\
    match TessModule (vars Sample.loaded) with
    | None =>
        evs = [Sent fs_job reject
                 (DString "TypeError: Cannot read properties of undefined (reading 'FS')")]
    | Some _ =>
        evs = [Invoke (FS_method ("readFile") ([VStr "/debug.png"]));
               match answer_value Sample.base (trace Sample.loaded ++ [Invoke (FS_method ("readFile") ([VStr "/debug.png"]))])
                       (FS_method ("readFile") ([VStr "/debug.png"])) with
               | Returns v => Sent fs_job resolve (DValue v)
               | Throws e => Sent fs_job reject (DString (toString e))
               end]
    end).
Proof.
  assert (H1 : action fs_job = "FS")
    by (reflexivity).
  assert (H2 : payload_of fs_job = PFS ("readFile") ([VStr "/debug.png"]))
    by (reflexivity).
  exact (conj H1 (conj H2 (FS_passes_the_call_through Sample.base fs_job ("readFile") ([VStr "/debug.png"]) Sample.loaded H1 H2))).
Defined.

Lemma getPDF_frees_the_renderer_then_reads_witness :
  (action pdf_job = "getPDF") /\
  (payload_of pdf_job = PGetPDF (VStr "scan") (VBool false)) /\
  (exists evs,
    dispatchHandlers Sample.base pdf_job Sample.initialized =
      (Returns Idle, {| vars := vars (attend pdf_job Sample.initialized); trace := trace Sample.initialized ++ evs |}) /\
    ((exists r pdf,
        answer_handle Sample.base (trace Sample.initialized ++ [Invoke (TessPDFRenderer_new (VBool false))])
          (TessPDFRenderer_new (VBool false)) = Returns r /\
        answer_bytes Sample.base
          (trace Sample.initialized ++ [Invoke (TessPDFRenderer_new (VBool false));
                       Invoke (pdf_BeginDocument r (VStr "scan"));
                       Invoke (pdf_AddImage r (api (vars Sample.initialized)));
                       Invoke (pdf_EndDocument r);
                       Invoke (TessModule_free (VRef r));
                       Invoke (FS_readFile "/tesseract-ocr.pdf")])
          (FS_readFile "/tesseract-ocr.pdf") = Returns pdf /\
        evs = [Invoke (TessPDFRenderer_new (VBool false));
               Invoke (pdf_BeginDocument r (VStr "scan"));
               Invoke (pdf_AddImage r (api (vars Sample.initialized)));
               Invoke (pdf_EndDocument r);
               Invoke (TessModule_free (VRef r));
               Invoke (FS_readFile "/tesseract-ocr.pdf");
               Sent pdf_job resolve (DBytes pdf)]) \/
     (exists msg,
        responses evs = [(reject, DString msg)] /\
        forall ptr, In (Invoke (TessModule_free ptr)) evs ->
                    exists r, ptr = VRef r /\ In (Invoke (pdf_EndDocument r)) evs))).
Proof.
  assert (H1 : action pdf_job = "getPDF")
    by (reflexivity).
  assert (H2 : payload_of pdf_job = PGetPDF (VStr "scan") (VBool false))
    by (reflexivity).
  exact (conj H1 (conj H2 (getPDF_frees_the_renderer_then_reads Sample.base pdf_job (VStr "scan") (VBool false) Sample.initialized H1 H2))).
Defined.

Lemma load_again_resolves_at_once_witness :
  (action core_job = "load") /\
  (payload_of core_job = PLoad (VStr "tesseract-core.wasm.js") (VBool false)) /\
  (TessModule (vars Sample.loaded) = Some 1) /\
  (worker Sample.base ([0]) core_job Sample.loaded =
    (Idle,
     {| vars := vars (attend core_job Sample.loaded);
        trace := trace Sample.loaded ++
          [Invoke (setLogging (VBool false));
           match answer_unit Sample.base (trace Sample.loaded ++ [Invoke (setLogging (VBool false))])
                   (setLogging (VBool false)) with
           | Returns _ => Sent core_job resolve DLoaded
           | Throws e => Sent core_job reject (DString (toString e))
           end] |})).
Proof.
  assert (H1 : action core_job = "load")
    by (reflexivity).
  assert (H2 : payload_of core_job = PLoad (VStr "tesseract-core.wasm.js") (VBool false))
    by (reflexivity).
  assert (H3 : TessModule (vars Sample.loaded) = Some 1)
    by (reflexivity).
  exact (conj H1 (conj H2 (conj H3 (load_again_resolves_at_once Sample.base core_job (VStr "tesseract-core.wasm.js") (VBool false) 1 ([0]) Sample.loaded H1 H2 H3)))).
Defined.


Lemma setParameters_without_an_api_witness :
  (action Sample.set_job = "setParameters") /\
  (payload_of Sample.set_job = PSetParameters Sample.new_params) /\
  (api (vars Sample.loaded) = None) /\
  (exists evs prms,
    dispatchHandlers Sample.base Sample.set_job Sample.loaded =
      (Returns Idle,
       {| vars := {| TessModule := TessModule (vars Sample.loaded); api := None;
                     latestJob := Some Sample.set_job; params := prms |};
          trace := trace Sample.loaded ++ evs |}) /\
    match forwarded Sample.new_params with
    | [] =>
        prms = spread (params (vars Sample.loaded)) Sample.new_params /\
        evs = [Sent Sample.set_job resolve (DParams prms)]
    | _ :: _ =>
        prms = params (vars Sample.loaded) /\
        evs = [Sent Sample.set_job reject
                 (DString "TypeError: Cannot read properties of null (reading 'SetVariable')")]
    end).
Proof.
  assert (H1 : action Sample.set_job = "setParameters")
    by (reflexivity).
  assert (H2 : payload_of Sample.set_job = PSetParameters Sample.new_params)
    by (reflexivity).
  assert (H3 : api (vars Sample.loaded) = None)
    by (reflexivity).
  exact (conj H1 (conj H2 (conj H3 (setParameters_without_an_api Sample.base Sample.set_job Sample.new_params Sample.loaded H1 H2 H3)))).
Defined.

Lemma initialize_failed_Init_keeps_the_new_instance_witness :
  (payload_of Sample.init_job = PInitialize (LangsString "eng") (VNum 1)) /\
  (TessModule (vars Sample.loaded) = Some 1) /\
  ((forall tr a, answer_unit (Sample.node false true true) tr (api_End a) = Returns tt)) /\
  ((forall tr, exists a', answer_handle (Sample.node false true true) tr TessBaseAPI_new = Returns a')) /\
  ((forall tr a langs, answer_unit (Sample.node false true true) tr (api_Init a langs (VNum 1)) = Throws Sample.abort)) /\
  (exists a' evs,
    initialize (Sample.node false true true) Sample.init_job Sample.loaded =
      (Returns tt,
       {| vars := {| TessModule := Some 1; api := Some a';
                     latestJob := latestJob (vars Sample.loaded); params := params (vars Sample.loaded) |};
          trace := trace Sample.loaded ++ evs |}) /\
    answer_handle (Sample.node false true true)
      (trace Sample.loaded
         ++ Sent Sample.init_job progress (DProgress (workerId Sample.init_job) None "initializing api" 0)
         :: match api (vars Sample.loaded) with Some old => [Invoke (api_End old)] | None => [] end
         ++ [Invoke TessBaseAPI_new])
      TessBaseAPI_new = Returns a' /\
    evs =
      Sent Sample.init_job progress (DProgress (workerId Sample.init_job) None "initializing api" 0)
      :: match api (vars Sample.loaded) with Some old => [Invoke (api_End old)] | None => [] end
      ++ [Invoke TessBaseAPI_new;
          Invoke (api_Init a' (init_langs (Sample.node false true true) (LangsString "eng")) (VNum 1));
          Sent Sample.init_job reject (DString (toString Sample.abort))]).
Proof.
  assert (H1 : payload_of Sample.init_job = PInitialize (LangsString "eng") (VNum 1))
    by (reflexivity).
  assert (H2 : TessModule (vars Sample.loaded) = Some 1)
    by (reflexivity).
  assert (H3 : (forall tr a, answer_unit (Sample.node false true true) tr (api_End a) = Returns tt))
    by (intros; reflexivity).
  assert (H4 : (forall tr, exists a', answer_handle (Sample.node false true true) tr TessBaseAPI_new = Returns a'))
    by (intros; eexists; reflexivity).
  assert (H5 : (forall tr a langs, answer_unit (Sample.node false true true) tr (api_Init a langs (VNum 1)) = Throws Sample.abort))
    by (intros; reflexivity).
  exact (conj H1 (conj H2 (conj H3 (conj H4 (conj H5 (initialize_failed_Init_keeps_the_new_instance (Sample.node false true true) Sample.init_job (LangsString "eng") (VNum 1) 1 Sample.abort Sample.loaded H1 H2 H3 H4 H5)))))).
Defined.

Lemma loadLanguage_resolves_last_and_once_witness :
  (action (Sample.load_job (LangsString "eng") None) = "loadLanguage") /\
  (payload_of (Sample.load_job (LangsString "eng") None) = PLoadLanguage (LangsString "eng") (Sample.options None)) /\
  (exists j evs,
    worker Sample.base ([0; 0; 0; 0; 0]) (Sample.load_job (LangsString "eng") None) Sample.loaded = (Loading j, snd (worker Sample.base ([0; 0; 0; 0; 0]) (Sample.load_job (LangsString "eng") None) Sample.loaded)) /\
    trace (snd (worker Sample.base ([0; 0; 0; 0; 0]) (Sample.load_job (LangsString "eng") None) Sample.loaded)) = trace Sample.loaded ++ evs /\
    ((forall q d, ~ In (Sent q resolve d) evs) \/
     (exists before,
        evs = before ++ [Sent (Sample.load_job (LangsString "eng") None) resolve (DLangs (LangsString "eng"))] /\
        (forall q d, ~ In (Sent q resolve d) before) /\
        all_rejection j = None /\ continued j = true))).
Proof.
  assert (H1 : action (Sample.load_job (LangsString "eng") None) = "loadLanguage")
    by (reflexivity).
  assert (H2 : payload_of (Sample.load_job (LangsString "eng") None) = PLoadLanguage (LangsString "eng") (Sample.options None))
    by (reflexivity).
  exact (conj H1 (conj H2 (loadLanguage_resolves_last_and_once Sample.base (Sample.load_job (LangsString "eng") None) (LangsString "eng") (Sample.options None) ([0; 0; 0; 0; 0]) Sample.loaded H1 H2))).
Defined.

Lemma loadLanguage_rejection_is_answered_or_swallowed_witness :
  (action (server_job (LangsString "eng")) = "loadLanguage") /\
  (payload_of (server_job (LangsString "eng")) = PLoadLanguage (LangsString "eng") from_server) /\
  (4 * length (lang_specs (LangsString "eng")) + 1 <= length ([0; 0; 0; 0; 0])) /\
  (exists j evs,
    worker offline ([0; 0; 0; 0; 0]) (server_job (LangsString "eng")) Sample.loaded = (Loading j, snd (worker offline ([0; 0; 0; 0; 0]) (server_job (LangsString "eng")) Sample.loaded)) /\
    trace (snd (worker offline ([0; 0; 0; 0; 0]) (server_job (LangsString "eng")) Sample.loaded)) = trace Sample.loaded ++ evs /\
    quiescent j /\
    forall e, all_rejection j = Some e ->
      In (Rejected e) (loads j) /\
      (forall q d, ~ In (Sent q resolve d) evs) /\
      if isWebWorker offline && isDOMException e
      then truthy_path (dataPath from_server) = false ->
           Forall (fun ev => terminalb ev = false) evs
      else In (Sent (server_job (LangsString "eng")) reject (DString (toString e))) evs).
Proof.
  assert (H1 : action (server_job (LangsString "eng")) = "loadLanguage")
    by (reflexivity).
  assert (H2 : payload_of (server_job (LangsString "eng")) = PLoadLanguage (LangsString "eng") from_server)
    by (reflexivity).
  assert (H3 : 4 * length (lang_specs (LangsString "eng")) + 1 <= length ([0; 0; 0; 0; 0]))
    by (simpl; lia).
  exact (conj H1 (conj H2 (conj H3 (loadLanguage_rejection_is_answered_or_swallowed offline (server_job (LangsString "eng")) (LangsString "eng") from_server ([0; 0; 0; 0; 0]) Sample.loaded H1 H2 H3)))).
Defined.

Lemma loadLanguage_touches_only_its_own_files_witness :
  (action (Sample.load_job (LangsString "eng+fra") None) = "loadLanguage") /\
  (payload_of (Sample.load_job (LangsString "eng+fra") None) = PLoadLanguage (LangsString "eng+fra") (Sample.options None)) /\
  (exists evs,
    trace (snd (worker Sample.base ([1; 0; 1; 0; 1; 0; 0; 0; 0]) (Sample.load_job (LangsString "eng+fra") None) Sample.loaded)) = trace Sample.loaded ++ evs /\
    (forall url,
        In (Invoke (adapter_fetch url)) evs \/ In (Invoke (global_fetch url)) evs ->
        is_remote Sample.base (langPath (Sample.options None)) = true /\
        exists code, In (LangCode code) (lang_specs (LangsString "eng+fra")) /\ url = source_file (Sample.options None) code) /\
    (forall url, In (Invoke (adapter_fetch url)) evs -> isWebWorker Sample.base = false) /\
    (forall url, In (Invoke (global_fetch url)) evs -> isWebWorker Sample.base = true) /\
    (forall path content,
        In (Invoke (FS_writeFile path content)) evs ->
        exists l, In l (lang_specs (LangsString "eng+fra")) /\ path = data_file (Sample.options None) (lang_code l)) /\
    (forall path content,
        In (Invoke (adapter_writeCache path content)) evs ->
        includes_or_undefined ["write"; "refresh"] (cacheMethod (Sample.options None)) = true /\
        exists l, In l (lang_specs (LangsString "eng+fra")) /\ path = cache_file (Sample.options None) (lang_code l)) /\
    (forall path,
        In (Invoke (FS_mkdir path)) evs ->
        truthy_path (dataPath (Sample.options None)) = true /\ dataPath (Sample.options None) = Some path) /\
    (forall path,
        In (Invoke (adapter_readCache path)) evs ->
        (includes ["refresh"; "none"] (cacheMethod (Sample.options None)) = false /\
         exists l, In l (lang_specs (LangsString "eng+fra")) /\ path = cache_file (Sample.options None) (lang_code l)) \/
        (is_remote Sample.base (langPath (Sample.options None)) = false /\
         exists code, In (LangCode code) (lang_specs (LangsString "eng+fra")) /\ path = source_file (Sample.options None) code))).
Proof.
  assert (H1 : action (Sample.load_job (LangsString "eng+fra") None) = "loadLanguage")
    by (reflexivity).
  assert (H2 : payload_of (Sample.load_job (LangsString "eng+fra") None) = PLoadLanguage (LangsString "eng+fra") (Sample.options None))
    by (reflexivity).
  exact (conj H1 (conj H2 (loadLanguage_touches_only_its_own_files Sample.base (Sample.load_job (LangsString "eng+fra") None) (LangsString "eng+fra") (Sample.options None) ([1; 0; 1; 0; 1; 0; 0; 0; 0]) Sample.loaded H1 H2))).
Defined.

Lemma loadLanguage_of_nothing_witness :
  (action (Sample.load_job (LangsArray []) None) = "loadLanguage") /\
  ((payload_of (Sample.load_job (LangsArray []) None) = PLoadLanguage (LangsArray []) (Sample.options None) ->
   trace (snd (worker Sample.base (0 :: ([])) (Sample.load_job (LangsArray []) None) Sample.loaded)) =
     trace Sample.loaded ++
       [loading (Sample.load_job (LangsArray []) None);
        Sent (Sample.load_job (LangsArray []) None) progress (DProgress (workerId (Sample.load_job (LangsArray []) None)) None "loaded language traineddata" 1);
        Sent (Sample.load_job (LangsArray []) None) resolve (DLangs (LangsArray []))]) /\
  (payload_of (Sample.load_job (LangsArray []) None) = PLoadLanguage (LangsString "") (Sample.options None) ->
   includes ["refresh"; "none"] (cacheMethod (Sample.options None)) = false ->
   exists rest,
     trace (snd (dispatchHandlers Sample.base (Sample.load_job (LangsArray []) None) Sample.loaded)) =
       trace Sample.loaded ++ [loading (Sample.load_job (LangsArray []) None); Invoke (adapter_readCache (cache_file (Sample.options None) ""))] /\
     fst (dispatchHandlers Sample.base (Sample.load_job (LangsArray []) None) Sample.loaded) = Returns (Loading rest) /\
     length (loads rest) = 1)).
Proof.
  assert (H1 : action (Sample.load_job (LangsArray []) None) = "loadLanguage")
    by (reflexivity).
  exact (conj H1 (loadLanguage_of_nothing Sample.base (Sample.load_job (LangsArray []) None) (Sample.options None) 0 ([]) Sample.loaded H1)).
Defined.

(** Offline in a browser, the language of a server cannot be fetched: the
    load is rejected with the [DOMException], and the job is never
    answered. *)
Lemma offline_job_is_never_answered :
  responses (trace (snd (worker offline [0; 0; 0; 0; 0] (server_job (LangsString "eng"))
                          Sample.loaded)))
  = [(progress, DProgress "Worker-0" None "loading language traineddata" 0)] /\
  match fst (worker offline [0; 0; 0; 0; 0] (server_job (LangsString "eng")) Sample.loaded) with
  | Loading j => all_rejection j = Some AbortError /\ continued j = true
  | _ => False
  end.
Proof. vm_compute. auto. Qed.

(** When the core never arrives, the first [load] is never answered
    either, and the module stays unset. *)
Lemma load_without_core_is_never_answered :
  responses (trace (snd (worker no_core [0] core_job fresh))) = [initializing core_job] /\
  TessModule (vars (snd (worker no_core [0] core_job fresh))) = None.
Proof. vm_compute. auto. Qed.

(** [recognize] where [_free] throws: resolved, then rejected. *)
Lemma recognize_answers_twice :
  map fst (responses (trace (snd (recognize free_fails recognize_job Sample.initialized))))
  = [resolve; reject].
Proof. vm_compute. reflexivity. Qed.

(** [recognize] where [dump] returns [undefined]: setting [image] on it
    throws, so the job is rejected, and the image buffer is not freed. *)
Lemma recognize_of_no_result_is_rejected :
  trace (snd (recognize dumps_nothing recognize_job Sample.initialized))
  = [ Invoke (setImage (Some 2) (VRef 9) (VNum 0));
      Invoke (api_GetThresholdedImage 2);
      Invoke (FS_readFile "/debug.png");
      Invoke (api_Recognize 2);
      Invoke (dump (Some 2) (params (vars Sample.initialized)));
      Sent recognize_job reject
        (DString "TypeError: Cannot set properties of undefined (setting 'image')") ].
Proof. vm_compute. reflexivity. Qed.

(** The first [load] with an adapter that reports through the emitter:
    its report goes out before the responses of the script. *)
Lemma load_with_an_announcing_adapter :
  responses (trace (snd (worker announcing [0] core_job fresh)))
  = [ (progress, DString "loading tesseract core");
      initializing core_job; initialized_core core_job; (resolve, DLoaded) ].
Proof. vm_compute. reflexivity. Qed.

(** The error of an action that names nothing callable, as V8 words it. *)
Lemma not_a_function_text :
  toString not_a_function =
  ("TypeError: {(intermediate value)(intermediate value)(intermediate value)"
   ++ "(intermediate value)(intermediate value)(intermediate value)"
   ++ "(intermediate value)(intermediate value)(intermediate value)"
   ++ "(intermediate value)}[packet.action] is not a function")%string.
Proof. reflexivity. Qed.

(** The image [threshold] answers with, and the bytes it stands for. *)
Lemma threshold_of_three_bytes :
  responses (trace (snd (threshold Sample.base threshold_job Sample.initialized)))
  = [(resolve, DString "data:image/png;base64,VEVT")] /\
  base64_decode "VEVT" = Some Sample.text /\
  arrayBufferToBase64 Sample.gzipped = "H4sIVEVT".
Proof. vm_compute. auto. Qed.

Lemma image_handlers_need_an_api_witness :
  (lookup (action recognize_job) = Own h_recognize) /\
  (needs_api h_recognize = true) /\
  (payload_for h_recognize (payload_of recognize_job) = true) /\
  (api (vars Sample.loaded) = None) /\
  (exists evs msg,
    dispatchHandlers Sample.base recognize_job Sample.loaded =
      (Returns Idle, {| vars := vars (attend recognize_job Sample.loaded); trace := trace Sample.loaded ++ evs |}) /\
    responses evs = [(reject, DString msg)] /\
    (forall c, In (Invoke c) evs ->
               (exists image angle, c = setImage None image angle) \/ c = OSResults_new)).
Proof.
  assert (H1 : lookup (action recognize_job) = Own h_recognize)
    by (reflexivity).
  assert (H2 : needs_api h_recognize = true)
    by (reflexivity).
  assert (H3 : payload_for h_recognize (payload_of recognize_job) = true)
    by (reflexivity).
  assert (H4 : api (vars Sample.loaded) = None)
    by (reflexivity).
  exact (conj H1 (conj H2 (conj H3 (conj H4 (image_handlers_need_an_api Sample.base recognize_job h_recognize Sample.loaded H1 H2 H3 H4))))).
Defined.

Lemma recognize_uses_the_parameters_set_witness :
  (action Sample.set_job = "setParameters") /\
  (payload_of Sample.set_job = PSetParameters Sample.new_params) /\
  (action recognize_job = "recognize") /\
  (payload_of recognize_job = PRecognize (VRef 9) None VUndefined) /\
  (api (vars Sample.initialized) = Some 2) /\
  ((forall tr k v, answer_unit Sample.base tr (api_SetVariable 2 k v) = Returns tt)) /\
  (exists w1 w2 evs,
    dispatchHandlers Sample.base Sample.set_job Sample.initialized = (Returns Idle, w1) /\
    responses (trace w1) =
      responses (trace Sample.initialized) ++ [(resolve, DParams (spread (params (vars Sample.initialized)) Sample.new_params))] /\
    dispatchHandlers Sample.base recognize_job w1 = (Returns Idle, w2) /\
    trace w2 = trace w1 ++ evs /\
    forall a' prms, In (Invoke (dump a' prms)) evs ->
                    a' = Some 2 /\ prms = spread (params (vars Sample.initialized)) Sample.new_params).
Proof.
  assert (H1 : action Sample.set_job = "setParameters")
    by (reflexivity).
  assert (H2 : payload_of Sample.set_job = PSetParameters Sample.new_params)
    by (reflexivity).
  assert (H3 : action recognize_job = "recognize")
    by (reflexivity).
  assert (H4 : payload_of recognize_job = PRecognize (VRef 9) None VUndefined)
    by (reflexivity).
  assert (H5 : api (vars Sample.initialized) = Some 2)
    by (reflexivity).
  assert (H6 : (forall tr k v, answer_unit Sample.base tr (api_SetVariable 2 k v) = Returns tt))
    by (intros; reflexivity).
  exact (conj H1 (conj H2 (conj H3 (conj H4 (conj H5 (conj H6 (recognize_uses_the_parameters_set Sample.base Sample.set_job recognize_job Sample.new_params (VRef 9) None VUndefined 2 Sample.initialized H1 H2 H3 H4 H5 H6))))))).
Defined.

Lemma loadLanguage_before_load_stores_nothing_witness :
  (action (Sample.load_job (LangsString "eng") None) = "loadLanguage") /\
  (payload_of (Sample.load_job (LangsString "eng") None) = PLoadLanguage (LangsString "eng") (Sample.options None)) /\
  (TessModule (vars fresh) = None) /\
  (exists evs,
    trace (snd (worker Sample.base ([0; 0; 0; 0; 0]) (Sample.load_job (LangsString "eng") None) fresh)) = trace fresh ++ evs /\
    Forall (fun e => is_engine_write e = false) evs /\
    (cooperative Sample.base (Sample.options None) ->
     4 * length (lang_specs (LangsString "eng")) + 1 <= length ([0; 0; 0; 0; 0]) ->
     exists before, evs = before ++ [Sent (Sample.load_job (LangsString "eng") None) resolve (DLangs (LangsString "eng"))])).
Proof.
  assert (H1 : action (Sample.load_job (LangsString "eng") None) = "loadLanguage")
    by (reflexivity).
  assert (H2 : payload_of (Sample.load_job (LangsString "eng") None) = PLoadLanguage (LangsString "eng") (Sample.options None))
    by (reflexivity).
  assert (H3 : TessModule (vars fresh) = None)
    by (reflexivity).
  exact (conj H1 (conj H2 (conj H3 (loadLanguage_before_load_stores_nothing Sample.base (Sample.load_job (LangsString "eng") None) (LangsString "eng") (Sample.options None) ([0; 0; 0; 0; 0]) fresh H1 H2 H3)))).
Defined.

Lemma warm_cache_needs_no_network_witness :
  (action (Sample.job "loadLanguage" (PLoadLanguage (LangsString "eng+fra") from_server_cached)) = "loadLanguage") /\
  (payload_of (Sample.job "loadLanguage" (PLoadLanguage (LangsString "eng+fra") from_server_cached)) = PLoadLanguage (LangsString "eng+fra") from_server_cached) /\
  (includes ["refresh"; "none"] (cacheMethod from_server_cached) = false) /\
  ((forall tr path, exists d, answer_cache cached tr (adapter_readCache path) = Returns (Some d))) /\
  (exists evs,
    trace (snd (worker cached ([1; 0; 1; 0; 1; 0; 0; 0; 0]) (Sample.job "loadLanguage" (PLoadLanguage (LangsString "eng+fra") from_server_cached)) Sample.loaded)) = trace Sample.loaded ++ evs /\
    Forall (fun e => is_network e = false) evs /\
    forall l, In l (lang_specs (LangsString "eng+fra")) ->
              In (Invoke (adapter_readCache (cache_file from_server_cached (lang_code l)))) evs).
Proof.
  assert (H1 : action (Sample.job "loadLanguage" (PLoadLanguage (LangsString "eng+fra") from_server_cached)) = "loadLanguage")
    by (reflexivity).
  assert (H2 : payload_of (Sample.job "loadLanguage" (PLoadLanguage (LangsString "eng+fra") from_server_cached)) = PLoadLanguage (LangsString "eng+fra") from_server_cached)
    by (reflexivity).
  assert (H3 : includes ["refresh"; "none"] (cacheMethod from_server_cached) = false)
    by (reflexivity).
  assert (H4 : (forall tr path, exists d, answer_cache cached tr (adapter_readCache path) = Returns (Some d)))
    by (intros; eexists; reflexivity).
  exact (conj H1 (conj H2 (conj H3 (conj H4 (warm_cache_needs_no_network cached (Sample.job "loadLanguage" (PLoadLanguage (LangsString "eng+fra") from_server_cached)) (LangsString "eng+fra") from_server_cached ([1; 0; 1; 0; 1; 0; 0; 0; 0]) Sample.loaded H1 H2 H3 H4))))).
Defined.
